(** * Unik image assembly (pkg/os/utils.go): a shallow embedding

    The assemblers of [pkg/os/utils.go] drive loop devices, device-mapper
    mappings, partitioners and shell utilities.  They are embedded as
    functions over an abstract host: every collaborator call is performed
    by the host, which answers with a reply and a new world, and is
    recorded in a trace.  Go's [defer], early [return] and run-time panics
    are part of the monad the function bodies are written in. *)

From Stdlib Require Import ZArith Lia Ascii String.
From stdpp Require Import base option list strings gmap.

Open Scope Z_scope.

(** ** Size and sector arithmetic *)

Definition error := string.

(** Modelled from the spec: the sector size constant, missing from the
    sources ("Sector size is a fixed constant (512 bytes ...)"). *)
Definition SectorSize : Z := 512.

(** Unsigned 64-bit wrap-around (the byte counts of the spec) and signed
    64-bit wrap-around (Go's [int64]). *)
Definition wrap64 (z : Z) : Z := z mod 2 ^ 64.
Definition int64 (z : Z) : Z := (z + 2 ^ 63) mod 2 ^ 64 - 2 ^ 63.

(** Go's [x &^ y] on integers. *)
Definition and_not (x y : Z) : Z := Z.ldiff x y.

(** Modelled from the spec: the size types, missing from the sources.
    "ByteSize: an integer count of bytes with derived units (megabytes,
    sectors) ... conversions are exact multiplications"; "all arithmetic
    is on unsigned 64-bit byte counts".  The megabyte is the binary one,
    a whole number of sectors. *)
Inductive DiskSize : Type :=
| Bytes (n : Z)
| MegaBytes (n : Z)
| Sectors (n : Z).

Definition ToBytes (s : DiskSize) : Z :=
  match s with
  | Bytes n => wrap64 n
  | MegaBytes n => wrap64 (n * 2 ^ 20)
  | Sectors n => wrap64 (n * SectorSize)
  end.

(** Modelled from the spec: convert-to-sectors, missing from the sources
    ("fails with UnrepresentableSize if the byte count is not an exact
    multiple of the sector size"). *)
Definition ToSectors (b : DiskSize) : Z * option error :=
  let inBytes := ToBytes b in
  if decide (inBytes mod SectorSize = 0)
  then (inBytes / SectorSize, None)
  else (0, Some "UnrepresentableSize"%string).

(** ** Resources, partitions, partitioners, volumes *)

Definition BlockDevice := string.

(** The resources the assemblers acquire.  [NewLoDevice] and [NewDevice]
    build the first two; partitions of other kinds are opaque. *)
Inductive Resource : Type :=
| LoDevice (file : string)
| DeviceMapperDevice (start size : Z) (orginalDevice : BlockDevice)
    (DeviceName : string)
| OtherPart (id : string).

Definition NewLoDevice (file : string) : Resource := LoDevice file.
Definition NewDevice (start size : Z) (origin : BlockDevice) (deivceName : string)
  : Resource := DeviceMapperDevice start size origin deivceName.

(** A partition: a resource with its offset and size on the device. *)
Record Part : Type := mkPart
  { part_resource : Resource; Offset : DiskSize; Size : DiskSize }.

Inductive Partitioner : Type :=
| MsDosPartioner (Device : string)
| DiskLabelPartioner (Device : string).

Module types.
Record RawVolume : Type := mkRawVolume { Path : string; Size : Z }.
Definition zero : RawVolume := mkRawVolume "" 0.
End types.

(** ** The host: collaborator calls and their replies *)

Definition File := string.

Inductive call : Type :=
| CAcquire (r : Resource)
| CRelease (r : Resource)
| CMakeTable (p : Partitioner)
| CMakePartTillEnd (p : Partitioner) (partType : string) (start : DiskSize)
| CMakePart (p : Partitioner) (partType : string) (start end_ : DiskSize)
| CListParts (device : BlockDevice)
| CRunLogCommand (name : string) (args : list string)
| CMount (device : BlockDevice)
| CUmount (mntPoint : string)
| CCopyFile (src dst : string)
| CCopyDir (src dst : string)
| CGetDirSize (dir : string)
| CMkdirAll (dir : string) (perm : Z)
| CCreate (name : string)
| CSeek (f : File) (offset whence : Z)
| CWrite (f : File) (data : string)
| CClose (f : File).

(** A reply carries the error, if any, and the values a call returns:
    a name (device node, mount point), a partition list, a number. *)
Record reply : Type := mkReply
  { rerr : option error; rname : string; rparts : list Part; rnum : Z }.

Definition ok_reply : reply := mkReply None "" [] 0.

(** Entries into functions of this file that the properties mention. *)
Inductive entry : Type :=
| FcreateSparseFile (filename : string) (size : DiskSize)
| FcopyToPart (folder : string) (part : Part)
| FPrepareGrub (folder rootDeviceName kernel commandline : string).

Inductive event : Type :=
| EvHost (c : call) (r : reply)
| EvEnter (f : entry)
| EvRange (keys : list string).

Class Host (W : Type) : Type := mkHost
  { perform : call -> W -> reply * W;
    (* Go's path.Join *)
    path_Join : list string -> string;
    (* the order in which one [range] statement visits a map *)
    range_order : gmap string types.RawVolume -> W -> list string;
    range_order_perm : forall m w, range_order m w ≡ₚ (map_to_list m).*1 }.

(** ** The monad of function bodies

    A body runs against the frame's stack of deferred calls and the
    world; it yields the next value, returns from the function, or
    panics, and emits events. *)

Inductive outcome (R A : Type) : Type :=
| Next (a : A)
| Return (r : R)
| Panicking (msg : string).
Arguments Next {R A} a.
Arguments Return {R A} r.
Arguments Panicking {R A} msg.

Inductive result (R : Type) : Type :=
| Done (r : R)
| Panic (msg : string).
Arguments Done {R} r.
Arguments Panic {R} msg.

Section Monad.
Context {W : Type} {H : Host W}.

Definition M (R A : Type) : Type :=
  list call -> W -> outcome R A * list event * list call * W.

Definition Fn (R : Type) : Type := W -> result R * list event * W.

Definition ret {R A} (a : A) : M R A := fun ds w => (Next a, [], ds, w).

Definition bind {R A B} (m : M R A) (k : A -> M R B) : M R B :=
  fun ds w =>
    match m ds w with
    | (Next a, ev, ds1, w1) =>
        match k a ds1 w1 with
        | (o, ev2, ds2, w2) => (o, ev ++ ev2, ds2, w2)
        end
    | (Return r, ev, ds1, w1) => (Return r, ev, ds1, w1)
    | (Panicking msg, ev, ds1, w1) => (Panicking msg, ev, ds1, w1)
    end.

Definition return_ {R A} (r : R) : M R A := fun ds w => (Return r, [], ds, w).
Definition panic {R A} (msg : string) : M R A :=
  fun ds w => (Panicking msg, [], ds, w).

(** A collaborator call. *)
Definition sys {R} (c : call) : M R reply :=
  fun ds w => let '(rep, w1) := perform c w in (Next rep, [EvHost c rep], ds, w1).

(** [defer c]: push the call on the frame's stack. *)
Definition defer {R} (c : call) : M R unit :=
  fun ds w => (Next tt, [], c :: ds, w).

Definition enter {R} (f : entry) : M R unit :=
  fun ds w => (Next tt, [EvEnter f], ds, w).

(** The deferred calls run last-in first-out when the function exits;
    what they return is dropped. *)
Fixpoint run_defers (ds : list call) (w : W) : list event * W :=
  match ds with
  | [] => ([], w)
  | c :: ds' =>
      let '(rep, w1) := perform c w in
      let '(ev, w2) := run_defers ds' w1 in
      (EvHost c rep :: ev, w2)
  end.

Definition func {R} (body : M R Empty_set) : Fn R :=
  fun w =>
    match body [] w with
    | (o, ev, ds, w1) =>
        let '(ev2, w2) := run_defers ds w1 in
        (match o with
         | Next e => match e with end
         | Return r => Done r
         | Panicking msg => Panic msg
         end, ev ++ ev2, w2)
    end.

(** Calling a function from a body. *)
Definition invoke {R R'} (f : Fn R') : M R R' :=
  fun ds w =>
    match f w with
    | (Done r, ev, w1) => (Next r, ev, ds, w1)
    | (Panic msg, ev, w1) => (Panicking msg, ev, ds, w1)
    end.

(** [s[i]] on a slice: a run-time panic out of range. *)
Definition index {R A} (l : list A) (i : Z) : M R A :=
  if decide (0 <= i)
  then match l !! Z.to_nat i with
       | Some x => ret x
       | None => panic "index out of range"
       end
  else panic "index out of range".

(** [for i, x := range l] with the variables the loop updates. *)
Fixpoint for_range {R A St} (l : list A) (i : nat) (acc : St)
    (body : nat -> A -> St -> M R St) : M R St :=
  match l with
  | [] => ret acc
  | x :: l' => bind (body i x acc) (fun acc' => for_range l' (S i) acc' body)
  end.
End Monad.
Arguments M W R A : clear implicits.
Arguments Fn W R : clear implicits.

Notation "'let*' x ':=' m 'in' k" := (bind m (fun x => k))
  (at level 10, x pattern, m at level 100, k at level 200).
Notation "m ';;' k" := (bind m (fun _ => k))
  (at level 100, k at level 200, right associativity).

(** ** Go's text/template, as far as the two templates need it

    A template is text with actions [{{.Field}}]; executing it writes the
    text with every action replaced by the field of the data. *)

Inductive node : Type :=
| TextNode (text : string)
| FieldNode (name : string).

(** Cut [s] at the first occurrence of the two characters [a b]. *)
Fixpoint cut (a b : ascii) (s : string) : string * option string :=
  match s with
  | EmptyString => (EmptyString, None)
  | String c s' =>
      match s' with
      | String d s'' =>
          if bool_decide (c = a) && bool_decide (d = b)
          then (EmptyString, Some s'')
          else let '(t, r) := cut a b s' in (String c t, r)
      | EmptyString => (String c EmptyString, None)
      end
  end.

Definition text_node (t : string) : list node :=
  match t with EmptyString => [] | _ => [TextNode t] end.

Fixpoint parse_nodes (fuel : nat) (s : string) : option (list node) :=
  match cut "{" "{" s with
  | (t, None) => Some (text_node t)
  | (t, Some rest) =>
      match fuel with
      | O => None
      | S fuel' =>
          match cut "}" "}" rest with
          | (String "." name, Some rest') =>
              match parse_nodes fuel' rest' with
              | Some ns => Some (text_node t ++ FieldNode name :: ns)
              | None => None
              end
          | _ => None
          end
      end
  end.

Definition template_Parse (text : string) : option (list node) :=
  parse_nodes (String.length text) text.

Fixpoint field (data : list (string * string)) (name : string) : option string :=
  match data with
  | [] => None
  | (n, v) :: data' => if bool_decide (n = name) then Some v else field data' name
  end.

Fixpoint render (t : list node) (data : list (string * string)) : option string :=
  match t with
  | [] => Some EmptyString
  | TextNode text :: t' => option_map (String.append text) (render t' data)
  | FieldNode name :: t' =>
      match field data name with
      | Some v => option_map (String.append v) (render t' data)
      | None => None
      end
  end.

(** ** pkg/os/utils.go *)

Definition GrubTemplate : string := "default=0
fallback=1
timeout=1
hiddenmenu

title Unik
root {{.RootDrive}}
kernel /boot/program.bin {{.CommandLine}}
".

Definition DeviceMapFile : string := "(hd0) {{.GrubDevice}}
".

Definition ProgramName : string := "program.bin".

Section Utils.
Context {W : Type} {H : Host W}.

(** [if err != nil { return ... err }] *)
Definition when_err {R} (err : option error) (k : error -> R) : M W R unit :=
  match err with
  | Some e => return_ (k e)
  | None => ret tt
  end.

(** The collaborators, as the sources call them. *)
Definition Acquire {R} (r : Resource) : M W R (BlockDevice * option error) :=
  let* rep := sys (CAcquire r) in ret (rname rep, rerr rep).
Definition ListParts {R} (device : BlockDevice) : M W R (list Part * option error) :=
  let* rep := sys (CListParts device) in ret (rparts rep, rerr rep).
Definition MakeTable {R} (p : Partitioner) : M W R (option error) :=
  let* rep := sys (CMakeTable p) in ret (rerr rep).
Definition MakePartTillEnd {R} (p : Partitioner) (partType : string)
    (start : DiskSize) : M W R (option error) :=
  let* rep := sys (CMakePartTillEnd p partType start) in ret (rerr rep).
Definition MakePart {R} (p : Partitioner) (partType : string)
    (start end_ : DiskSize) : M W R (option error) :=
  let* rep := sys (CMakePart p partType start end_) in ret (rerr rep).
Definition RunLogCommand {R} (name : string) (args : list string)
  : M W R (option error) :=
  let* rep := sys (CRunLogCommand name args) in ret (rerr rep).
Definition Mount {R} (device : BlockDevice) : M W R (string * option error) :=
  let* rep := sys (CMount device) in ret (rname rep, rerr rep).
Definition CopyFile {R} (src dst : string) : M W R (option error) :=
  let* rep := sys (CCopyFile src dst) in ret (rerr rep).
Definition CopyDir {R} (src dst : string) : M W R (option error) :=
  let* rep := sys (CCopyDir src dst) in ret (rerr rep).
Definition GetDirSize {R} (dir : string) : M W R (Z * option error) :=
  let* rep := sys (CGetDirSize dir) in ret (int64 (rnum rep), rerr rep).
Definition os_MkdirAll {R} (dir : string) (perm : Z) : M W R (option error) :=
  let* rep := sys (CMkdirAll dir perm) in ret (rerr rep).
Definition os_Create {R} (name : string) : M W R (File * option error) :=
  let* rep := sys (CCreate name) in ret (name, rerr rep).
Definition Seek {R} (f : File) (offset whence : Z) : M W R (Z * option error) :=
  let* rep := sys (CSeek f offset whence) in ret (int64 (rnum rep), rerr rep).
Definition Write {R} (f : File) (data : string) : M W R (Z * option error) :=
  let* rep := sys (CWrite f data) in ret (rnum rep, rerr rep).

(** [template.Must(template.New(name).Parse(text))] *)
Definition template_Must {R} (t : option (list node)) : M W R (list node) :=
  match t with
  | Some t => ret t
  | None => panic "template: parse error"
  end.

(** [t.Execute(f, data)]: the rendered text is written to [f]. *)
Definition Execute {R} (t : list node) (f : File) (data : list (string * string))
  : M W R (option error) :=
  match render t data with
  | Some text => let* (_, err) := Write f text in ret err
  | None => ret (Some "template: can't evaluate field"%string)
  end.

Definition createSparseFile (filename : string) (size : DiskSize)
  : Fn W (option error) :=
  func (
    enter (FcreateSparseFile filename size) ;;
    let* (fd, err) := os_Create filename in
    when_err err Some ;;
    defer (CClose fd) ;;
    let* (_, err) := Seek fd (int64 (int64 (ToBytes size) - 1)) 0 in
    when_err err Some ;;
    let* (_, err) := Write fd (String "000" EmptyString) in
    when_err err Some ;;
    return_ None).

Definition writeDeviceMap (fname rootDevice : string) : Fn W (option error) :=
  func (
    let* (f, err) := os_Create fname in
    when_err err Some ;;
    defer (CClose f) ;;
    let* t := template_Must (template_Parse DeviceMapFile) in
    Execute t f [("GrubDevice"%string, rootDevice)] ;;
    return_ None).

Definition writeBootTemplate (fname rootDrive commandline : string)
  : Fn W (option error) :=
  func (
    let* (f, err) := os_Create fname in
    when_err err Some ;;
    defer (CClose f) ;;
    let* t := template_Must (template_Parse GrubTemplate) in
    Execute t f [("RootDrive"%string, rootDrive);
                 ("CommandLine"%string, commandline)] ;;
    return_ None).

Definition PrepareGrub (folder rootDeviceName kernel commandline : string)
  : Fn W (option error) :=
  func (
    enter (FPrepareGrub folder rootDeviceName kernel commandline) ;;
    let grubPath := path_Join [folder; "boot"; "grub"]%string in
    let kernelDst := path_Join [folder; "boot"%string; ProgramName] in
    os_MkdirAll grubPath 511 ;;
    let* err := CopyFile kernel kernelDst in
    when_err err Some ;;
    let* err := invoke (writeBootTemplate
                          (path_Join [grubPath; "menu.lst"%string])
                          "(hd0,0)" commandline) in
    when_err err Some ;;
    let* err := invoke (writeBootTemplate
                          (path_Join [grubPath; "grub.conf"%string])
                          "(hd0,0)" commandline) in
    when_err err Some ;;
    let* err := invoke (writeDeviceMap (path_Join [grubPath; "map"%string])
                          rootDeviceName) in
    when_err err Some ;;
    return_ None).

(** The type assertion of [part] to a device-mapper device and the
    assignment to [DeviceName] under it. *)
Definition rename_if_mapped (part : Part) (name : string) : Part :=
  match part_resource part with
  | DeviceMapperDevice start size origin _ =>
      mkPart (DeviceMapperDevice start size origin name) (Offset part) (Size part)
  | _ => part
  end.

Definition CreateBootImageOnFile (rootFile : string) (sizeOfFile : DiskSize)
    (progPath commandline : string) : Fn W (option error) :=
  func (
    let '(sizeInSectors, err) := ToSectors sizeOfFile in
    when_err err Some ;;
    let rootLo := NewLoDevice rootFile in
    let* (rootLodName, err) := Acquire rootLo in
    when_err err Some ;;
    defer (CRelease rootLo) ;;
    let grubDiskName := "hda"%string in
    let rootBlkDev := NewDevice 0 sizeInSectors rootLodName grubDiskName in
    let* (rootDevice, err) := Acquire rootBlkDev in
    when_err err Some ;;
    defer (CRelease rootBlkDev) ;;
    let p := MsDosPartioner rootDevice in
    MakeTable p ;;
    MakePartTillEnd p "primary" (MegaBytes 2) ;;
    let* (parts, err) := ListParts rootDevice in
    when_err err Some ;;
    (if decide (Z.of_nat (length parts) < 1)
     then return_ (Some "No parts created"%string)
     else ret tt) ;;
    let* part := index parts 0 in
    let part := rename_if_mapped part (grubDiskName +:+ "1") in
    let* (bootDevice, err) := Acquire (part_resource part) in
    when_err err Some ;;
    defer (CRelease (part_resource part)) ;;
    let bootLabel := "boot"%string in
    let* err := RunLogCommand "mkfs"
                  ["-L"; bootLabel; "-I"; "128"; "-t"; "ext2"; bootDevice]%string in
    when_err err Some ;;
    let* (mntPoint, err) := Mount bootDevice in
    when_err err Some ;;
    defer (CUmount mntPoint) ;;
    invoke (PrepareGrub mntPoint rootDevice progPath commandline) ;;
    let* err := RunLogCommand "grub-install"
                  ["--no-floppy"; "--root-directory=" +:+ mntPoint; rootDevice]%string in
    when_err err Some ;;
    return_ None).

Definition CreateBootImageWithSize (rootFile progPath commandline : string)
    (size : DiskSize) : Fn W (option error) :=
  func (
    let* err := invoke (createSparseFile rootFile size) in
    when_err err Some ;;
    let* err := invoke (CreateBootImageOnFile rootFile size progPath commandline) in
    return_ err).

Definition formatDeviceAndCopyContents (folder : string) (dev : BlockDevice)
  : Fn W (option error) :=
  func (
    let* err := RunLogCommand "mkfs" ["-I"; "128"; "-t"; "ext2"; dev]%string in
    when_err err Some ;;
    let* (mntPoint, err) := Mount dev in
    when_err err Some ;;
    defer (CUmount mntPoint) ;;
    CopyDir folder mntPoint ;;
    return_ None).

Definition CopyToImgFile (folder imgfile : string) : Fn W (option error) :=
  func (
    let imgLo := NewLoDevice imgfile in
    let* (imgLodName, err) := Acquire imgLo in
    when_err err Some ;;
    defer (CRelease imgLo) ;;
    let* err := invoke (formatDeviceAndCopyContents folder imgLodName) in
    return_ err).

Definition CreateSingleVolume (rootFile : string) (folder : types.RawVolume)
  : Fn W (option error) :=
  func (
    let ext2Overhead := ToBytes (MegaBytes 2) in
    let* (size, err) := GetDirSize (types.Path folder) in
    when_err err Some ;;
    let size := int64 (SectorSize + size + Z.quot size 10 + int64 ext2Overhead) in
    let size := and_not size (SectorSize - 1) in
    let sizeVolume := Bytes size in
    let '(_, err) := ToSectors (Bytes size) in
    when_err err Some ;;
    let* err := invoke (createSparseFile rootFile sizeVolume) in
    when_err err Some ;;
    let* err := invoke (CopyToImgFile (types.Path folder) rootFile) in
    return_ err).

Definition copyToPart (folder : string) (part : Part) : Fn W (option error) :=
  func (
    enter (FcopyToPart folder part) ;;
    let* (imgLodName, err) := Acquire (part_resource part) in
    when_err err Some ;;
    defer (CRelease (part_resource part)) ;;
    let* err := invoke (formatDeviceAndCopyContents folder imgLodName) in
    return_ err).

(** [for k, v := range m]: the keys in the order the runtime picks. *)
Definition range_map {R} (m : gmap string types.RawVolume) : M W R (list string) :=
  fun ds w => let keys := range_order m w in (Next keys, [EvRange keys], ds, w).

(** [m[k]] on a map: the zero value when the key is absent. *)
Definition map_index {V} (zero : V) (m : gmap string V) (k : string) : V :=
  default zero (m !! k).

(** [return nil, err] *)
Definition nil_err (e : error) : list string * option error := ([], Some e).

Definition CreatePartitionedVolumes (imgFile : string)
    (volumes : gmap string types.RawVolume) : Fn W (list string * option error) :=
  func (
    let ext2Overhead := ToBytes (MegaBytes 2) in
    let firstPartFffest := ToBytes (MegaBytes 2) in
    let* keys := range_map volumes in
    let* (sizes, orderedKeys, totalSize) :=
      for_range keys 0%nat ((∅ : gmap string Z), ([] : list string), 0)
        (fun _ mntPoint '(sizes, orderedKeys, totalSize) =>
           let localDir := map_index types.zero volumes mntPoint in
           let* (cursize, err) := GetDirSize (types.Path localDir) in
           when_err err nil_err ;;
           let sizes := <[mntPoint := wrap64 (wrap64 cursize + ext2Overhead)]> sizes in
           let totalSize := wrap64 (totalSize + map_index 0 sizes mntPoint) in
           let orderedKeys := orderedKeys ++ [mntPoint] in
           ret (sizes, orderedKeys, totalSize)) in
    let sizeVolume :=
      and_not (wrap64 (SectorSize + totalSize + totalSize / 10)) (SectorSize - 1) in
    let sizeVolume := wrap64 (sizeVolume + ToBytes (MegaBytes 4)) in
    let* err := invoke (createSparseFile imgFile (Bytes sizeVolume)) in
    when_err err nil_err ;;
    let imgLo := NewLoDevice imgFile in
    let* (imgLodName, err) := Acquire imgLo in
    when_err err nil_err ;;
    defer (CRelease imgLo) ;;
    let p := DiskLabelPartioner imgLodName in
    MakeTable p ;;
    let* _ :=
      for_range orderedKeys 0%nat firstPartFffest
        (fun _ mntPoint start =>
           let end_ := wrap64 (start + map_index 0 sizes mntPoint) in
           let* err := MakePart p "ext2" (Bytes start) (Bytes end_) in
           when_err err nil_err ;;
           let* (curParts, err) := ListParts imgLodName in
           when_err err nil_err ;;
           let* last1 := index curParts (Z.of_nat (length curParts) - 1) in
           let* last2 := index curParts (Z.of_nat (length curParts) - 1) in
           ret (wrap64 (ToBytes (Offset last1) + ToBytes (Size last2)))) in
    let* (parts, err) := ListParts imgLodName in
    for_range orderedKeys 0%nat tt
      (fun i mntPoint _ =>
         let localDir := types.Path (map_index types.zero volumes mntPoint) in
         let* part := index parts (Z.of_nat i) in
         invoke (copyToPart localDir part) ;;
         ret tt) ;;
    return_ (orderedKeys, None)).

Definition CreateVolumes (imgFile : string) (volumes : list types.RawVolume)
    (newPartitioner : string -> Partitioner) : Fn W (option error) :=
  func (
    let ext2Overhead := ToBytes (MegaBytes 2) in
    let firstPartOffest := ToBytes (MegaBytes 2) in
    let* (sizes, totalSize) :=
      for_range volumes 0%nat (([] : list Z), 0)
        (fun _ v '(sizes, totalSize) =>
           let* sizes :=
             if decide (types.Size v = 0)
             then
               let* (cursize, err) := GetDirSize (types.Path v) in
               when_err err Some ;;
               ret (sizes ++ [wrap64 (wrap64 cursize + ext2Overhead)])
             else ret (sizes ++ [wrap64 (types.Size v)]) in
           let* lastSize := index sizes (Z.of_nat (length sizes) - 1) in
           ret (sizes, wrap64 (totalSize + lastSize))) in
    let sizeDrive :=
      and_not (wrap64 (SectorSize + totalSize + totalSize / 10)) (SectorSize - 1) in
    let sizeDrive := wrap64 (sizeDrive + ToBytes (MegaBytes 4)) in
    let* err := invoke (createSparseFile imgFile (Bytes sizeDrive)) in
    when_err err Some ;;
    let imgLo := NewLoDevice imgFile in
    let* (imgLodName, err) := Acquire imgLo in
    when_err err Some ;;
    defer (CRelease imgLo) ;;
    let p := newPartitioner imgLodName in
    MakeTable p ;;
    let* _ :=
      for_range sizes 0%nat firstPartOffest
        (fun _ curSize start =>
           let end_ := wrap64 (start + curSize) in
           let* err := MakePart p "ext2" (Bytes start) (Bytes end_) in
           when_err err Some ;;
           let* (curParts, err) := ListParts imgLodName in
           when_err err Some ;;
           let* last1 := index curParts (Z.of_nat (length curParts) - 1) in
           let* last2 := index curParts (Z.of_nat (length curParts) - 1) in
           ret (wrap64 (ToBytes (Offset last1) + ToBytes (Size last2)))) in
    let* (parts, err) := ListParts imgLodName in
    (if decide (length parts ≠ length volumes)
     then return_ (Some "Not enough parts created!"%string)
     else ret tt) ;;
    for_range volumes 0%nat tt
      (fun i v _ =>
         let* part := index parts (Z.of_nat i) in
         invoke (copyToPart (types.Path v) part) ;;
         ret tt) ;;
    return_ None).
End Utils.

(** ** A simulated host

    A small host with a partition table, used to run the assemblers on
    concrete inputs.  Its configuration says which calls fail, how the
    partitioning backend commits a requested extent, and how large the
    source directories are. *)

Module Sim.
Record config : Type := mkConfig
  { fails : call -> bool;
    commit : nat -> Z -> Z -> option (Z * Z);
    dirsize : string -> Z }.

Record world : Type := mkWorld { table : list Part; made : nat }.

Definition start_world : world := mkWorld [] 0.

Definition exact (n : nat) (start end_ : Z) : option (Z * Z) :=
  Some (start, end_ - start).

Definition never (c : call) : bool := false.

Definition device_of (r : Resource) : string :=
  match r with
  | LoDevice _ => "/dev/loop0"
  | DeviceMapperDevice _ _ _ name => "/dev/mapper/" +:+ name
  | OtherPart id => id
  end.

Definition part_name (n : nat) : string :=
  "part" +:+ String (ascii_of_nat (48 + n)) EmptyString.

Definition run (cfg : config) (c : call) (w : world) : reply * world :=
  if fails cfg c then (mkReply (Some "failed"%string) "" [] 0, w)
  else
    match c with
    | CAcquire r => (mkReply None (device_of r) [] 0, w)
    | CMakeTable _ => (ok_reply, mkWorld [] (made w))
    | CMakePartTillEnd _ _ start =>
        (ok_reply,
         mkWorld [mkPart (DeviceMapperDevice 4096 126976 "/dev/mapper/hda" "hda-p1")
                    start (Sectors 126976)] (made w))
    | CMakePart _ _ start end_ =>
        match commit cfg (made w) (ToBytes start) (ToBytes end_) with
        | Some (o, s) =>
            (ok_reply,
             mkWorld (table w ++ [mkPart (OtherPart (part_name (length (table w))))
                                    (Bytes o) (Bytes s)])
               (S (made w)))
        | None => (ok_reply, mkWorld (table w) (S (made w)))
        end
    | CListParts _ => (mkReply None "" (table w) 0, w)
    | CMount dev => (mkReply None ("/mnt" +:+ dev) [] 0, w)
    | CGetDirSize dir => (mkReply None "" [] (dirsize cfg dir), w)
    | _ => (ok_reply, w)
    end.

Definition join (parts : list string) : string :=
  match parts with
  | [] => EmptyString
  | p :: ps => fold_left (fun acc q => acc +:+ "/" +:+ q) ps p
  end.

Definition host (cfg : config) : Host world :=
  mkHost world (run cfg) join (fun m _ => (map_to_list m).*1)
    (fun m _ => reflexivity _).
End Sim.

(** ** Runs and what is read off their traces *)

Arguments wrap64 : simpl never.
Arguments int64 : simpl never.
Arguments and_not : simpl never.
Arguments ToBytes : simpl never.
Arguments ToSectors : simpl never.

Section Observations.
Context {W : Type} {R : Type}.

Definition outcome_of (x : result R * list event * W) : result R := x.1.1.
Definition trace_of (x : result R * list event * W) : list event := x.1.2.
End Observations.

Definition succeeded (rep : reply) : bool :=
  match rerr rep with None => true | Some _ => false end.

(** The resources acquired with success, the resources an acquisition was
    attempted on, and the resources released. *)
Definition acquired (tr : list event) : list Resource :=
  omap (fun e => match e with
                 | EvHost (CAcquire r) rep => if succeeded rep then Some r else None
                 | _ => None
                 end) tr.

Definition acquire_attempts (tr : list event) : list Resource :=
  omap (fun e => match e with
                 | EvHost (CAcquire r) _ => Some r
                 | _ => None
                 end) tr.

Definition released (tr : list event) : list Resource :=
  omap (fun e => match e with
                 | EvHost (CRelease r) _ => Some r
                 | _ => None
                 end) tr.

(** Cleanup: releasing a resource, unmounting. *)
Definition is_cleanup (e : event) : bool :=
  match e with
  | EvHost (CRelease _) _ | EvHost (CUmount _) _ => true
  | _ => false
  end.

(** The cleanup at the end of a run, and the steps before it. *)
Fixpoint cleanup_of (tr : list event) : list event :=
  match tr with
  | [] => []
  | e :: tr' => if forallb is_cleanup tr then tr else cleanup_of tr'
  end.

Fixpoint steps_of (tr : list event) : list event :=
  match tr with
  | [] => []
  | e :: tr' => if forallb is_cleanup tr then [] else e :: steps_of tr'
  end.

(** The error the last step reported, if it reported one. *)
Definition last_error (steps : list event) : option error :=
  match last steps with
  | Some (EvHost _ rep) => rerr rep
  | _ => None
  end.

(** What is written to which file. *)
Definition writes (tr : list event) : list (File * string) :=
  omap (fun e => match e with
                 | EvHost (CWrite f data) _ => Some (f, data)
                 | _ => None
                 end) tr.

(** Partitioning calls and enumerations, in the order they happen. *)
Definition tables (tr : list event) : list Partitioner :=
  omap (fun e => match e with
                 | EvHost (CMakeTable p) _ => Some p
                 | _ => None
                 end) tr.

Definition till_end_parts (tr : list event) : list (Partitioner * string * DiskSize) :=
  omap (fun e => match e with
                 | EvHost (CMakePartTillEnd p t start) _ => Some (p, t, start)
                 | _ => None
                 end) tr.

(** The extents requested with [MakePart], in bytes. *)
Definition requests (tr : list event) : list (Z * Z) :=
  omap (fun e => match e with
                 | EvHost (CMakePart _ _ start end_) _ =>
                     Some (ToBytes start, ToBytes end_)
                 | _ => None
                 end) tr.

Definition enumerations (tr : list event) : list (list Part * option error) :=
  omap (fun e => match e with
                 | EvHost (CListParts _) rep => Some (rparts rep, rerr rep)
                 | _ => None
                 end) tr.

(** The sizes handed to [createSparseFile], the copies into partitions,
    the directories measured with the sizes found, the map orders used. *)
Definition sparse_files (tr : list event) : list (string * DiskSize) :=
  omap (fun e => match e with
                 | EvEnter (FcreateSparseFile f size) => Some (f, size)
                 | _ => None
                 end) tr.

Definition copies (tr : list event) : list (string * Part) :=
  omap (fun e => match e with
                 | EvEnter (FcopyToPart folder part) => Some (folder, part)
                 | _ => None
                 end) tr.

Definition measured (tr : list event) : list (string * Z) :=
  omap (fun e => match e with
                 | EvHost (CGetDirSize dir) rep =>
                     if succeeded rep then Some (dir, int64 (rnum rep)) else None
                 | _ => None
                 end) tr.

Definition ranges (tr : list event) : list (list string) :=
  omap (fun e => match e with
                 | EvRange keys => Some keys
                 | _ => None
                 end) tr.

(** The texts the two templates render to. *)
Definition grub_text (rootDrive commandline : string) : string :=
  ("default=0
fallback=1
timeout=1
hiddenmenu

title Unik
root " +:+ rootDrive +:+ "
kernel /boot/program.bin " +:+ commandline +:+ "
")%string.

Definition map_text (rootDevice : string) : string :=
  ("(hd0) " +:+ rootDevice +:+ "
")%string.

(** The successful acquisitions with the device names they returned. *)
Definition acquisitions (tr : list event) : list (Resource * BlockDevice) :=
  omap (fun e => match e with
                 | EvHost (CAcquire r) rep =>
                     if succeeded rep then Some (r, rname rep) else None
                 | _ => None
                 end) tr.

(** ** The shape of the runs of the volume assemblers *)

(** How a phase of a run ends: completed with a value, failed with an
    error that the function returns, or crashed with a panic. *)
Inductive phase (A : Type) : Type :=
| Completed (a : A)
| Failed (e : error)
| Crashed.
Arguments Completed {A} a.
Arguments Failed {A} e.
Arguments Crashed {A}.

Definition MB2 : Z := ToBytes (MegaBytes 2).

(** The sizing loop of [CreateVolumes]. *)
Inductive sizing_run :
  list types.RawVolume -> list Z -> Z -> list event -> phase (list Z * Z) -> Prop :=
| sizing_nil sizes total :
    sizing_run [] sizes total [] (Completed (sizes, total))
| sizing_measured v vs sizes total rep ev out :
    types.Size v = 0 -> rerr rep = None ->
    sizing_run vs (sizes ++ [wrap64 (wrap64 (int64 (rnum rep)) + MB2)])
      (wrap64 (total + wrap64 (wrap64 (int64 (rnum rep)) + MB2))) ev out ->
    sizing_run (v :: vs) sizes total
      (EvHost (CGetDirSize (types.Path v)) rep :: ev) out
| sizing_failed v vs sizes total rep e :
    types.Size v = 0 -> rerr rep = Some e ->
    sizing_run (v :: vs) sizes total
      [EvHost (CGetDirSize (types.Path v)) rep] (Failed e)
| sizing_explicit v vs sizes total ev out :
    types.Size v <> 0 ->
    sizing_run vs (sizes ++ [wrap64 (types.Size v)])
      (wrap64 (total + wrap64 (types.Size v))) ev out ->
    sizing_run (v :: vs) sizes total ev out.

(** The layout loop of both volume assemblers: one [MakePart] and one
    enumeration per size. *)
Inductive layout_run (p : Partitioner) (dev : BlockDevice) :
  Z -> list Z -> list event -> phase Z -> Prop :=
| layout_nil start : layout_run p dev start [] [] (Completed start)
| layout_next start size sizes r1 r2 part ev out :
    rerr r1 = None -> rerr r2 = None -> last (rparts r2) = Some part ->
    layout_run p dev (wrap64 (ToBytes (Offset part) + ToBytes (Size part)))
      sizes ev out ->
    layout_run p dev start (size :: sizes)
      (EvHost (CMakePart p "ext2" (Bytes start) (Bytes (wrap64 (start + size)))) r1
       :: EvHost (CListParts dev) r2 :: ev) out
| layout_make_failed start size sizes r1 e :
    rerr r1 = Some e ->
    layout_run p dev start (size :: sizes)
      [EvHost (CMakePart p "ext2" (Bytes start) (Bytes (wrap64 (start + size)))) r1]
      (Failed e)
| layout_list_failed start size sizes r1 r2 e :
    rerr r1 = None -> rerr r2 = Some e ->
    layout_run p dev start (size :: sizes)
      [EvHost (CMakePart p "ext2" (Bytes start) (Bytes (wrap64 (start + size)))) r1;
       EvHost (CListParts dev) r2]
      (Failed e)
| layout_crashed start size sizes r1 r2 :
    rerr r1 = None -> rerr r2 = None -> rparts r2 = [] ->
    layout_run p dev start (size :: sizes)
      [EvHost (CMakePart p "ext2" (Bytes start) (Bytes (wrap64 (start + size)))) r1;
       EvHost (CListParts dev) r2]
      Crashed.

(** Events of formatting and populating one partition. *)
Definition is_population (e : event) : bool :=
  match e with
  | EvHost (CAcquire _) _ | EvHost (CRelease _) _
  | EvHost (CRunLogCommand _ _) _ | EvHost (CMount _) _
  | EvHost (CUmount _) _ | EvHost (CCopyDir _ _) _ => true
  | _ => false
  end.

(** The population loop: the i-th folder goes to the i-th partition. *)
Inductive copy_run : list string -> list Part -> nat -> list event -> phase unit -> Prop :=
| copy_nil parts i : copy_run [] parts i [] (Completed tt)
| copy_next folder folders parts i part ev1 ev out :
    parts !! i = Some part -> forallb is_population ev1 = true ->
    copy_run folders parts (S i) ev out ->
    copy_run (folder :: folders) parts i
      (EvEnter (FcopyToPart folder part) :: ev1 ++ ev) out
| copy_crashed folder folders parts i :
    parts !! i = None ->
    copy_run (folder :: folders) parts i [] Crashed.

(** The sizing loop of [CreatePartitionedVolumes], over the keys in the
    order of the range. *)
Inductive sizing_map_run (volumes : gmap string types.RawVolume) :
  list string -> gmap string Z -> list string -> Z -> list event ->
  phase (gmap string Z * list string * Z) -> Prop :=
| sizing_map_nil sizes ordered total :
    sizing_map_run volumes [] sizes ordered total []
      (Completed (sizes, ordered, total))
| sizing_map_measured k ks sizes ordered total rep ev out :
    rerr rep = None ->
    sizing_map_run volumes ks
      (<[k := wrap64 (wrap64 (int64 (rnum rep)) + MB2)]> sizes)
      (ordered ++ [k])
      (wrap64 (total + wrap64 (wrap64 (int64 (rnum rep)) + MB2))) ev out ->
    sizing_map_run volumes (k :: ks) sizes ordered total
      (EvHost (CGetDirSize (types.Path (map_index types.zero volumes k))) rep :: ev)
      out
| sizing_map_failed k ks sizes ordered total rep e :
    rerr rep = Some e ->
    sizing_map_run volumes (k :: ks) sizes ordered total
      [EvHost (CGetDirSize (types.Path (map_index types.zero volumes k))) rep]
      (Failed e).

Definition is_file_event (e : event) : bool :=
  match e with
  | EvHost (CCreate _) _ | EvHost (CSeek _ _ _) _
  | EvHost (CWrite _ _) _ | EvHost (CClose _) _ => true
  | _ => false
  end.

(** The size of the image file for a total of volume sizes. *)
Definition image_size (totalSize : Z) : Z :=
  wrap64 (and_not (wrap64 (SectorSize + totalSize + totalSize / 10)) (SectorSize - 1)
          + ToBytes (MegaBytes 4)).

(** A volume assembly after the sizing: allocation of the sparse file,
    attachment, partition table, layout, enumeration, population, and the
    release of the loop device.  [check] says whether the number of
    partitions is compared with the number of volumes. *)
Inductive assembly_run (imgFile : string) (mkp : string -> Partitioner)
    (sizes : list Z) (total : Z) (folders : list string) (check : bool) :
  phase unit -> list event -> Prop :=
| assembly_alloc_failed evf e :
    forallb is_file_event evf = true ->
    assembly_run imgFile mkp sizes total folders check (Failed e)
      (EvEnter (FcreateSparseFile imgFile (Bytes (image_size total))) :: evf)
| assembly_attach_failed evf rep e :
    forallb is_file_event evf = true -> rerr rep = Some e ->
    assembly_run imgFile mkp sizes total folders check (Failed e)
      (EvEnter (FcreateSparseFile imgFile (Bytes (image_size total))) :: evf ++
       [EvHost (CAcquire (LoDevice imgFile)) rep])
| assembly_layout_failed evf rep rt evl e rrel :
    forallb is_file_event evf = true -> rerr rep = None ->
    layout_run (mkp (rname rep)) (rname rep) MB2 sizes evl (Failed e) ->
    assembly_run imgFile mkp sizes total folders check (Failed e)
      (EvEnter (FcreateSparseFile imgFile (Bytes (image_size total))) :: evf ++
       EvHost (CAcquire (LoDevice imgFile)) rep ::
       EvHost (CMakeTable (mkp (rname rep))) rt :: evl ++
       [EvHost (CRelease (LoDevice imgFile)) rrel])
| assembly_layout_crashed evf rep rt evl rrel :
    forallb is_file_event evf = true -> rerr rep = None ->
    layout_run (mkp (rname rep)) (rname rep) MB2 sizes evl Crashed ->
    assembly_run imgFile mkp sizes total folders check Crashed
      (EvEnter (FcreateSparseFile imgFile (Bytes (image_size total))) :: evf ++
       EvHost (CAcquire (LoDevice imgFile)) rep ::
       EvHost (CMakeTable (mkp (rname rep))) rt :: evl ++
       [EvHost (CRelease (LoDevice imgFile)) rrel])
| assembly_count_mismatch evf rep rt evl start rl rrel :
    forallb is_file_event evf = true -> rerr rep = None ->
    layout_run (mkp (rname rep)) (rname rep) MB2 sizes evl (Completed start) ->
    check = true -> length (rparts rl) <> length folders ->
    assembly_run imgFile mkp sizes total folders check
      (Failed "Not enough parts created!")
      (EvEnter (FcreateSparseFile imgFile (Bytes (image_size total))) :: evf ++
       EvHost (CAcquire (LoDevice imgFile)) rep ::
       EvHost (CMakeTable (mkp (rname rep))) rt :: evl ++
       [EvHost (CListParts (rname rep)) rl;
        EvHost (CRelease (LoDevice imgFile)) rrel])
| assembly_populated evf rep rt evl start rl evc out rrel :
    forallb is_file_event evf = true -> rerr rep = None ->
    layout_run (mkp (rname rep)) (rname rep) MB2 sizes evl (Completed start) ->
    (check = true -> length (rparts rl) = length folders) ->
    copy_run folders (rparts rl) 0 evc out ->
    (forall e, out <> Failed e) ->
    assembly_run imgFile mkp sizes total folders check out
      (EvEnter (FcreateSparseFile imgFile (Bytes (image_size total))) :: evf ++
       EvHost (CAcquire (LoDevice imgFile)) rep ::
       EvHost (CMakeTable (mkp (rname rep))) rt :: evl ++
       EvHost (CListParts (rname rep)) rl :: evc ++
       [EvHost (CRelease (LoDevice imgFile)) rrel]).

(** The runs of [CreateVolumes]. *)
Definition volumes_run (imgFile : string) (volumes : list types.RawVolume)
    (newPartitioner : string -> Partitioner)
    (r : result (option error)) (tr : list event) : Prop :=
  (exists e, sizing_run volumes [] 0 tr (Failed e) /\ r = Done (Some e)) \/
  (exists ev sizes total out eva,
     sizing_run volumes [] 0 ev (Completed (sizes, total)) /\
     assembly_run imgFile newPartitioner sizes total
       (map types.Path volumes) true out eva /\
     tr = ev ++ eva /\
     (match out with
      | Completed _ => r = Done None
      | Failed e => r = Done (Some e)
      | Crashed => r = Panic "index out of range"
      end)).

(** The runs of [CreatePartitionedVolumes] when the range visits the keys
    in the order [keys]. *)
Definition partitioned_run (imgFile : string)
    (volumes : gmap string types.RawVolume) (keys : list string)
    (r : result (list string * option error)) (tr : list event) : Prop :=
  (exists ev e,
     sizing_map_run volumes keys ∅ [] 0 ev (Failed e) /\
     tr = EvRange keys :: ev /\ r = Done ([], Some e)) \/
  (exists ev sizes ordered total out eva,
     sizing_map_run volumes keys ∅ [] 0 ev (Completed (sizes, ordered, total)) /\
     assembly_run imgFile DiskLabelPartioner
       (map (map_index 0 sizes) ordered) total
       (map (fun k => types.Path (map_index types.zero volumes k)) ordered)
       false out eva /\
     tr = EvRange keys :: ev ++ eva /\
     (match out with
      | Completed _ => r = Done (ordered, None)
      | Failed e => r = Done ([], Some e)
      | Crashed => r = Panic "index out of range"
      end)).

(** Where a committed partition ends. *)
Definition committed_end (p : Part) : Z := ToBytes (Offset p) + ToBytes (Size p).

(** ** The layout, as the spec words it *)

(** The enumerations reflect a table of [n] partitions: the i-th one lists
    the first i+1 partitions, the final one lists them all. *)
Definition reflecting (n : nat) (table : list Part)
    (enums : list (list Part * option error)) : Prop :=
  length table = n /\
  enums = map (fun i => (take (S i) table, None)) (seq 0 n) ++ [(table, None)].

(** Every request after the first starts at the committed end of the
    partition before it. *)
Definition starts_follow (reqs : list (Z * Z)) (table : list Part) : Prop :=
  forall (i : nat) s e p,
    reqs !! S i = Some (s, e) -> table !! i = Some p -> s = committed_end p.

Definition non_overlapping (table : list Part) : Prop :=
  forall (i : nat) p q,
    table !! i = Some p -> table !! S i = Some q ->
    committed_end p <= ToBytes (Offset q).

(** The claim as the spec states it, for a run with trace [tr] over [n]
    volumes. *)
Definition layout_claim (n : nat) (tr : list event) : Prop :=
  forall table,
    reflecting n table (enumerations tr) ->
    starts_follow (requests tr) table /\ non_overlapping table.



Definition sum_sizes (l : list Z) : Z := foldr Z.add 0 l.

(** The size of every volume, as the spec words it: the size of the
    source directory and two megabytes, or the explicit size. *)
Fixpoint volume_sizes (volumes : list types.RawVolume) (dirs : list Z) : list Z :=
  match volumes with
  | [] => []
  | v :: vs =>
      if decide (types.Size v = 0)
      then match dirs with
           | d :: ds => (d + 2097152) :: volume_sizes vs ds
           | [] => []
           end
      else types.Size v :: volume_sizes vs dirs
  end.


(** The calls that reported an error. *)
Definition failures (tr : list event) : list (call * error) :=
  omap (fun e => match e with
                 | EvHost c rep =>
                     match rerr rep with Some err => Some (c, err) | None => None end
                 | _ => None
                 end) tr.

(** The claim about the final enumeration as the spec states it, for a
    run over [n] volumes: an error, or fewer partitions than volumes,
    ends in a panic. *)
Definition final_enumeration_claim {R} (n : nat) (tr : list event)
    (r : result R) : Prop :=
  forall parts err,
    enumerations tr !! n = Some (parts, err) ->
    is_Some err \/ (length parts < n)%nat ->
    exists msg, r = Panic msg.

(** Modelled from the spec: align-up-to-sector rounds a size up to a whole
    number of sectors and leaves a whole number of sectors unchanged. *)
Definition align_up (x : Z) : Z :=
  SectorSize * ((x + (SectorSize - 1)) / SectorSize).

(** Modelled from the spec: the size of the image for the sizes of its
    volumes: their sum and a tenth of it, aligned up, and four megabytes. *)
Definition claimed_image_size (sizes : list Z) : Z :=
  let total := sum_sizes sizes in
  align_up (total + total / 10) + 4194304.

(** The claim as the spec states it, for the volumes of a run with trace
    [tr]: only the directories of the volumes without an explicit size are
    measured, and a sparse file has the size claimed. *)
Definition image_size_claim (volumes : list types.RawVolume)
    (tr : list event) : Prop :=
  (measured tr).*1
    `prefix_of` map types.Path (filter (fun v => types.Size v = 0) volumes) /\
  forall f size,
    (f, size) ∈ sparse_files tr ->
    ToBytes size = claimed_image_size (volume_sizes volumes (measured tr).*2).

(** The size [CreateSingleVolume] computes from the size of the
    directory. *)
Definition single_volume_size (d : Z) : Z :=
  and_not (int64 (SectorSize + d + Z.quot d 10 + int64 (ToBytes (MegaBytes 2))))
    (SectorSize - 1).

(** The claim as the spec states it, for a run with trace [tr]: the size
    of a sparse file is a whole number of sectors. *)
Definition sector_aligned_claim (tr : list event) : Prop :=
  forall f size, (f, size) ∈ sparse_files tr -> ToBytes size mod SectorSize = 0.

(** ** Handles held along a trace *)

(** What a run holds: a resource acquired, a mount point, an open file. *)
Inductive handle : Type :=
| HResource (r : Resource)
| HMount (mntPoint : string)
| HFile (f : File).

#[global] Instance Resource_eq_dec : EqDecision Resource.
Proof. solve_decision. Defined.
#[global] Instance handle_eq_dec : EqDecision handle.
Proof. solve_decision. Defined.

(** Giving a handle back: it has to be the one taken last. *)
Definition give_back (h : handle) (st : list handle) : option (list handle) :=
  match st with
  | h' :: st' => if decide (h' = h) then Some st' else None
  | [] => None
  end.

(** The handles held after a trace, from the handles [st] held before it:
    a successful [Acquire], [Mount] or [os.Create] takes a handle,
    [Release], [Umount] and [Close] give back the handle taken last.
    [None] when a handle is given back that was not the last one taken,
    when a file is sought or written that is not open, or a directory is
    copied to a mount point that is not mounted. *)
Fixpoint held (tr : list event) (st : list handle) : option (list handle) :=
  match tr with
  | [] => Some st
  | EvHost c rep :: tr' =>
      match c with
      | CAcquire r => held tr' (if succeeded rep then HResource r :: st else st)
      | CMount _ => held tr' (if succeeded rep then HMount (rname rep) :: st else st)
      | CCreate f => held tr' (if succeeded rep then HFile f :: st else st)
      | CRelease r => st' ← give_back (HResource r) st; held tr' st'
      | CUmount m => st' ← give_back (HMount m) st; held tr' st'
      | CClose f => st' ← give_back (HFile f) st; held tr' st'
      | CSeek f _ _ | CWrite f _ =>
          if decide (HFile f ∈ st) then held tr' st else None
      | CCopyDir _ dst =>
          if decide (HMount dst ∈ st) then held tr' st else None
      | _ => held tr' st
      end
  | _ :: tr' => held tr' st
  end.

(** A trace that takes and gives back in order, and leaves what was held
    as it was. *)
Definition balanced (tr : list event) : Prop :=
  forall st, held tr st = Some st.

(** What is held whenever the population of a partition begins: before
    every entry into [copyToPart], the handles [hs] and no other. *)
Definition held_at_population (hs : list handle) (tr : list event) : Prop :=
  forall (i : nat) folder part,
    tr !! i = Some (EvEnter (FcopyToPart folder part)) ->
    held (take i tr) [] = Some hs.

(** The same for a part of a trace: what was held before it is held at
    every entry into [copyToPart]. *)
Definition settled (tr : list event) : Prop :=
  forall st (i : nat) folder part,
    tr !! i = Some (EvEnter (FcopyToPart folder part)) ->
    held (take i tr) st = Some st.

(** A trace that takes the loop device [lo] and no other handle, and
    populates nothing. *)
Definition attaches (lo : Resource) (tr : list event) : Prop :=
  (forall st, held tr st = Some (HResource lo :: st)) /\ copies tr = [].

(** ** The error a run reports *)

(** Giving back a handle. *)
Definition is_giving_back (e : event) : bool :=
  match e with
  | EvHost (CRelease _) _ | EvHost (CUmount _) _ | EvHost (CClose _) _ => true
  | _ => false
  end.

(** The first failure among the calls [checked], with the events after
    it. *)
Fixpoint first_failure (checked : call -> bool) (tr : list event)
  : option (error * list event) :=
  match tr with
  | [] => None
  | EvHost c rep :: tr' =>
      if checked c
      then match rerr rep with
           | Some e => Some (e, tr')
           | None => first_failure checked tr'
           end
      else first_failure checked tr'
  | _ :: tr' => first_failure checked tr'
  end.

(** A run reports the failures of the calls [checked] and no other: the
    first such failure ends it, with that error and after giving back
    what it holds; without such a failure it returns no error. *)
Definition reports {W} (checked : call -> bool)
    (run : result (option error) * list event * W) : Prop :=
  match first_failure checked (trace_of run) with
  | Some (e, rest) =>
      outcome_of run = Done (Some e) /\ forallb is_giving_back rest = true
  | None => outcome_of run = Done None
  end.

Definition file_steps (c : call) : bool :=
  match c with CCreate _ | CSeek _ _ _ | CWrite _ _ => true | _ => false end.

Definition creations (c : call) : bool :=
  match c with CCreate _ => true | _ => false end.

Definition staging_steps (c : call) : bool :=
  match c with CCopyFile _ _ | CCreate _ => true | _ => false end.

Definition format_steps (c : call) : bool :=
  match c with CRunLogCommand _ _ | CMount _ => true | _ => false end.

Definition population_steps (c : call) : bool :=
  match c with
  | CAcquire _ | CRunLogCommand _ _ | CMount _ => true
  | _ => false
  end.

Definition single_volume_steps (c : call) : bool :=
  match c with
  | CGetDirSize _ | CCreate _ | CSeek _ _ _ | CWrite _ _
  | CAcquire _ | CRunLogCommand _ _ | CMount _ => true
  | _ => false
  end.

(** ** The sparse file *)

(** Where a file is sought. *)
Definition seeks (tr : list event) : list (File * Z * Z) :=
  omap (fun e => match e with
                 | EvHost (CSeek f offset whence) _ => Some (f, offset, whence)
                 | _ => None
                 end) tr.

(** ** A measurement that fails *)

(** The measurements that failed, and the events of the sizing. *)
Definition failed_measures (tr : list event) : list (string * error) :=
  omap (fun e => match e with
                 | EvHost (CGetDirSize dir) rep =>
                     match rerr rep with Some err => Some (dir, err) | None => None end
                 | _ => None
                 end) tr.

Definition is_sizing (e : event) : bool :=
  match e with
  | EvHost (CGetDirSize _) _ | EvRange _ => true
  | _ => false
  end.

(** The events of a run before the population and the events from the
    population on: no partition is populated in the first part; no file
    is allocated, no table created, no partition requested or enumerated
    and no directory measured in the second. *)
Definition layout_then_population (tr : list event) : Prop :=
  exists pre post,
    tr = pre ++ post /\
    copies pre = [] /\
    sparse_files post = [] /\ tables post = [] /\ requests post = [] /\
    enumerations post = [] /\ measured post = [].

(** ** Partitions within the image *)

(** The backend commits every partition up to the end requested for it:
    the last partition of the i-th enumeration ends where the i-th
    request ends. *)
Definition commits_as_requested (tr : list event) : Prop :=
  forall (i : nat) s e parts err part,
    requests tr !! i = Some (s, e) ->
    enumerations tr !! i = Some (parts, err) ->
    last parts = Some part -> committed_end part = e.

(** ** What is formatted, mounted and copied *)

(** The commands run, the mounts that succeeded with their mount points,
    the directories and files copied, the stagings of the bootloader. *)
Definition commands (tr : list event) : list (string * list string) :=
  omap (fun e => match e with
                 | EvHost (CRunLogCommand name args) _ => Some (name, args)
                 | _ => None
                 end) tr.

Definition mounted (tr : list event) : list (BlockDevice * string) :=
  omap (fun e => match e with
                 | EvHost (CMount dev) rep =>
                     if succeeded rep then Some (dev, rname rep) else None
                 | _ => None
                 end) tr.

Definition copied_dirs (tr : list event) : list (string * string) :=
  omap (fun e => match e with
                 | EvHost (CCopyDir src dst) _ => Some (src, dst)
                 | _ => None
                 end) tr.

Definition copied_files (tr : list event) : list (string * string) :=
  omap (fun e => match e with
                 | EvHost (CCopyFile src dst) _ => Some (src, dst)
                 | _ => None
                 end) tr.

Definition stagings (tr : list event) : list (string * string * string * string) :=
  omap (fun e => match e with
                 | EvEnter (FPrepareGrub folder device kernel commandline) =>
                     Some (folder, device, kernel, commandline)
                 | _ => None
                 end) tr.

(** The population of a resource with a folder: the device the
    acquisition returned is formatted and mounted, and the folder is
    copied to the mount point the mount returned. *)
Definition populates (r : Resource) (folder : string) (tr : list event) : Prop :=
  acquire_attempts tr = [r] /\
  match acquisitions tr with
  | [] => commands tr = [] /\ mounted tr = [] /\ copied_dirs tr = []
  | (_, dev) :: _ =>
      commands tr = [("mkfs"%string, ["-I"; "128"; "-t"; "ext2"; dev]%string)] /\
      match mounted tr with
      | [] => copied_dirs tr = []
      | (d, mnt) :: rest =>
          d = dev /\ rest = [] /\ copied_dirs tr = [(folder, mnt)]
      end
  end.

(** ** The partitioner of a volume assembly *)

(** The partitioner and the type of every partition requested, and the
    devices enumerated. *)
Definition part_requests (tr : list event) : list (Partitioner * string) :=
  omap (fun e => match e with
                 | EvHost (CMakePart p t _ _) _ => Some (p, t)
                 | _ => None
                 end) tr.

Definition listed (tr : list event) : list BlockDevice :=
  omap (fun e => match e with
                 | EvHost (CListParts dev) _ => Some dev
                 | _ => None
                 end) tr.

(** A run partitions the device [dev] with the partitioner [p]: one
    table, made with [p]; every partition requested with [p], of type
    ext2; every enumeration on [dev]. *)
Definition partitions_with (p : Partitioner) (dev : BlockDevice)
    (tr : list event) : Prop :=
  tables tr = [p] /\
  Forall (fun x => x = (p, "ext2"%string)) (part_requests tr) /\
  Forall (fun d => d = dev) (listed tr).

(** ** The volumes command (cmd/volumes.go)

    The [Run] function of [volumesCmd].  The package variables [host]
    and [clientConfig], [readClientConfig], the client and
    [printVolumes] are not in the sources: the variables are fields of
    the state, the functions are calls to an abstract environment. *)

Module cmd.
Record globals : Type := mkGlobals
  { host : string;
    clientConfig_Host : string }.

(** What the command does to the outside. *)
Inductive effect (V : Type) : Type :=
| ReadConfig
| LogInfo (field value msg : string)
| ListVolumes (host : string)
| PrintVolumes (volumes : list V)
| LogError (msg : string)
| Exit (code : Z).
Arguments ReadConfig {V}.
Arguments LogInfo {V} field value msg.
Arguments ListVolumes {V} host.
Arguments PrintVolumes {V} volumes.
Arguments LogError {V} msg.
Arguments Exit {V} code.

Class Env (V E : Type) : Type := mkEnv
  { (* readClientConfig(): may set the package variables *)
    readClientConfig : globals -> E -> option error * globals * E;
    (* client.UnikClient(host).Volumes().All() *)
    Volumes_All : string -> E -> list V * option error * E }.

Section Run.
Context {V E : Type} {env : Env V E}.

(** The function literal called in [Run]: the listing, with the error it
    returns. *)
Definition list_volumes (g : globals) (e : E)
  : option error * list (effect V) * globals * E :=
  let '(err, g, e) := readClientConfig g e in
  match err with
  | Some err => (Some err, [ReadConfig], g, e)
  | None =>
      let g := if decide (host g = EmptyString)
               then mkGlobals (clientConfig_Host g) (clientConfig_Host g)
               else g in
      let '(volumes, err, e) := Volumes_All (host g) e in
      match err with
      | Some err =>
          (Some ("listing volumes failed: " +:+ err),
           [ReadConfig; LogInfo "host" (host g) "listing volumes";
            ListVolumes (host g)], g, e)
      | None =>
          (None,
           [ReadConfig; LogInfo "host" (host g) "listing volumes";
            ListVolumes (host g); PrintVolumes volumes], g, e)
      end
  end.

(** [Run]: an error of the listing is logged and the process exits with
    the code -1. *)
Definition Run (g : globals) (e : E) : list (effect V) * globals * E :=
  let '(err, effects, g, e) := list_volumes g e in
  match err with
  | Some err =>
      (effects ++ [LogError ("failed listing volumes: " +:+ err); Exit (-1)], g, e)
  | None => (effects, g, e)
  end.
End Run.

(** What a run printed, the hosts it asked, the errors it logged and the
    codes it exited with. *)
Definition printed {V} (effects : list (effect V)) : list (list V) :=
  omap (fun x => match x with PrintVolumes vs => Some vs | _ => None end) effects.
Definition asked {V} (effects : list (effect V)) : list string :=
  omap (fun x => match x with ListVolumes h => Some h | _ => None end) effects.
Definition logged_errors {V} (effects : list (effect V)) : list string :=
  omap (fun x => match x with LogError m => Some m | _ => None end) effects.
Definition exits {V} (effects : list (effect V)) : list Z :=
  omap (fun x => match x with Exit c => Some c | _ => None end) effects.
End cmd.

(** ** Scenarios on the simulated host *)

Module Scenarios.
(** A plain host; a host on which copying the kernel fails; one on which
    creating the partition table fails; one whose backend drops the
    second partition; one whose backend commits no partition at all; one
    that snaps the start of a partition down to a megabyte; one on which
    the enumeration fails. *)
Definition plain : Sim.config := Sim.mkConfig Sim.never Sim.exact (fun _ => 1000).

Definition no_kernel : Sim.config :=
  Sim.mkConfig (fun c => match c with CCopyFile _ _ => true | _ => false end)
    Sim.exact (fun _ => 1000).

Definition no_table : Sim.config :=
  Sim.mkConfig (fun c => match c with CMakeTable _ => true | _ => false end)
    Sim.exact (fun _ => 1000).

Definition drops_second : Sim.config :=
  Sim.mkConfig Sim.never
    (fun n start end_ => if decide (n = 1%nat) then None else Sim.exact n start end_)
    (fun _ => 1000).

Definition commits_nothing : Sim.config :=
  Sim.mkConfig Sim.never (fun _ _ _ => None) (fun _ => 1000).

Definition snaps_down : Sim.config :=
  Sim.mkConfig Sim.never
    (fun _ start end_ =>
       let o := start / 2 ^ 20 * 2 ^ 20 in Some (o, end_ - o))
    (fun _ => 1000).

Definition no_listing : Sim.config :=
  Sim.mkConfig (fun c => match c with CListParts _ => true | _ => false end)
    Sim.exact (fun _ => 1000).

Definition two_volumes : list types.RawVolume :=
  [types.mkRawVolume "/data/a" 0; types.mkRawVolume "/data/b" 0].

Definition two_mounts : gmap string types.RawVolume :=
  <["/mnt/a"%string := types.mkRawVolume "/data/a" 0]>
    (<["/mnt/b"%string := types.mkRawVolume "/data/b" 0]> ∅).

Definition sized_mount : gmap string types.RawVolume :=
  <["/mnt/a"%string := types.mkRawVolume "/data/a" 4096]> ∅.

(** A host on which mkfs fails; one on which no directory can be
    measured; an environment of the volumes command whose configuration
    names a host and whose client lists two volumes. *)
Definition no_mkfs : Sim.config :=
  Sim.mkConfig (fun c => match c with CRunLogCommand _ _ => true | _ => false end)
    Sim.exact (fun _ => 1000).

Definition no_measure : Sim.config :=
  Sim.mkConfig (fun c => match c with CGetDirSize _ => true | _ => false end)
    Sim.exact (fun _ => 1000).

Definition listing : cmd.Env string unit :=
  cmd.mkEnv string unit
    (fun g e => (None, cmd.mkGlobals (cmd.host g) "unik.example", e))
    (fun h e => (["vol-a"; "vol-b"]%string, None, e)).
End Scenarios.

(** ** Reasoning about runs: postconditions *)

Section Wp.
Context {W : Type} {H : Host W}.

Definition wp {R A} (m : M W R A) (ds : list call) (w : W)
    (Q : outcome R A -> list event -> list call -> W -> Prop) : Prop :=
  match m ds w with (o, ev, ds', w') => Q o ev ds' w' end.

Definition fn_post {R} (f : Fn W R) (w : W)
    (P : result R -> list event -> W -> Prop) : Prop :=
  match f w with (r, ev, w') => P r ev w' end.

Definition defers_post (ds : list call) (w : W)
    (P : list event -> W -> Prop) : Prop :=
  match run_defers ds w with (ev, w') => P ev w' end.

Definition to_result {R} (o : outcome R Empty_set) : result R :=
  match o with
  | Next e => match e with end
  | Return r => Done r
  | Panicking msg => Panic msg
  end.

Lemma wp_ret {R A} (a : A) ds w (Q : outcome R A -> _) :
  Q (Next a) [] ds w -> wp (ret a) ds w Q.
Proof. done. Qed.

Lemma wp_return {R A} (r : R) ds w (Q : outcome R A -> _) :
  Q (Return r) [] ds w -> wp (return_ r) ds w Q.
Proof. done. Qed.

Lemma wp_panic {R A} msg ds w (Q : outcome R A -> _) :
  Q (Panicking msg) [] ds w -> wp (panic msg) ds w Q.
Proof. done. Qed.

Lemma wp_bind {R A B} (m : M W R A) (k : A -> M W R B) ds w Q :
  wp m ds w (fun o ev ds1 w1 =>
    match o with
    | Next a => wp (k a) ds1 w1 (fun o2 ev2 => Q o2 (ev ++ ev2))
    | Return r => Q (Return r) ev ds1 w1
    | Panicking msg => Q (Panicking msg) ev ds1 w1
    end) ->
  wp (bind m k) ds w Q.
Proof.
  unfold wp, bind. destruct (m ds w) as [[[[a|r|msg] ev] ds1] w1]; [|done..].
  by destruct (k a ds1 w1) as [[[o2 ev2] ds2] w2].
Qed.

Lemma wp_sys {R} (c : call) ds w (Q : outcome R reply -> _) :
  (forall rep w1, perform c w = (rep, w1) -> Q (Next rep) [EvHost c rep] ds w1) ->
  wp (sys c) ds w Q.
Proof. unfold wp, sys. destruct (perform c w) as [rep w1]. auto. Qed.

Lemma wp_defer {R} (c : call) ds w (Q : outcome R unit -> _) :
  Q (Next tt) [] (c :: ds) w -> wp (defer c) ds w Q.
Proof. done. Qed.

Lemma wp_enter {R} (f : entry) ds w (Q : outcome R unit -> _) :
  Q (Next tt) [EvEnter f] ds w -> wp (enter f) ds w Q.
Proof. done. Qed.

Lemma wp_when_err {R} (err : option error) (k : error -> R) ds w Q :
  match err with
  | Some e => Q (Return (k e)) [] ds w
  | None => Q (Next tt) [] ds w
  end ->
  wp (when_err err k) ds w Q.
Proof. by destruct err. Qed.

Lemma wp_range_map {R} (m : gmap string types.RawVolume) ds w
    (Q : outcome R (list string) -> _) :
  Q (Next (range_order m w)) [EvRange (range_order m w)] ds w ->
  wp (range_map m) ds w Q.
Proof. done. Qed.

Lemma wp_invoke {R R'} (f : Fn W R') ds w (Q : outcome R R' -> _) :
  fn_post f w (fun r ev w1 =>
    match r with
    | Done x => Q (Next x) ev ds w1
    | Panic msg => Q (Panicking msg) ev ds w1
    end) ->
  wp (invoke f) ds w Q.
Proof.
  unfold wp, invoke, fn_post. by destruct (f w) as [[[x|msg] ev] w1].
Qed.

Lemma defers_nil w P : P [] w -> defers_post [] w P.
Proof. done. Qed.

Lemma defers_cons c ds w P :
  (forall rep w1, perform c w = (rep, w1) ->
     defers_post ds w1 (fun ev => P (EvHost c rep :: ev))) ->
  defers_post (c :: ds) w P.
Proof.
  unfold defers_post. cbn. destruct (perform c w) as [rep w1]. intros Hk.
  specialize (Hk _ _ eq_refl). by destruct (run_defers ds w1).
Qed.

Lemma fn_func {R} (body : M W R Empty_set) w P :
  wp body [] w (fun o ev ds w1 =>
    defers_post ds w1 (fun ev2 => P (to_result o) (ev ++ ev2))) ->
  fn_post (func body) w P.
Proof.
  unfold wp, fn_post, func, defers_post.
  destruct (body [] w) as [[[o ev] ds] w1].
  by destruct (run_defers ds w1) as [ev2 w2].
Qed.

Lemma fn_post_intro {R} (f : Fn W R) w (G : result R * list event * W -> Prop) :
  fn_post f w (fun r ev w' => G (r, ev, w')) -> G (f w).
Proof. unfold fn_post. by destruct (f w) as [[r ev] w']. Qed.

Lemma fn_post_mono {R} (f : Fn W R) w (P P' : result R -> list event -> W -> Prop) :
  fn_post f w P -> (forall r ev w', P r ev w' -> P' r ev w') -> fn_post f w P'.
Proof. unfold fn_post. destruct (f w) as [[r ev] w']. auto. Qed.

Lemma wp_mono {R A} (m : M W R A) ds w (Q Q' : outcome R A -> _) :
  wp m ds w Q -> (forall o ev ds' w', Q o ev ds' w' -> Q' o ev ds' w') ->
  wp m ds w Q'.
Proof. unfold wp. destruct (m ds w) as [[[o ev] ds'] w']. auto. Qed.

(** The head of a slice. *)
Lemma index_head {R A} (x : A) (l : list A) :
  index (W:=W) (R:=R) (x :: l) 0 = ret x.
Proof. reflexivity. Qed.

(** An index in range, and an index out of range. *)
Lemma index_lookup {R A} (l : list A) (i : nat) (x : A) :
  l !! i = Some x -> index (W:=W) (R:=R) l (Z.of_nat i) = ret x.
Proof.
  intros Hl. unfold index. case_decide; [|lia]. by rewrite Nat2Z.id, Hl.
Qed.

Lemma index_out_of_range {R A} (l : list A) (i : Z) :
  i < 0 \/ Z.of_nat (length l) <= i ->
  index (W:=W) (R:=R) l i = panic "index out of range".
Proof.
  intros Hi. unfold index. case_decide; [|done].
  rewrite (lookup_ge_None_2 l (Z.to_nat i)); [done|lia].
Qed.
End Wp.

(** Symbolic execution of a run, one statement at a time. *)
Ltac wp_wrappers :=
  unfold Acquire, ListParts, MakeTable, MakePartTillEnd, MakePart, RunLogCommand,
    Mount, CopyFile, CopyDir, GetDirSize, os_MkdirAll, os_Create, Seek, Write.

Ltac wp_simpl :=
  cbv beta iota zeta; cbn [rerr rname rparts rnum fst snd to_result].

Ltac wp_step :=
  lazymatch goal with
  | |- wp (bind _ _) _ _ _ => apply wp_bind
  | |- wp (ret _) _ _ _ => apply wp_ret
  | |- wp (return_ _) _ _ _ => apply wp_return
  | |- wp (panic _) _ _ _ => apply wp_panic
  | |- wp (defer _) _ _ _ => apply wp_defer
  | |- wp (enter _) _ _ _ => apply wp_enter
  | |- wp (range_map _) _ _ _ => apply wp_range_map
  | |- wp (sys _) _ _ _ =>
      let err := fresh "err" in
      let name := fresh "name" in
      let parts := fresh "parts" in
      let num := fresh "num" in
      let w' := fresh "w" in
      let E := fresh "E" in
      apply wp_sys; intros [err name parts num] w' E
  | |- wp (when_err _ _) _ _ _ => apply wp_when_err; wp_simpl
  | |- wp (invoke (func _)) _ _ _ => apply wp_invoke, fn_func
  | |- fn_post (func _) _ _ => apply fn_func
  | |- defers_post [] _ _ => apply defers_nil
  | |- defers_post (_ :: _) _ _ =>
      let rep := fresh "rep" in
      let w' := fresh "w" in
      let E := fresh "E" in
      apply defers_cons; intros rep w' E
  | |- match ?e with Some _ => _ | None => _ end => is_var e; destruct e
  | |- wp ?m _ _ _ => first [ progress wp_wrappers | progress wp_simpl ]
  | |- _ => progress wp_simpl
  end.

Ltac wp_run := repeat wp_step.

(** Start from a goal about [f w]: name its postcondition. *)
Ltac wp_start :=
  apply fn_post_intro;
  match goal with
  | |- fn_post _ _ ?P => let Post := fresh "Post" in set (Post := P)
  end.

Ltac observe :=
  cbn [steps_of cleanup_of forallb is_cleanup andb acquired released omap
       list_omap succeeded rerr rname rparts rnum last_error last rev app
       fst snd tables till_end_parts requests enumerations acquire_attempts
       writes sparse_files copies measured ranges acquisitions].

(** At the end of a run: unfold the postcondition on the trace. *)
Ltac wp_end :=
  lazymatch goal with
  | Post := _ |- _ => subst Post
  end;
  cbv beta;
  unfold to_result, outcome_of, trace_of, NewLoDevice, NewDevice;
  cbn [app fst snd]; observe.

Lemma steps_cleanup tr : tr = steps_of tr ++ cleanup_of tr.
Proof.
  induction tr as [|e tr IH]; [done|].
  cbn [steps_of cleanup_of]. destruct (forallb is_cleanup (e :: tr)); [done|].
  cbn. by rewrite <- IH.
Qed.

(** ** The templates *)

Lemma parse_GrubTemplate :
  exists t, template_Parse GrubTemplate = Some t /\
    forall rootDrive commandline,
      render t [("RootDrive"%string, rootDrive); ("CommandLine"%string, commandline)]
      = Some (grub_text rootDrive commandline).
Proof. eexists. split; [vm_compute; reflexivity|]. intros. reflexivity. Qed.

Lemma parse_DeviceMapFile :
  exists t, template_Parse DeviceMapFile = Some t /\
    forall rootDevice,
      render t [("GrubDevice"%string, rootDevice)] = Some (map_text rootDevice).
Proof. eexists. split; [vm_compute; reflexivity|]. intros. reflexivity. Qed.

Section Templates.
Context {W : Type} {H : Host W}.

(** A run of [writeBootTemplate]: create, write the rendered template,
    close. *)
Lemma fn_writeBootTemplate fname rootDrive commandline (w : W) P :
  (forall rep w1, perform (CCreate fname) w = (rep, w1) ->
     match rerr rep with
     | Some e => P (Done (Some e)) [EvHost (CCreate fname) rep] w1
     | None =>
         forall rep2 w2,
           perform (CWrite fname (grub_text rootDrive commandline)) w1 = (rep2, w2) ->
           forall rep3 w3, perform (CClose fname) w2 = (rep3, w3) ->
             P (Done None)
               [EvHost (CCreate fname) rep;
                EvHost (CWrite fname (grub_text rootDrive commandline)) rep2;
                EvHost (CClose fname) rep3] w3
     end) ->
  fn_post (writeBootTemplate fname rootDrive commandline) w P.
Proof.
  intros HP. destruct parse_GrubTemplate as (t & Ht & Hr).
  unfold writeBootTemplate. rewrite Ht. unfold template_Must, Execute.
  wp_run.
  - specialize (HP _ _ E). exact HP.
  - rewrite Hr. specialize (HP _ _ E). cbn in HP. wp_run.
    exact (HP _ _ E0 _ _ E1).
Qed.

Lemma fn_writeDeviceMap fname rootDevice (w : W) P :
  (forall rep w1, perform (CCreate fname) w = (rep, w1) ->
     match rerr rep with
     | Some e => P (Done (Some e)) [EvHost (CCreate fname) rep] w1
     | None =>
         forall rep2 w2,
           perform (CWrite fname (map_text rootDevice)) w1 = (rep2, w2) ->
           forall rep3 w3, perform (CClose fname) w2 = (rep3, w3) ->
             P (Done None)
               [EvHost (CCreate fname) rep;
                EvHost (CWrite fname (map_text rootDevice)) rep2;
                EvHost (CClose fname) rep3] w3
     end) ->
  fn_post (writeDeviceMap fname rootDevice) w P.
Proof.
  intros HP. destruct parse_DeviceMapFile as (t & Ht & Hr).
  unfold writeDeviceMap. rewrite Ht. unfold template_Must, Execute.
  wp_run.
  - specialize (HP _ _ E). exact HP.
  - rewrite Hr. specialize (HP _ _ E). cbn in HP. wp_run.
    exact (HP _ _ E0 _ _ E1).
Qed.
End Templates.

(** Calls of the functions of this file from a body. *)
Ltac wp_call :=
  lazymatch goal with
  | |- wp (invoke (writeBootTemplate _ _ _)) _ _ _ =>
      apply wp_invoke, fn_writeBootTemplate;
      intros [[?e|] ?name ?parts ?num] ?w ?E; cbn [rerr];
      [| intros ?rep ?w ?E ?rep ?w ?E]
  | |- wp (invoke (writeDeviceMap _ _)) _ _ _ =>
      apply wp_invoke, fn_writeDeviceMap;
      intros [[?e|] ?name ?parts ?num] ?w ?E; cbn [rerr];
      [| intros ?rep ?w ?E ?rep ?w ?E]
  | |- wp (invoke (PrepareGrub _ _ _ _)) _ _ _ => unfold PrepareGrub
  | |- wp (invoke (createSparseFile _ _)) _ _ _ => unfold createSparseFile
  | |- wp (invoke (copyToPart _ _)) _ _ _ => unfold copyToPart
  | |- wp (invoke (formatDeviceAndCopyContents _ _)) _ _ _ =>
      unfold formatDeviceAndCopyContents
  | |- wp (invoke (CopyToImgFile _ _)) _ _ _ => unfold CopyToImgFile
  | |- wp (invoke (CreateBootImageOnFile _ _ _ _)) _ _ _ =>
      unfold CreateBootImageOnFile
  end.

Ltac wp_go := repeat first [wp_call | wp_step].

Ltac solve_prefix := repeat apply prefix_cons; apply prefix_nil.

(** The enumeration of [CreateBootImageOnFile]: no partition, or a first
    one. *)
Ltac split_parts :=
  match goal with
  | |- context [decide (Z.of_nat (length ?ps) < 1)] =>
      let p := fresh "p" in
      let ps' := fresh "ps" in
      destruct ps as [|p ps']; cbn [length];
      [ case_decide; [|lia] | rewrite index_head; case_decide; [lia|] ]
  end.

(** ** The loops and the runs of the volume assemblers *)

Lemma map_index_insert {V} (zero v : V) (m : gmap string V) (k : string) :
  map_index zero (<[k := v]> m) k = v.
Proof. unfold map_index. by rewrite lookup_insert_eq. Qed.

Section Loops.
Context {W : Type} {H : Host W}.

Lemma index_last {R A} (l : list A) (x : A) :
  last l = Some x ->
  index (W:=W) (R:=R) l (Z.of_nat (length l) - 1) = ret x.
Proof.
  intros Hlast. rewrite last_lookup in Hlast.
  assert (0 < length l)%nat by (destruct l; [done|cbn; lia]).
  replace (Z.of_nat (length l) - 1) with (Z.of_nat (Nat.pred (length l))) by lia.
  by apply index_lookup.
Qed.

Lemma fn_copyToPart folder part (w : W) P :
  (forall r ev w', forallb is_population ev = true ->
     P (Done r) (EvEnter (FcopyToPart folder part) :: ev) w') ->
  fn_post (copyToPart folder part) w P.
Proof.
  intros HP. unfold copyToPart. wp_go.
  all: cbn [app]; apply HP; reflexivity.
Qed.

Lemma fn_createSparseFile filename size (w : W) P :
  (forall r ev w', forallb is_file_event ev = true ->
     P (Done r) (EvEnter (FcreateSparseFile filename size) :: ev) w') ->
  fn_post (createSparseFile filename size) w P.
Proof.
  intros HP. unfold createSparseFile. wp_go.
  all: cbn [app]; apply HP; reflexivity.
Qed.

Lemma wp_sizing (vs : list types.RawVolume) (n : nat) sizes total ds (w : W) Q :
  (forall o ev w' out, sizing_run vs sizes total ev out ->
     match out with
     | Completed a => o = Next a
     | Failed e => o = Return (Some e)
     | Crashed => False
     end -> Q o ev ds w') ->
  wp (for_range vs n (sizes, total)
        (fun _ v '(sizes, totalSize) =>
           let* sizes :=
             if decide (types.Size v = 0)
             then
               let* (cursize, err) := GetDirSize (types.Path v) in
               when_err err Some ;;
               ret (sizes ++ [wrap64 (wrap64 cursize + ToBytes (MegaBytes 2))])
             else ret (sizes ++ [wrap64 (types.Size v)]) in
           let* lastSize := index sizes (Z.of_nat (length sizes) - 1) in
           ret (sizes, wrap64 (totalSize + lastSize)))) ds w Q.
Proof.
  revert n sizes total w Q. induction vs as [|v vs IH]; intros n sizes total w Q HQ.
  { cbn [for_range]. wp_go. eapply HQ; [constructor|done]. }
  cbn [for_range]. apply wp_bind. wp_simpl. apply wp_bind.
  case_decide as Hsz.
  - wp_go.
    + cbn [app]. eapply HQ; [by apply sizing_failed|done].
    + rewrite length_app. cbn [length].
      replace (Z.of_nat (length sizes + 1) - 1) with (Z.of_nat (length sizes)) by lia.
      erewrite index_lookup; [|by rewrite lookup_app_r, Nat.sub_diag by lia].
      wp_go. apply IH. intros o ev w' out Hrun Hout.
      eapply HQ; [|exact Hout]. cbn [app]. by eapply sizing_measured.
  - wp_go. rewrite length_app. cbn [length].
    replace (Z.of_nat (length sizes + 1) - 1) with (Z.of_nat (length sizes)) by lia.
    erewrite index_lookup; [|by rewrite lookup_app_r, Nat.sub_diag by lia].
    wp_go. apply IH. intros o ev w' out Hrun Hout.
    eapply HQ; [|exact Hout]. cbn [app]. by eapply sizing_explicit.
Qed.

Lemma wp_sizing_map (volumes : gmap string types.RawVolume) (ks : list string)
    (n : nat) sizes ordered total ds (w : W) Q :
  (forall o ev w' out, sizing_map_run volumes ks sizes ordered total ev out ->
     match out with
     | Completed a => o = Next a
     | Failed e => o = Return (nil_err e)
     | Crashed => False
     end -> Q o ev ds w') ->
  wp (for_range ks n (sizes, ordered, total)
        (fun _ mntPoint '(sizes, orderedKeys, totalSize) =>
           let localDir := map_index types.zero volumes mntPoint in
           let* (cursize, err) := GetDirSize (types.Path localDir) in
           when_err err nil_err ;;
           let sizes :=
             <[mntPoint := wrap64 (wrap64 cursize + ToBytes (MegaBytes 2))]> sizes in
           let totalSize := wrap64 (totalSize + map_index 0 sizes mntPoint) in
           let orderedKeys := orderedKeys ++ [mntPoint] in
           ret (sizes, orderedKeys, totalSize))) ds w Q.
Proof.
  revert n sizes ordered total w Q.
  induction ks as [|k ks IH]; intros n sizes ordered total w Q HQ.
  { cbn [for_range]. wp_go. eapply HQ; [constructor|done]. }
  cbn [for_range]. wp_go.
  - cbn [app]. eapply HQ; [by apply sizing_map_failed|done].
  - rewrite (map_index_insert 0 _ sizes k).
    apply IH. intros o ev w' out Hrun Hout.
    eapply HQ; [|exact Hout]. cbn [app]. by eapply sizing_map_measured.
Qed.

Lemma wp_layout {A R} (f : A -> Z) (k : error -> R) p dev (l : list A)
    (n : nat) start ds (w : W) Q :
  (forall o ev w' out, layout_run p dev start (map f l) ev out ->
     match out with
     | Completed s => o = Next s
     | Failed e => o = Return (k e)
     | Crashed => o = Panicking "index out of range"
     end -> Q o ev ds w') ->
  wp (for_range l n start
        (fun _ x start =>
           let end_ := wrap64 (start + f x) in
           let* err := MakePart p "ext2" (Bytes start) (Bytes end_) in
           when_err err k ;;
           let* (curParts, err) := ListParts dev in
           when_err err k ;;
           let* last1 := index curParts (Z.of_nat (length curParts) - 1) in
           let* last2 := index curParts (Z.of_nat (length curParts) - 1) in
           ret (wrap64 (ToBytes (Offset last1) + ToBytes (Size last2))))) ds w Q.
Proof.
  revert n start w Q. induction l as [|x l IH]; intros n start w Q HQ.
  { cbn [for_range]. wp_go. eapply HQ; [constructor|done]. }
  cbn [for_range map]. wp_go.
  - cbn [app]. eapply HQ; [by apply layout_make_failed|done].
  - cbn [app]. eapply HQ; [by apply layout_list_failed|done].
  - destruct (last parts0) as [part|] eqn:Hlast.
    + rewrite (index_last _ _ Hlast). wp_go. apply IH. intros o ev w' out Hrun Hout.
      eapply HQ; [|exact Hout]. cbn [app]. by eapply layout_next.
    + apply last_None in Hlast as ->. rewrite index_out_of_range by (cbn; lia).
      wp_go. cbn [app]. eapply HQ; [by apply layout_crashed|done].
Qed.

Lemma wp_copy {A R} (g : A -> string) parts (l : list A) (n : nat) ds (w : W)
    (Q : outcome R unit -> _) :
  (forall o ev w' out, copy_run (map g l) parts n ev out ->
     match out with
     | Completed _ => o = Next tt
     | Failed _ => False
     | Crashed => o = Panicking "index out of range"
     end -> Q o ev ds w') ->
  wp (for_range l n tt
        (fun i x _ =>
           let* part := index parts (Z.of_nat i) in
           invoke (copyToPart (g x) part) ;;
           ret tt)) ds w Q.
Proof.
  revert n w Q. induction l as [|x l IH]; intros n w Q HQ.
  { cbn [for_range]. wp_go. eapply HQ; [constructor|done]. }
  cbn [for_range map]. destruct (parts !! n) as [part|] eqn:Hp.
  - rewrite (index_lookup _ _ _ Hp). wp_run.
    apply wp_invoke, fn_copyToPart. intros r ev1 w1 Hev1. wp_run.
    apply IH. intros o ev w' out Hrun Hout.
    eapply HQ; [|exact Hout]. cbn [app map]. rewrite app_nil_r. by eapply copy_next.
  - rewrite index_out_of_range
      by (right; apply lookup_ge_None_1 in Hp; lia).
    wp_go. eapply HQ; [by apply copy_crashed|done].
Qed.

Ltac trace_norm :=
  unfold NewLoDevice, NewDevice;
  repeat (progress (cbn [app]; rewrite ?app_nil_r, <- ?app_assoc)).

Ltac volumes_case out :=
  trace_norm; right; eexists _, _, _, out, _;
  refine (conj _ (conj _ (conj eq_refl _))); [eassumption| |try done].

Lemma CreateVolumes_runs imgFile volumes newPartitioner (w : W) :
  fn_post (CreateVolumes imgFile volumes newPartitioner) w
    (fun r tr _ => volumes_run imgFile volumes newPartitioner r tr).
Proof.
  unfold CreateVolumes. apply fn_func. apply wp_bind. wp_simpl.
  apply wp_sizing. intros o ev ? out Hsz Hout.
  destruct out as [[sizes total]|e|]; [|subst o; wp_run|done].
  2: { trace_norm. left. eauto. }
  subst o. wp_run.
  apply wp_invoke, fn_createSparseFile. intros r evf ? Hevf. wp_run.
  { volumes_case (@Failed unit e). by apply assembly_alloc_failed. }
  { volumes_case (@Failed unit e). by eapply assembly_attach_failed. }
  eapply (wp_layout (fun x => x)). rewrite map_id.
  intros o evl ? outl Hl Houtl.
  destruct outl as [start|e|].
  - subst o. wp_run. case_decide as Hlen.
    + wp_run. volumes_case (@Failed unit "Not enough parts created!").
      eapply assembly_count_mismatch; rewrite ?length_map; eauto.
    + wp_run. apply (wp_copy types.Path).
      intros o evc ? outc Hc Houtc. destruct outc as [[]|e|]; [| done |].
      * subst o. wp_run. volumes_case (Completed tt).
        eapply assembly_populated; [done..| |exact Hc|done].
        intros _. rewrite length_map. cbn [rparts]. exact Hlen.
      * subst o. wp_run. volumes_case (@Crashed unit).
        eapply assembly_populated; [done..| |exact Hc|done].
        intros _. rewrite length_map. cbn [rparts]. exact Hlen.
  - subst o. wp_run. volumes_case (@Failed unit e).
    by eapply assembly_layout_failed.
  - subst o. wp_run. volumes_case (@Crashed unit).
    by eapply assembly_layout_crashed.
Qed.

Ltac partitioned_case out :=
  trace_norm; right; eexists _, _, _, _, out, _;
  refine (conj _ (conj _ (conj eq_refl _))); [eassumption| |try done].

Lemma CreatePartitionedVolumes_runs imgFile volumes (w : W) :
  fn_post (CreatePartitionedVolumes imgFile volumes) w
    (fun r tr _ => partitioned_run imgFile volumes (range_order volumes w) r tr).
Proof.
  unfold CreatePartitionedVolumes. apply fn_func. wp_run.
  apply wp_sizing_map. intros o ev ? out Hsz Hout.
  destruct out as [[[sizes ordered] total]|e|]; [|subst o; wp_run|done].
  2: { trace_norm. left. eauto. }
  subst o. wp_run.
  apply wp_invoke, fn_createSparseFile. intros r evf ? Hevf. wp_run.
  { partitioned_case (@Failed unit e). by apply assembly_alloc_failed. }
  { partitioned_case (@Failed unit e). by eapply assembly_attach_failed. }
  eapply (wp_layout (map_index 0 sizes)).
  intros o evl ? outl Hl Houtl.
  destruct outl as [start|e|].
  - subst o. wp_run.
    apply (wp_copy (fun k => types.Path (map_index types.zero volumes k))).
    intros o evc ? outc Hc Houtc. destruct outc as [[]|e|]; [| done |].
    + subst o. wp_run. partitioned_case (Completed tt).
      eapply assembly_populated; [done..| |exact Hc|done]. done.
    + subst o. wp_run. partitioned_case (@Crashed unit).
      eapply assembly_populated; [done..| |exact Hc|done]. done.
  - subst o. wp_run. partitioned_case (@Failed unit e).
    by eapply assembly_layout_failed.
  - subst o. wp_run. partitioned_case (@Crashed unit).
    by eapply assembly_layout_crashed.
Qed.
End Loops.

(** ** Arithmetic of the sizes *)

Lemma and_not_sector x : and_not x (SectorSize - 1) = 512 * (x / 512).
Proof.
  unfold and_not, SectorSize. change (512 - 1) with (Z.ones 9).
  rewrite Z.ldiff_ones_r by lia.
  rewrite Z.shiftr_div_pow2, Z.shiftl_mul_pow2 by lia.
  change (2 ^ 9) with 512. lia.
Qed.

Lemma wrap64_small x : 0 <= x < 2 ^ 64 -> wrap64 x = x.
Proof. intros. unfold wrap64. by apply Z.mod_small. Qed.

Lemma wrap64_range x : 0 <= wrap64 x < 2 ^ 64.
Proof. unfold wrap64. apply Z.mod_pos_bound. lia. Qed.

Lemma wrap64_idemp x : wrap64 (wrap64 x) = wrap64 x.
Proof. apply wrap64_small, wrap64_range. Qed.

Lemma wrap64_sector x : wrap64 x mod 512 = x mod 512.
Proof.
  unfold wrap64. apply Z.mod_mod_divide. exists (2 ^ 55). reflexivity.
Qed.

Lemma int64_small x : - 2 ^ 63 <= x < 2 ^ 63 -> int64 x = x.
Proof. intros. unfold int64. rewrite Z.mod_small; lia. Qed.

Lemma MB2_value : MB2 = 2097152.
Proof. reflexivity. Qed.

Lemma MB4_value : ToBytes (MegaBytes 4) = 4194304.
Proof. reflexivity. Qed.

(** The image is a whole number of sectors, whatever the total. *)
Lemma image_size_aligned total : ToBytes (Bytes (image_size total)) mod 512 = 0.
Proof.
  unfold ToBytes, image_size. rewrite wrap64_idemp, wrap64_sector.
  rewrite and_not_sector, MB4_value.
  rewrite Z.add_mod, Z.mul_comm, Z.mod_mul by lia. reflexivity.
Qed.

(** Without overflow: the next sector boundary after the total and its
    tenth, and four megabytes. *)
Lemma image_size_exact total :
  0 <= total -> total + total / 10 + 512 + 4194304 < 2 ^ 64 ->
  image_size total = 512 * ((total + total / 10) / 512 + 1) + 4194304.
Proof.
  intros Hpos Hbound. unfold image_size. rewrite MB4_value, and_not_sector.
  unfold SectorSize.
  assert (0 <= total / 10) by (apply Z.div_pos; lia).
  assert (2 ^ 64 = 18446744073709551616) as E64 by reflexivity.
  rewrite (wrap64_small (512 + total + total / 10)) by lia.
  replace (512 + total + total / 10) with ((total + total / 10) + 1 * 512) by lia.
  rewrite Z.div_add by lia.
  assert (512 * ((total + total / 10) / 512) <= total + total / 10)
    by (apply Z.mul_div_le; lia).
  assert (0 <= (total + total / 10) / 512) by (apply Z.div_pos; lia).
  apply wrap64_small. lia.
Qed.

(** ** What the phases of a run leave in the projections *)

Lemma omap_quiet {A B} (f : A -> option B) (c : A -> bool) (l : list A) :
  (forall e, c e = true -> f e = None) -> forallb c l = true -> omap f l = [].
Proof.
  intros Hf. induction l as [|e l IH]; [done|]. cbn [forallb omap list_omap].
  intros [He Hl]%andb_prop. rewrite (Hf e He). by apply IH.
Qed.

Ltac quiet :=
  lazymatch goal with
  | H : forallb _ ?ev = true |- omap _ ?ev = [] =>
      apply (omap_quiet _ _ _) with (2 := H); by intros [[] ?|[]|?]
  end.

Lemma file_events_quiet ev :
  forallb is_file_event ev = true ->
  requests ev = [] /\ enumerations ev = [] /\ sparse_files ev = [] /\
  copies ev = [] /\ measured ev = [] /\ ranges ev = [].
Proof.
  intros Hev.
  unfold requests, enumerations, sparse_files, copies, measured, ranges.
  split_and!; quiet.
Qed.

Lemma population_quiet ev :
  forallb is_population ev = true ->
  requests ev = [] /\ enumerations ev = [] /\ sparse_files ev = [] /\
  copies ev = [] /\ measured ev = [] /\ ranges ev = [].
Proof.
  intros Hev.
  unfold requests, enumerations, sparse_files, copies, measured, ranges.
  split_and!; quiet.
Qed.

Lemma requests_app a b : requests (a ++ b) = requests a ++ requests b.
Proof. apply omap_app. Qed.
Lemma enumerations_app a b :
  enumerations (a ++ b) = enumerations a ++ enumerations b.
Proof. apply omap_app. Qed.
Lemma sparse_files_app a b : sparse_files (a ++ b) = sparse_files a ++ sparse_files b.
Proof. apply omap_app. Qed.
Lemma copies_app a b : copies (a ++ b) = copies a ++ copies b.
Proof. apply omap_app. Qed.
Lemma measured_app a b : measured (a ++ b) = measured a ++ measured b.
Proof. apply omap_app. Qed.
Lemma ranges_app a b : ranges (a ++ b) = ranges a ++ ranges b.
Proof. apply omap_app. Qed.

Ltac project :=
  repeat (progress (rewrite ?requests_app, ?enumerations_app, ?sparse_files_app,
                      ?copies_app, ?measured_app, ?ranges_app; simpl)).

Lemma sizing_quiet vs sizes total ev out :
  sizing_run vs sizes total ev out ->
  requests ev = [] /\ enumerations ev = [] /\ sparse_files ev = [] /\
  copies ev = [] /\ ranges ev = [].
Proof. induction 1; observe; auto. Qed.

Lemma sizing_map_quiet volumes ks sizes ordered total ev out :
  sizing_map_run volumes ks sizes ordered total ev out ->
  requests ev = [] /\ enumerations ev = [] /\ sparse_files ev = [] /\
  copies ev = [] /\ ranges ev = [].
Proof. induction 1; observe; auto. Qed.

Lemma layout_quiet p dev start sizes ev out :
  layout_run p dev start sizes ev out ->
  sparse_files ev = [] /\ copies ev = [] /\ measured ev = [] /\ ranges ev = [].
Proof. induction 1; observe; auto. Qed.

Lemma copy_quiet folders parts i ev out :
  copy_run folders parts i ev out ->
  requests ev = [] /\ enumerations ev = [] /\ sparse_files ev = [] /\
  measured ev = [] /\ ranges ev = [].
Proof.
  induction 1 as [| ? ? ? ? ? ev1 ? ? ? Hev1 ? IH|]; observe; auto.
  destruct (population_quiet _ Hev1) as (? & ? & ? & ? & ? & ?).
  destruct IH as (? & ? & ? & ? & ?). project.
  repeat match goal with H : _ = [] |- _ => rewrite H end. done.
Qed.

(** ** The layout loop *)

Lemma layout_lengths p dev start sizes ev out :
  layout_run p dev start sizes ev out ->
  (length (requests ev) <= length sizes)%nat /\
  (length (enumerations ev) <= length (requests ev))%nat /\
  (forall s, out = Completed s ->
     length (requests ev) = length sizes /\
     length (enumerations ev) = length sizes).
Proof.
  induction 1 as [| ? ? ? ? ? ? ? ? ? ? ? ? IH| | |]; simpl.
  - split_and!; [lia..|done].
  - destruct IH as (? & ? & IH). split_and!; [lia..|].
    intros s ->. destruct (IH s eq_refl). split; lia.
  - split_and!; [lia..|done].
  - split_and!; [lia..|done].
  - split_and!; [lia..|done].
Qed.

(** The first request starts where the loop starts. *)
Lemma layout_first p dev start sizes ev out s e :
  layout_run p dev start sizes ev out ->
  requests ev !! 0%nat = Some (s, e) -> s = wrap64 start.
Proof. destruct 1; simpl; intros [= <- <-]; reflexivity. Qed.

(** Every later request starts at the committed end of the last partition
    of the enumeration before it. *)
Lemma layout_chain p dev start sizes ev out :
  layout_run p dev start sizes ev out ->
  forall (i : nat) s' e' parts err part,
    requests ev !! S i = Some (s', e') ->
    enumerations ev !! i = Some (parts, err) ->
    last parts = Some part ->
    s' = wrap64 (committed_end part).
Proof.
  induction 1 as [| ? ? ? ? r2 part0 ? ? ? ? Hlast Hrun IH| | |]; simpl;
    intros i s' e' parts err part Hreq Henum Hpart; try done.
  destruct i as [|i]; cbn in Hreq, Henum.
  - injection Henum as <- <-. rewrite Hlast in Hpart. injection Hpart as ->.
    rewrite (layout_first _ _ _ _ _ _ _ _ Hrun Hreq).
    by rewrite wrap64_idemp.
  - by eapply IH.
Qed.

(** An enumeration in the loop that is empty, without error: the loop
    crashed. *)
Lemma layout_empty_enumeration p dev start sizes ev out (i : nat) :
  layout_run p dev start sizes ev out ->
  enumerations ev !! i = Some ([], None) -> out = Crashed.
Proof.
  intros Hrun. revert i.
  induction Hrun as [| ? ? ? ? r2 part0 ? ? ? ? Hlast Hrun IH| | |]; simpl;
    intros i Henum; try done.
  - destruct i as [|i]; cbn in Henum; [|by eapply IH].
    injection Henum as Hnil _. by rewrite Hnil in Hlast.
  - destruct i as [|i]; cbn in Henum; [|done]. congruence.
Qed.

Lemma wrap64_extent start size :
  wrap64 (wrap64 (wrap64 (start + size)) - wrap64 start) = wrap64 size.
Proof.
  unfold wrap64. rewrite Z.mod_mod by lia.
  rewrite Zminus_mod_idemp_l, Zminus_mod_idemp_r. f_equal. lia.
Qed.

(** The extents requested have the sizes of the loop, in order. *)
Lemma layout_extents p dev start sizes ev out :
  layout_run p dev start sizes ev out ->
  map (fun '(s, e) => wrap64 (e - s)) (requests ev) =
  map wrap64 (take (length (requests ev)) sizes).
Proof.
  induction 1 as [| ? ? ? ? ? ? ? ? ? ? ? ? IH| | |]; simpl;
    unfold ToBytes; rewrite ?wrap64_extent; try done.
  by rewrite IH.
Qed.

(** ** The population loop *)

Lemma copy_copies folders parts i ev out :
  copy_run folders parts i ev out ->
  copies ev `prefix_of` zip folders (drop i parts) /\
  (out = Completed tt ->
     copies ev = zip folders (drop i parts) /\
     (length folders <= length parts - i)%nat) /\
  ((length parts - i < length folders)%nat -> out = Crashed).
Proof.
  induction 1 as [| folder folders parts i part ev1 ev out Hp Hev1 Hrun IH
                  | folder folders parts i Hp]; simpl.
  - split_and!; [apply prefix_nil| |lia]. intros _. split; [done|lia].
  - destruct (population_quiet _ Hev1) as (_ & _ & _ & Hc & _).
    rewrite copies_app, Hc. cbn [app].
    rewrite (drop_S _ _ _ Hp). cbn [zip zip_with length].
    apply lookup_lt_Some in Hp.
    destruct IH as (Hpre & Hdone & Hcrash). split_and!.
    + by apply prefix_cons.
    + intros Hout. destruct (Hdone Hout) as [-> ?]. split; [done|lia].
    + intros Hlen. apply Hcrash. lia.
  - split_and!; [apply prefix_nil|done|done].
Qed.

(** ** The sizing loops *)

Lemma sum_sizes_cons x l : sum_sizes (x :: l) = x + sum_sizes l.
Proof. reflexivity. Qed.

Lemma volume_sizes_nonneg vs dirs :
  Forall (fun v => 0 <= types.Size v) vs -> Forall (fun d => 0 <= d) dirs ->
  0 <= sum_sizes (volume_sizes vs dirs).
Proof.
  intros Hvs. revert dirs.
  induction Hvs as [|v vs Hv Hvs IH]; intros dirs Hdirs; simpl; [done|].
  case_decide.
  - destruct Hdirs as [|d ds Hd Hds]; simpl; [done|].
    specialize (IH _ Hds). lia.
  - specialize (IH _ Hdirs). simpl. lia.
Qed.

Lemma measured_ok dir rep ev :
  rerr rep = None ->
  measured (EvHost (CGetDirSize dir) rep :: ev) = (dir, int64 (rnum rep)) :: measured ev.
Proof. intros Hok. unfold measured. simpl. unfold succeeded. by rewrite Hok. Qed.

Lemma measured_failed dir rep e :
  rerr rep = Some e -> measured [EvHost (CGetDirSize dir) rep] = [].
Proof. intros Hok. unfold measured. simpl. unfold succeeded. by rewrite Hok. Qed.

Lemma sizing_length vs sizes0 total0 ev out sizes total :
  sizing_run vs sizes0 total0 ev out -> out = Completed (sizes, total) ->
  length sizes = (length sizes0 + length vs)%nat.
Proof.
  induction 1 as [| ? ? ? ? ? ? ? ? ? ? IH| |? ? ? ? ? ? ? ? IH]; intros Hout;
    try done.
  - injection Hout as <- <-. simpl. lia.
  - rewrite (IH Hout), length_app. simpl. lia.
  - rewrite (IH Hout), length_app. simpl. lia.
Qed.

Lemma sizing_exact vs sizes0 total0 ev out sizes total :
  sizing_run vs sizes0 total0 ev out -> out = Completed (sizes, total) ->
  Forall (fun v => 0 <= types.Size v) vs ->
  Forall (fun d => 0 <= d) (measured ev).*2 ->
  0 <= total0 ->
  total0 + sum_sizes (volume_sizes vs (measured ev).*2) < 2 ^ 64 ->
  sizes = sizes0 ++ volume_sizes vs (measured ev).*2 /\
  total = total0 + sum_sizes (volume_sizes vs (measured ev).*2) /\
  0 <= total.
Proof.
  assert (2 ^ 64 = 18446744073709551616) as E64 by reflexivity.
  induction 1 as [| v vs sizes0 total0 rep ev out Hsz Hok Hrun IH
                  | | v vs sizes0 total0 ev out Hsz Hrun IH];
    intros Hout Hvs Hdirs Htotal Hbound; try done.
  - injection Hout as <- <-. simpl. rewrite app_nil_r. split_and!; [done|lia|lia].
  - rewrite measured_ok in * by done. rewrite fmap_cons in *.
    cbn [snd volume_sizes] in *. case_decide; [|done].
    rewrite sum_sizes_cons in *.
    apply Forall_cons in Hvs as [_ Hvs]. apply Forall_cons in Hdirs as [Hd Hdirs].
    pose proof (volume_sizes_nonneg _ _ Hvs Hdirs) as Hsum.
    rewrite MB2_value in *.
    assert (wrap64 (int64 (rnum rep)) = int64 (rnum rep)) as E1
      by (apply wrap64_small; lia).
    rewrite E1 in *.
    assert (wrap64 (int64 (rnum rep) + 2097152) = int64 (rnum rep) + 2097152) as E2
      by (apply wrap64_small; lia).
    rewrite E2 in *.
    assert (wrap64 (total0 + (int64 (rnum rep) + 2097152))
            = total0 + (int64 (rnum rep) + 2097152)) as E3
      by (apply wrap64_small; lia).
    rewrite E3 in *.
    destruct (IH Hout Hvs Hdirs) as (-> & -> & ?); [lia|lia|].
    rewrite <- app_assoc. cbn [app]. split_and!; [done|lia|lia].
  - cbn [volume_sizes] in *. case_decide; [done|].
    rewrite sum_sizes_cons in *.
    apply Forall_cons in Hvs as [Hv Hvs].
    pose proof (volume_sizes_nonneg _ _ Hvs Hdirs) as Hsum.
    assert (wrap64 (types.Size v) = types.Size v) as E1
      by (apply wrap64_small; lia).
    rewrite E1 in *.
    assert (wrap64 (total0 + types.Size v) = total0 + types.Size v) as E3
      by (apply wrap64_small; lia).
    rewrite E3 in *.
    destruct (IH Hout Hvs Hdirs) as (-> & -> & ?); [lia|lia|].
    rewrite <- app_assoc. cbn [app]. split_and!; [done|lia|lia].
Qed.

Lemma sizing_map_keys volumes ks sizes0 ordered0 total0 ev out sizes ordered total :
  sizing_map_run volumes ks sizes0 ordered0 total0 ev out ->
  out = Completed (sizes, ordered, total) ->
  ordered = ordered0 ++ ks /\
  (measured ev).*1 = map (fun k => types.Path (map_index types.zero volumes k)) ks.
Proof.
  induction 1 as [| k ks sizes0 ordered0 total0 rep ev out Hok Hrun IH|];
    intros Hout; try done.
  - injection Hout as <- <- <-. by rewrite app_nil_r.
  - rewrite measured_ok by done. rewrite fmap_cons. cbn [fst map].
    destruct (IH Hout) as [-> ->]. by rewrite <- app_assoc.
Qed.

(** With distinct keys, the size kept for a key is the size computed at
    its turn. *)
Lemma sizing_map_lookup volumes ks sizes0 ordered0 total0 ev out sizes ordered total :
  sizing_map_run volumes ks sizes0 ordered0 total0 ev out ->
  out = Completed (sizes, ordered, total) ->
  NoDup ks ->
  map (map_index 0 sizes) ks =
    map (fun d => wrap64 (wrap64 d + MB2)) (measured ev).*2 /\
  forall k, k ∉ ks -> map_index 0 sizes k = map_index 0 sizes0 k.
Proof.
  induction 1 as [| k ks sizes0 ordered0 total0 rep ev out Hok Hrun IH|];
    intros Hout Hnd; try done.
  - injection Hout as <- <- <-. done.
  - apply NoDup_cons in Hnd as [Hk Hnd].
    destruct (IH Hout Hnd) as [Hmap Hother].
    rewrite measured_ok by done. rewrite fmap_cons. split.
    + simpl. f_equal; [|exact Hmap]. rewrite (Hother _ Hk). apply map_index_insert.
    + intros k' [Hne Hk']%not_elem_of_cons. rewrite (Hother _ Hk').
      unfold map_index. by rewrite lookup_insert_ne.
Qed.

Lemma sizing_map_exact volumes ks sizes0 ordered0 total0 ev out sizes ordered total :
  sizing_map_run volumes ks sizes0 ordered0 total0 ev out ->
  out = Completed (sizes, ordered, total) ->
  Forall (fun d => 0 <= d) (measured ev).*2 ->
  0 <= total0 ->
  total0 + sum_sizes (map (fun d => d + 2097152) (measured ev).*2) < 2 ^ 64 ->
  total = total0 + sum_sizes (map (fun d => d + 2097152) (measured ev).*2) /\
  0 <= total.
Proof.
  assert (2 ^ 64 = 18446744073709551616) as E64 by reflexivity.
  induction 1 as [| k ks sizes0 ordered0 total0 rep ev out Hok Hrun IH|];
    intros Hout Hdirs Htotal Hbound; try done.
  - injection Hout as <- <- <-. simpl. split; lia.
  - rewrite measured_ok in * by done. rewrite fmap_cons in *.
    cbn [snd map] in *. rewrite sum_sizes_cons in *.
    apply Forall_cons in Hdirs as [Hd Hdirs].
    assert (0 <= sum_sizes (map (fun d => d + 2097152) (measured ev).*2)) as Hsum.
    { clear -Hdirs. induction Hdirs as [|d ds Hd Hds IH]; simpl; [done|].
      fold (sum_sizes (map (fun d => d + 2097152) ds)). lia. }
    rewrite MB2_value in *.
    assert (wrap64 (int64 (rnum rep)) = int64 (rnum rep)) as E1
      by (apply wrap64_small; lia).
    rewrite E1 in *.
    assert (wrap64 (int64 (rnum rep) + 2097152) = int64 (rnum rep) + 2097152) as E2
      by (apply wrap64_small; lia).
    rewrite E2 in *.
    assert (wrap64 (total0 + (int64 (rnum rep) + 2097152))
            = total0 + (int64 (rnum rep) + 2097152)) as E3
      by (apply wrap64_small; lia).
    rewrite E3 in *.
    destruct (IH Hout Hdirs) as (-> & ?); [lia|lia|]. split; lia.
Qed.

(** ** Views of an assembly *)

(** The layout inside an assembly: no layout at all, or the layout loop
    followed by the final enumeration when the loop completed. *)
Lemma assembly_layout imgFile mkp sizes total folders check out eva :
  assembly_run imgFile mkp sizes total folders check out eva ->
  (requests eva = [] /\ enumerations eva = [] /\ copies eva = [] /\
   exists e, out = Failed e) \/
  (exists p dev evl outl fin,
     layout_run p dev MB2 sizes evl outl /\
     requests eva = requests evl /\
     enumerations eva = enumerations evl ++ fin /\
     ((fin = [] /\ copies eva = [] /\
       match outl with
       | Completed _ => False
       | Failed e => out = Failed e
       | Crashed => out = Crashed
       end) \/
      (exists s rl,
         outl = Completed s /\ fin = [(rparts rl, rerr rl)] /\
         ((check = true /\ length (rparts rl) <> length folders /\
           copies eva = [] /\ out = Failed "Not enough parts created!") \/
          (exists evc,
             (check = true -> length (rparts rl) = length folders) /\
             copy_run folders (rparts rl) 0 evc out /\
             copies eva = copies evc))))).
Proof.
  destruct 1 as [evf e Hf | evf rep e Hf Hrep | evf rep rt evl e rrel Hf Hrep Hl
                 | evf rep rt evl rrel Hf Hrep Hl
                 | evf rep rt evl start rl rrel Hf Hrep Hl Hcheck Hlen
                 | evf rep rt evl start rl evc out rrel Hf Hrep Hl Hcheck Hc Hout];
    destruct (file_events_quiet _ Hf) as (Hq1 & Hq2 & Hq3 & Hq4 & Hq5 & Hq6);
    try destruct (layout_quiet _ _ _ _ _ _ Hl) as (Hl1 & Hl2 & Hl3 & Hl4).
  - left. project. rewrite Hq1, Hq2, Hq4. eauto.
  - left. project. rewrite Hq1, Hq2, Hq4. eauto.
  - right. eexists _, _, evl, _, []. split; [exact Hl|]. project.
    rewrite Hq1, Hq2, Hq4, Hl2, !app_nil_r. split_and!; [done..|]. left. done.
  - right. eexists _, _, evl, _, []. split; [exact Hl|]. project.
    rewrite Hq1, Hq2, Hq4, Hl2, !app_nil_r. split_and!; [done..|]. left. done.
  - right. eexists _, _, evl, _, [(rparts rl, rerr rl)]. split; [exact Hl|]. project.
    rewrite Hq1, Hq2, Hq4, Hl2. simpl. rewrite ?app_nil_r. split_and!; [done..|]. right.
    eexists _, rl. split_and!; [done..|]. left. done.
  - right. eexists _, _, evl, _, [(rparts rl, rerr rl)]. split; [exact Hl|].
    destruct (copy_quiet _ _ _ _ _ Hc) as (Hc1 & Hc2 & _). project.
    rewrite Hq1, Hq2, Hq4, Hl2, Hc1, Hc2. simpl. rewrite ?app_nil_r.
    split_and!; [done..|]. right.
    eexists _, rl. split_and!; [done..|]. right. eexists. split_and!; done.
Qed.

Lemma fn_post_elim {W R} (f : Fn W R) (w : W) P :
  fn_post f w P -> P (outcome_of (f w)) (trace_of (f w)) (f w).2.
Proof. unfold fn_post, outcome_of, trace_of. by destruct (f w) as [[r ev] w']. Qed.

Lemma ToBytes_range s : 0 <= ToBytes s < 2 ^ 64.
Proof. destruct s; apply wrap64_range. Qed.

Lemma reflecting_lookup n table enums (i : nat) :
  reflecting n table enums -> (i < n)%nat ->
  enums !! i = Some (take (S i) table, None).
Proof.
  intros [Hlen ->] Hi. rewrite lookup_app_l by (rewrite length_map, length_seq; lia).
  rewrite list_lookup_fmap, lookup_seq_lt by lia. done.
Qed.

Lemma reflecting_length n table enums :
  reflecting n table enums -> length enums = S n.
Proof. intros [_ ->]. rewrite length_app, length_map, length_seq. simpl. lia. Qed.

Lemma last_take_lookup {A} (l : list A) (i : nat) x :
  l !! i = Some x -> last (take (S i) l) = Some x.
Proof.
  intros Hl. rewrite last_lookup, length_take.
  apply lookup_lt_Some in Hl as Hlt.
  replace (Nat.pred (S i `min` length l)) with i by lia.
  by rewrite lookup_take_lt by lia.
Qed.

Lemma assembly_chained imgFile mkp sizes total folders check out eva table :
  assembly_run imgFile mkp sizes total folders check out eva ->
  reflecting (length sizes) table (enumerations eva) ->
  (forall (i : nat) p, table !! i = Some p -> committed_end p < 2 ^ 64) ->
  (forall s e, requests eva !! 0%nat = Some (s, e) -> s = 2097152) /\
  starts_follow (requests eva) table /\
  ((forall (i : nat) s e p,
      requests eva !! i = Some (s, e) -> table !! i = Some p ->
      s <= ToBytes (Offset p)) ->
   non_overlapping table).
Proof.
  intros Hrun Hrefl Hfit.
  pose proof (reflecting_length _ _ _ Hrefl) as Hlen.
  destruct (assembly_layout _ _ _ _ _ _ _ _ Hrun)
    as [(_ & Hnone & _)|(p & dev & evl & outl & fin & Hl & Hreq & Henum & Hfin)].
  { rewrite Hnone in Hlen. done. }
  destruct (layout_lengths _ _ _ _ _ _ Hl) as (Hl1 & Hl2 & Hl3).
  rewrite Henum, length_app in Hlen.
  assert (exists s, outl = Completed s) as [s ->].
  { destruct Hfin as [(-> & _)|(s & rl & -> & _)]; [|by eexists].
    simpl in Hlen. lia. }
  destruct (Hl3 s eq_refl) as [Hl4 Hl5].
  assert (forall (i : nat) s' e' q,
            requests eva !! S i = Some (s', e') -> table !! i = Some q ->
            s' = committed_end q) as Hfollow.
  { intros i s' e' q Hr Hq. rewrite Hreq in Hr.
    assert (S i < length sizes)%nat as Hi
      by (apply lookup_lt_Some in Hr; lia).
    pose proof (reflecting_lookup _ _ _ i Hrefl ltac:(lia)) as Hei.
    rewrite Henum, lookup_app_l in Hei by lia.
    rewrite (layout_chain _ _ _ _ _ _ Hl _ _ _ _ _ _ Hr Hei (last_take_lookup _ _ _ Hq)).
    apply wrap64_small. specialize (Hfit _ _ Hq).
    pose proof (ToBytes_range (Offset q)). pose proof (ToBytes_range (Size q)).
    unfold committed_end in *. lia. }
  split_and!.
  - intros s' e' Hr. rewrite Hreq in Hr.
    by rewrite (layout_first _ _ _ _ _ _ _ _ Hl Hr).
  - exact Hfollow.
  - intros Hbackend i q1 q2 Hq1 Hq2.
    assert (S i < length sizes)%nat as Hi.
    { apply lookup_lt_Some in Hq2. destruct Hrefl as [<- _]. done. }
    destruct (lookup_lt_is_Some_2 (requests eva) (S i)) as [[s' e'] Hr];
      [rewrite Hreq; lia|].
    rewrite <- (Hfollow _ _ _ _ Hr Hq1). by eapply Hbackend.
Qed.

(** ** The order of a range *)

Section Ranges.
Context {W : Type} {H : Host W}.

Lemma range_order_length (m : gmap string types.RawVolume) (w : W) :
  length (range_order m w) = size m.
Proof.
  rewrite (Permutation_length (range_order_perm m w)).
  by rewrite length_fmap, length_map_to_list.
Qed.

Lemma range_order_NoDup (m : gmap string types.RawVolume) (w : W) :
  NoDup (range_order m w).
Proof. rewrite (range_order_perm m w). apply NoDup_fst_map_to_list. Qed.

End Ranges.

(** ** Where an assembly crashes *)

(** An enumeration of the layout loop that lists nothing, without error. *)
Lemma assembly_empty_enumeration imgFile mkp sizes total folders check out eva (i : nat) :
  assembly_run imgFile mkp sizes total folders check out eva ->
  (i < length sizes)%nat ->
  enumerations eva !! i = Some ([], None) -> out = Crashed.
Proof.
  intros Hrun Hi Hempty.
  destruct (assembly_layout _ _ _ _ _ _ _ _ Hrun)
    as [(_ & Hnone & _)|(p & dev & evl & outl & fin & Hl & Hreq & Henum & Hfin)].
  { by rewrite Hnone in Hempty. }
  destruct (layout_lengths _ _ _ _ _ _ Hl) as (Hl1 & Hl2 & Hl3).
  rewrite Henum in Hempty.
  destruct Hfin as [(-> & _ & Hout)|(s & rl & -> & -> & _)].
  - rewrite app_nil_r in Hempty.
    rewrite (layout_empty_enumeration _ _ _ _ _ _ _ Hl Hempty) in Hout. done.
  - destruct (Hl3 s eq_refl) as [_ Hlen].
    rewrite lookup_app_l in Hempty by lia.
    by pose proof (layout_empty_enumeration _ _ _ _ _ _ _ Hl Hempty).
Qed.

(** A final enumeration that lists fewer partitions than there are
    folders, when the number of partitions is not checked. *)
Lemma assembly_short_enumeration imgFile mkp sizes total folders out eva parts err :
  assembly_run imgFile mkp sizes total folders false out eva ->
  enumerations eva !! length sizes = Some (parts, err) ->
  (length parts < length folders)%nat -> out = Crashed.
Proof.
  intros Hrun Hfinal Hshort.
  destruct (assembly_layout _ _ _ _ _ _ _ _ Hrun)
    as [(_ & Hnone & _)|(p & dev & evl & outl & fin & Hl & Hreq & Henum & Hfin)].
  { by rewrite Hnone in Hfinal. }
  destruct (layout_lengths _ _ _ _ _ _ Hl) as (Hl1 & Hl2 & Hl3).
  rewrite Henum in Hfinal.
  destruct Hfin as [(-> & _ & Hout)|(s & rl & -> & -> & Hcopy)].
  - rewrite app_nil_r in Hfinal. apply lookup_lt_Some in Hfinal. lia.
  - destruct (Hl3 s eq_refl) as [_ Hlen].
    rewrite lookup_app_r, Hlen, Nat.sub_diag in Hfinal by lia.
    injection Hfinal as <- <-.
    destruct Hcopy as [(? & _)|(evc & _ & Hc & _)]; [done|].
    destruct (copy_copies _ _ _ _ _ Hc) as (_ & _ & Hcrash).
    apply Hcrash. lia.
Qed.

(** When the number of partitions is checked, a final enumeration of
    another length ends the assembly before any population. *)
Lemma assembly_count_checked imgFile mkp sizes total folders out eva parts err :
  assembly_run imgFile mkp sizes total folders true out eva ->
  enumerations eva !! length sizes = Some (parts, err) ->
  length parts <> length folders ->
  out = Failed "Not enough parts created!" /\ copies eva = [].
Proof.
  intros Hrun Hfinal Hcount.
  destruct (assembly_layout _ _ _ _ _ _ _ _ Hrun)
    as [(_ & Hnone & _)|(p & dev & evl & outl & fin & Hl & Hreq & Henum & Hfin)].
  { by rewrite Hnone in Hfinal. }
  destruct (layout_lengths _ _ _ _ _ _ Hl) as (Hl1 & Hl2 & Hl3).
  rewrite Henum in Hfinal.
  destruct Hfin as [(-> & _ & Hout)|(s & rl & -> & -> & Hcopy)].
  - rewrite app_nil_r in Hfinal. apply lookup_lt_Some in Hfinal. lia.
  - destruct (Hl3 s eq_refl) as [_ Hlen].
    rewrite lookup_app_r, Hlen, Nat.sub_diag in Hfinal by lia.
    injection Hfinal as <- <-.
    destruct Hcopy as [(_ & _ & Hc & Hout)|(evc & Hsame & _)]; [done|].
    by specialize (Hsame eq_refl).
Qed.

(** ** The file, the extents and the copies of an assembly *)

(** The one file of an assembly; nothing is measured and no map is
    ranged over after the sizing. *)
Lemma assembly_quiet imgFile mkp sizes total folders check out eva :
  assembly_run imgFile mkp sizes total folders check out eva ->
  sparse_files eva = [(imgFile, Bytes (image_size total))] /\
  measured eva = [] /\ ranges eva = [].
Proof.
  destruct 1 as [evf e Hf | evf rep e Hf Hrep | evf rep rt evl e rrel Hf Hrep Hl
                 | evf rep rt evl rrel Hf Hrep Hl
                 | evf rep rt evl start rl rrel Hf Hrep Hl Hcheck Hlen
                 | evf rep rt evl start rl evc out rrel Hf Hrep Hl Hcheck Hc Hout];
    destruct (file_events_quiet _ Hf) as (_ & _ & Hq3 & _ & Hq5 & Hq6);
    try destruct (layout_quiet _ _ _ _ _ _ Hl) as (Hl1 & _ & Hl3 & Hl4);
    try destruct (copy_quiet _ _ _ _ _ Hc) as (_ & _ & Hc3 & Hc4 & Hc5);
    project; rewrite ?Hq3, ?Hq5, ?Hq6, ?Hl1, ?Hl3, ?Hl4, ?Hc3, ?Hc4, ?Hc5; done.
Qed.

(** The extents requested in an assembly have the sizes of the layout,
    in order. *)
Lemma assembly_extents imgFile mkp sizes total folders check out eva :
  assembly_run imgFile mkp sizes total folders check out eva ->
  map (fun '(s, e) => wrap64 (e - s)) (requests eva) `prefix_of` map wrap64 sizes /\
  (out = Completed tt -> length (requests eva) = length sizes).
Proof.
  intros Hrun.
  destruct (assembly_layout _ _ _ _ _ _ _ _ Hrun)
    as [(-> & _ & _ & e & ->)|(p & dev & evl & outl & fin & Hl & -> & Henum & Hfin)].
  { split; [apply prefix_nil|done]. }
  rewrite (layout_extents _ _ _ _ _ _ Hl).
  split.
  - change (map wrap64 ?l) with (wrap64 <$> l). rewrite fmap_take. apply prefix_take.
  - intros ->. destruct (layout_lengths _ _ _ _ _ _ Hl) as (_ & _ & Hl3).
    destruct Hfin as [(_ & _ & Hout)|(s & rl & -> & _)].
    + by destruct outl.
    + by destruct (Hl3 s eq_refl).
Qed.

(** The population of an assembly copies the i-th folder into the i-th
    partition of the final enumeration. *)
Lemma assembly_copies imgFile mkp sizes total folders check out eva :
  assembly_run imgFile mkp sizes total folders check out eva ->
  (copies eva = [] \/
   exists parts err,
     enumerations eva !! length sizes = Some (parts, err) /\
     copies eva `prefix_of` zip folders parts) /\
  (out = Completed tt ->
   exists parts err,
     enumerations eva !! length sizes = Some (parts, err) /\
     copies eva = zip folders parts /\ (length folders <= length parts)%nat).
Proof.
  intros Hrun.
  destruct (assembly_layout _ _ _ _ _ _ _ _ Hrun)
    as [(_ & _ & -> & e & ->)|(p & dev & evl & outl & fin & Hl & _ & Henum & Hfin)].
  { split; [by left|done]. }
  destruct (layout_lengths _ _ _ _ _ _ Hl) as (_ & _ & Hl3).
  destruct Hfin as [(_ & -> & Hout)|(s & rl & -> & -> & Hcopy)].
  { split; [by left|]. intros ->. by destruct outl. }
  destruct (Hl3 s eq_refl) as [_ Hlen].
  assert (enumerations eva !! length sizes = Some (rparts rl, rerr rl)) as Hfinal.
  { by rewrite Henum, lookup_app_r, Hlen, Nat.sub_diag by lia. }
  destruct Hcopy as [(_ & _ & -> & ->)|(evc & _ & Hc & ->)]; [split; [by left|done]|].
  destruct (copy_copies _ _ _ _ _ Hc) as (Hpre & Hdone & _).
  rewrite drop_0 in *. split.
  - right. by exists (rparts rl), (rerr rl).
  - intros ->. destruct (Hdone eq_refl). exists (rparts rl), (rerr rl).
    split_and!; [done|done|lia].
Qed.

(** ** What the sizing loops measure *)

(** The directories are measured in the order of the keys. *)
Lemma sizing_map_measures volumes ks sizes ordered total ev out :
  sizing_map_run volumes ks sizes ordered total ev out ->
  (measured ev).*1
    `prefix_of` map (fun k => types.Path (map_index types.zero volumes k)) ks.
Proof.
  induction 1 as [| k ks sizes0 ordered0 total0 rep ev out Hok Hrun IH
                  | k ks sizes0 ordered0 total0 rep e Hfail].
  - apply prefix_nil.
  - rewrite measured_ok by done. rewrite fmap_cons. cbn [fst map].
    by apply prefix_cons.
  - rewrite (measured_failed _ _ _ Hfail). apply prefix_nil.
Qed.

(** The directories measured by the sizing loop of [CreateVolumes] are
    those of the volumes without an explicit size, in order. *)
Lemma sizing_measures vs sizes total ev out :
  sizing_run vs sizes total ev out ->
  (measured ev).*1
    `prefix_of` map types.Path (filter (fun v => types.Size v = 0) vs).
Proof.
  induction 1 as [| v vs sizes0 total0 rep ev out Hsz Hok Hrun IH
                  | v vs sizes0 total0 rep e Hsz Hfail
                  | v vs sizes0 total0 ev out Hsz Hrun IH].
  - apply prefix_nil.
  - rewrite measured_ok by done. rewrite fmap_cons, filter_cons_True by done.
    cbn [fst map]. by apply prefix_cons.
  - rewrite (measured_failed _ _ _ Hfail). apply prefix_nil.
  - by rewrite filter_cons_False.
Qed.

(** ** The sparse files of the entry points *)

Section ImageFile.
Context {W : Type} {H : Host W}.

(** The sparse file of [CreateVolumes]: none when the sizing failed, or
    one, of the image size for the total of the volume sizes. *)
Lemma CreateVolumes_sparse_file (w : W) imgFile volumes newPartitioner :
  let tr := trace_of (CreateVolumes imgFile volumes newPartitioner w) in
  (measured tr).*1
    `prefix_of` map types.Path (filter (fun v => types.Size v = 0) volumes) /\
  (sparse_files tr = [] \/
   exists total,
     sparse_files tr = [(imgFile, Bytes (image_size total))] /\
     (Forall (fun v => 0 <= types.Size v) volumes ->
      Forall (fun d => 0 <= d) (measured tr).*2 ->
      sum_sizes (volume_sizes volumes (measured tr).*2) < 2 ^ 64 ->
      total = sum_sizes (volume_sizes volumes (measured tr).*2) /\ 0 <= total)).
Proof.
  intros tr. subst tr.
  pose proof (fn_post_elim _ _ _ (CreateVolumes_runs imgFile volumes newPartitioner w))
    as [(e & Hsz & _)|(ev & sizes & total & out & eva & Hsz & Hrun & -> & _)].
  { destruct (sizing_quiet _ _ _ _ _ Hsz) as (_ & _ & Hq & _).
    split; [by eapply sizing_measures|by left]. }
  destruct (sizing_quiet _ _ _ _ _ Hsz) as (_ & _ & Hq & _).
  destruct (assembly_quiet _ _ _ _ _ _ _ _ Hrun) as (Hfile & Hm & _).
  rewrite sparse_files_app, measured_app, Hq, Hfile, Hm, app_nil_r. cbn [app].
  split; [by eapply sizing_measures|].
  right. exists total. split; [done|]. intros Hvs Hdirs Hbound.
  destruct (sizing_exact _ _ _ _ _ _ _ Hsz eq_refl Hvs Hdirs) as (_ & -> & ?);
    [done|lia|]. split; lia.
Qed.

(** The sparse file of [CreatePartitionedVolumes]: every directory is
    measured, whatever the explicit size of the volume. *)
Lemma CreatePartitionedVolumes_sparse_file (w : W) imgFile
    (volumes : gmap string types.RawVolume) :
  let tr := trace_of (CreatePartitionedVolumes imgFile volumes w) in
  (measured tr).*1
    `prefix_of` map (fun k => types.Path (map_index types.zero volumes k))
                  (range_order volumes w) /\
  (sparse_files tr = [] \/
   exists total,
     sparse_files tr = [(imgFile, Bytes (image_size total))] /\
     (measured tr).*1
       = map (fun k => types.Path (map_index types.zero volumes k))
           (range_order volumes w) /\
     (Forall (fun d => 0 <= d) (measured tr).*2 ->
      sum_sizes (map (fun d => d + 2097152) (measured tr).*2) < 2 ^ 64 ->
      total = sum_sizes (map (fun d => d + 2097152) (measured tr).*2) /\
      0 <= total)).
Proof.
  intros tr. subst tr.
  pose proof (fn_post_elim _ _ _ (CreatePartitionedVolumes_runs imgFile volumes w))
    as [(ev & e & Hsz & -> & _)
       |(ev & sizes & ordered & total & out & eva & Hsz & Hrun & -> & _)].
  { destruct (sizing_map_quiet _ _ _ _ _ _ _ Hsz) as (_ & _ & Hq & _).
    change (sparse_files (EvRange ?k :: ?l)) with (sparse_files l).
    change (measured (EvRange ?k :: ?l)) with (measured l). rewrite Hq.
    split; [by eapply sizing_map_measures|by left]. }
  destruct (sizing_map_quiet _ _ _ _ _ _ _ Hsz) as (_ & _ & Hq & _).
  destruct (assembly_quiet _ _ _ _ _ _ _ _ Hrun) as (Hfile & Hm & _).
  destruct (sizing_map_keys _ _ _ _ _ _ _ _ _ _ Hsz eq_refl) as [_ Hpaths].
  change (sparse_files (EvRange ?k :: ?l)) with (sparse_files l).
  change (measured (EvRange ?k :: ?l)) with (measured l).
  rewrite sparse_files_app, measured_app, Hq, Hfile, Hm, app_nil_r. cbn [app].
  split; [by eapply sizing_map_measures|].
  right. exists total. split_and!; [done|done|]. intros Hdirs Hbound.
  destruct (sizing_map_exact _ _ _ _ _ _ _ _ _ _ Hsz eq_refl Hdirs) as (-> & ?);
    [done|lia|]. split; lia.
Qed.
End ImageFile.

Section Allocation.
Context {W : Type} {H : Host W}.

(** [CreateBootImageOnFile] creates no file, and refuses a size that is
    not a whole number of sectors before any call to the host. *)
Lemma CreateBootImageOnFile_no_file rootFile sizeOfFile progPath commandline (w : W) :
  fn_post (CreateBootImageOnFile rootFile sizeOfFile progPath commandline) w
    (fun r tr _ =>
       sparse_files tr = [] /\
       (ToBytes sizeOfFile mod 512 <> 0 ->
        r = Done (Some "UnrepresentableSize"%string) /\ tr = [])).
Proof.
  unfold CreateBootImageOnFile, ToSectors.
  case_decide as Hsize.
  2: { wp_go. done. }
  wp_go.
  all: try solve [cbv beta; observe; split; [reflexivity|intros; done]].
  split_parts; wp_go.
  all: cbv beta; observe; split; [reflexivity|intros; done].
Qed.

(** The file of [CreateBootImageWithSize] has the size the caller gave. *)
Lemma CreateBootImageWithSize_file rootFile progPath commandline size (w : W) :
  fn_post (CreateBootImageWithSize rootFile progPath commandline size) w
    (fun r tr _ =>
       sparse_files tr = [(rootFile, size)] /\
       (ToBytes size mod 512 <> 0 -> exists e, r = Done (Some e))).
Proof.
  unfold CreateBootImageWithSize. wp_run.
  apply wp_invoke, fn_createSparseFile. intros r evf ? Hevf. wp_run.
  { destruct (file_events_quiet _ Hevf) as (_ & _ & Hq & _).
    rewrite !app_nil_r. change (sparse_files (?e :: evf)) with ((rootFile, size) :: sparse_files evf).
    rewrite Hq. split; [done|]. by eexists. }
  apply wp_invoke.
  eapply fn_post_mono; [apply CreateBootImageOnFile_no_file|].
  intros r' ev ? [Hnone Hguard].
  destruct (file_events_quiet _ Hevf) as (_ & _ & Hq & _).
  assert (sparse_files ((EvEnter (FcreateSparseFile rootFile size) :: evf) ++ ev)
          = [(rootFile, size)]) as Hfile.
  { rewrite sparse_files_app, Hnone, app_nil_r.
    change (sparse_files (?e :: evf)) with ((rootFile, size) :: sparse_files evf).
    by rewrite Hq. }
  destruct r' as [err|msg]; wp_run; cbv beta; rewrite ?app_nil_r.
  - split; [exact Hfile|]. intros Hsize. destruct (Hguard Hsize) as [[= ->] _].
    by eexists.
  - split; [exact Hfile|]. intros Hsize. by destruct (Hguard Hsize).
Qed.

Lemma single_volume_size_aligned d : ToBytes (Bytes (single_volume_size d)) mod 512 = 0.
Proof.
  unfold ToBytes, single_volume_size. rewrite wrap64_sector, and_not_sector.
  by rewrite Z.mul_comm, Z.mod_mul.
Qed.

Lemma single_volume_size_exact d :
  0 <= d -> d + d / 10 + 2097152 + 512 < 2 ^ 63 ->
  ToBytes (Bytes (single_volume_size d)) = 512 * ((d + d / 10 + 2097152) / 512 + 1).
Proof.
  intros Hd Hbound. unfold ToBytes, single_volume_size.
  assert (2 ^ 63 = 9223372036854775808) as E63 by reflexivity.
  assert (2 ^ 64 = 18446744073709551616) as E64 by reflexivity.
  rewrite Z.quot_div_nonneg by lia.
  assert (0 <= d / 10) by (apply Z.div_pos; lia).
  fold MB2. rewrite MB2_value. rewrite (int64_small 2097152) by lia.
  unfold SectorSize. rewrite int64_small by lia.
  rewrite and_not_sector.
  replace (512 + d + d / 10 + 2097152) with ((d + d / 10 + 2097152) + 1 * 512) by lia.
  rewrite Z.div_add by lia.
  assert (512 * ((d + d / 10 + 2097152) / 512) <= d + d / 10 + 2097152)
    by (apply Z.mul_div_le; lia).
  assert (0 <= (d + d / 10 + 2097152) / 512) by (apply Z.div_pos; lia).
  apply wrap64_small. lia.
Qed.

(** The file of [CreateSingleVolume]: none, or one of the size computed
    from the one directory measured. *)
Lemma CreateSingleVolume_file rootFile folder (w : W) :
  fn_post (CreateSingleVolume rootFile folder) w
    (fun r tr _ =>
       sparse_files tr = [] \/
       exists d,
         measured tr = [(types.Path folder, d)] /\
         sparse_files tr = [(rootFile, Bytes (single_volume_size d))]).
Proof.
  unfold CreateSingleVolume. wp_wrappers. wp_run.
  { by left. }
  fold (single_volume_size (int64 num)).
  unfold ToSectors. rewrite decide_True by apply single_volume_size_aligned.
  wp_go.
  all: cbv beta; cbn [app]; observe; right; eexists; split; reflexivity.
Qed.
End Allocation.

(** Without overflow the image covers the total, its tenth and the four
    megabytes. *)
Lemma image_size_covers total :
  0 <= total -> total + total / 10 + 512 + 4194304 < 2 ^ 64 ->
  total + total / 10 + 4194304 < ToBytes (Bytes (image_size total)).
Proof.
  intros Hpos Hbound. unfold ToBytes.
  assert (2 ^ 64 = 18446744073709551616) as E64 by reflexivity.
  assert (0 <= total / 10) by (apply Z.div_pos; lia).
  rewrite (image_size_exact _ Hpos Hbound).
  pose proof (Z.mul_succ_div_gt (total + total / 10) 512 ltac:(lia)) as Hgt.
  pose proof (Z.mul_div_le (total + total / 10) 512 ltac:(lia)) as Hle.
  rewrite wrap64_small; lia.
Qed.

(** * The claims *)

Section Grub.
Context {W : Type} {H : Host W}.

(** C7.  Bootloader staging with command line [C] and root device node
    [D] writes, in this order and nothing else: to boot/grub/menu.lst
    and to boot/grub/grub.conf the fixed template (the
    default/fallback/timeout preamble, the line "root (hd0,0)", the line
    "kernel /boot/program.bin C"), and to boot/grub/map the single line
    "(hd0) D".  A staging that stops early has written a prefix of
    these; a staging that reports success has written all three. *)
Theorem PrepareGrub_stages_templates (folder D kernel C : string) (w : W) :
  let grubPath := path_Join [folder; "boot"; "grub"]%string in
  let menu := ("default=0
fallback=1
timeout=1
hiddenmenu

title Unik
root (hd0,0)
kernel /boot/program.bin " +:+ C +:+ "
")%string in
  let staged :=
    [(path_Join [grubPath; "menu.lst"%string], menu);
     (path_Join [grubPath; "grub.conf"%string], menu);
     (path_Join [grubPath; "map"%string], ("(hd0) " +:+ D +:+ "
")%string)] in
  let run := PrepareGrub folder D kernel C w in
  writes (trace_of run) `prefix_of` staged /\
  (outcome_of run = Done None -> writes (trace_of run) = staged).
Proof.
  intros grubPath menu staged run. subst run.
  wp_start. unfold PrepareGrub. wp_go.
  all: wp_end; split; [solve_prefix | first [discriminate | reflexivity]].
Qed.
End Grub.

Ltac shape :=
  first [ exists ""%string, (OtherPart ""); solve_prefix
        | eexists _, (OtherPart ""); solve_prefix
        | eexists _, _; solve_prefix ].

Ltac verdict :=
  eexists; split; [reflexivity|];
  first [ left; reflexivity
        | right; split; [reflexivity|];
          first [left; reflexivity | right; reflexivity] ].

Ltac finish := first [ reflexivity | shape | verdict ].

Section BootImageProperties.
Context {W : Type} {H : Host W}.

(** C5.  In every run of [CreateBootImageOnFile] the trace is the steps
    followed by the cleanup.  No resource is released during the steps;
    the cleanup releases the resources acquired in the reverse of the
    order of acquisition, which is: loop device, mapped root device,
    partition.  The call returns the error of its last step, whatever
    the cleanup calls report; the two errors the function makes itself
    (a size that is no whole number of sectors, no partition listed)
    come after a step without error. *)
Theorem CreateBootImageOnFile_cleanup
    (rootFile : string) (sizeOfFile : DiskSize) (progPath commandline : string)
    (w : W) :
  let run := CreateBootImageOnFile rootFile sizeOfFile progPath commandline w in
  let steps := steps_of (trace_of run) in
  let cleanup := cleanup_of (trace_of run) in
  trace_of run = steps ++ cleanup /\
  forallb is_cleanup cleanup = true /\
  released steps = [] /\
  released cleanup = rev (acquired steps) /\
  (exists lo p, acquired steps `prefix_of`
     [LoDevice rootFile;
      DeviceMapperDevice 0 (fst (ToSectors sizeOfFile)) lo "hda";
      p]) /\
  exists err, outcome_of run = Done err /\
    (err = last_error steps \/
     (last_error steps = None /\
      (err = snd (ToSectors sizeOfFile) \/
       err = Some "No parts created"%string))).
Proof.
  intros run steps cleanup. split; [apply steps_cleanup|].
  subst steps cleanup run.
  wp_start. unfold CreateBootImageOnFile.
  destruct (ToSectors sizeOfFile) as [n [e|]].
  { wp_go. wp_end. split_and!; finish. }
  wp_go.
  all: try solve [wp_end; split_and!; finish].
  split_parts; wp_go.
  all: wp_end; split_and!; finish.
Qed.
End BootImageProperties.

Section BootImagePartitions.
Context {W : Type} {H : Host W}.

(** C6.  In a boot image build that acquired the loop device and, mapped
    on it under the name "hda", the root device: the two resources
    acquired first are the loop device of the file and that mapping; one
    MS-DOS table is made on the mapped device, with one primary
    partition from 2 MB till the end, and no other partition is
    requested; the partitions are enumerated once; an enumeration
    without error that lists nothing ends the build with "No parts
    created"; and when the first partition listed is backed by the
    device mapper, it is acquired under the name "hda1". *)
Theorem CreateBootImageOnFile_partitions
    (rootFile : string) (sizeOfFile : DiskSize) (progPath commandline : string)
    (w : W) (r1 r2 : Resource) (lo root : BlockDevice)
    (rest : list (Resource * BlockDevice)) :
  let run := CreateBootImageOnFile rootFile sizeOfFile progPath commandline w in
  let tr := trace_of run in
  acquisitions tr = (r1, lo) :: (r2, root) :: rest ->
  r1 = LoDevice rootFile /\
  r2 = DeviceMapperDevice 0 (fst (ToSectors sizeOfFile)) lo "hda" /\
  tables tr = [MsDosPartioner root] /\
  till_end_parts tr = [(MsDosPartioner root, "primary"%string, MegaBytes 2)] /\
  requests tr = [] /\
  exists parts perr,
    enumerations tr = [(parts, perr)] /\
    (perr = None -> parts = [] ->
     outcome_of run = Done (Some "No parts created"%string)) /\
    (perr = None -> forall p ps, parts = p :: ps ->
     acquire_attempts tr =
       [r1; r2;
        match part_resource p with
        | DeviceMapperDevice start size origin _ =>
            DeviceMapperDevice start size origin "hda1"
        | r => r
        end]).
Proof.
  intros run tr. subst tr run.
  wp_start. unfold CreateBootImageOnFile.
  destruct (ToSectors sizeOfFile) as [n [e|]].
  { wp_go. wp_end. discriminate. }
  wp_go.
  all: try solve [wp_end; discriminate].
  { wp_end. intros [= <- <- <- <- <-]. split_and!; try reflexivity.
    eexists _, _. split_and!; [reflexivity|(intros; discriminate)..]. }
  split_parts; wp_go.
  all: wp_end; intros Hacq; simplify_eq; split_and!; try reflexivity.
  all: eexists _, _; split_and!; [reflexivity|..];
    try (intros; discriminate); try reflexivity.
  all: intros _ p' ps' [= <- <-]; by destruct p as [[] ? ?].
Qed.
End BootImagePartitions.

Lemma CreateBootImageOnFile_partitions_witness :
  let run := CreateBootImageOnFile (H := Sim.host Scenarios.plain)
               "/tmp/root.img" (MegaBytes 64) "/tmp/program.bin"
               "console=ttyS0" Sim.start_world in
  tables (trace_of run) = [MsDosPartioner "/dev/mapper/hda"] /\
  till_end_parts (trace_of run)
    = [(MsDosPartioner "/dev/mapper/hda", "primary"%string, MegaBytes 2)] /\
  acquire_attempts (trace_of run)
    = [LoDevice "/tmp/root.img";
       DeviceMapperDevice 0 131072 "/dev/loop0" "hda";
       DeviceMapperDevice 4096 126976 "/dev/mapper/hda" "hda1"].
Proof.
  intros run.
  destruct (CreateBootImageOnFile_partitions (H := Sim.host Scenarios.plain)
              "/tmp/root.img" (MegaBytes 64) "/tmp/program.bin" "console=ttyS0"
              Sim.start_world
              (LoDevice "/tmp/root.img") (DeviceMapperDevice 0 131072 "/dev/loop0" "hda")
              "/dev/loop0" "/dev/mapper/hda"
              [(DeviceMapperDevice 4096 126976 "/dev/mapper/hda" "hda1",
                "/dev/mapper/hda1"%string)])
    as (_ & _ & Ht & Hp & _ & parts & perr & Henum & _ & Hfirst).
  { by vm_compute. }
  split_and!; [exact Ht|exact Hp|].
  assert (enumerations (trace_of run)
          = [([mkPart (DeviceMapperDevice 4096 126976 "/dev/mapper/hda" "hda-p1")
                 (MegaBytes 2) (Sectors 126976)], None)]) as Hrun by (by vm_compute).
  fold run in Henum. rewrite Hrun in Henum. injection Henum as <- <-.
  exact (Hfirst eq_refl _ _ eq_refl).
Defined.


(** C1.  [CreateBootImageOnFile] drops the results of [MakeTable],
    [MakePartTillEnd] and [PrepareGrub].  On a host where creating the
    partition table fails, and on a host where copying the kernel into
    the staging folder fails, the step reports its error and the call
    still returns no error; in the second case nothing of the bootloader
    configuration was written. *)
Theorem CreateBootImageOnFile_drops_step_errors :
  let build cfg :=
    CreateBootImageOnFile (H := Sim.host cfg) "/tmp/root.img" (MegaBytes 64)
      "/tmp/program.bin" "console=ttyS0" Sim.start_world in
  (failures (trace_of (build Scenarios.no_table))
     = [(CMakeTable (MsDosPartioner "/dev/mapper/hda"), "failed"%string)] /\
   outcome_of (build Scenarios.no_table) = Done None) /\
  (failures (trace_of (build Scenarios.no_kernel))
     = [(CCopyFile "/tmp/program.bin" "/mnt/dev/mapper/hda1/boot/program.bin",
         "failed"%string)] /\
   writes (trace_of (build Scenarios.no_kernel)) = [] /\
   outcome_of (build Scenarios.no_kernel) = Done None).
Proof. intros build. split_and!; by vm_compute. Qed.

Section Counting.
Context {W : Type} {H : Host W}.

(** C2.  [CreateVolumes] compares the final enumeration with the number
    of volumes and populates nothing when they differ;
    [CreatePartitionedVolumes] has no such check: on a backend that
    drops the second of two partitions it populates the first partition
    and then panics. *)
Theorem partition_count_checked_in_CreateVolumes_only
    (w : W) (imgFile : string) (volumes : list types.RawVolume)
    (newPartitioner : string -> Partitioner) :
  let listed := CreateVolumes imgFile volumes newPartitioner w in
  let mapped := CreatePartitionedVolumes (H := Sim.host Scenarios.drops_second)
                  "/tmp/vol.img" Scenarios.two_mounts Sim.start_world in
  let part0 := mkPart (OtherPart "part0") (Bytes 2097152) (Bytes 2098152) in
  (forall parts err,
     enumerations (trace_of listed) !! length volumes = Some (parts, err) ->
     length parts <> length volumes ->
     outcome_of listed = Done (Some "Not enough parts created!"%string) /\
     copies (trace_of listed) = []) /\
  (enumerations (trace_of mapped) !! size Scenarios.two_mounts
     = Some ([part0], None) /\
   copies (trace_of mapped) = [("/data/a"%string, part0)] /\
   outcome_of mapped = Panic "index out of range").
Proof.
  intros listed mapped part0. split; [|split_and!; by vm_compute].
  intros parts err Hfinal Hcount. subst listed.
  pose proof (fn_post_elim _ _ _ (CreateVolumes_runs imgFile volumes newPartitioner w))
    as [(e & Hsz & _)|(ev & sizes & total & out & eva & Hsz & Hrun & Htr & Hout)].
  { destruct (sizing_quiet _ _ _ _ _ Hsz) as (_ & Hq & _).
    by rewrite Hq in Hfinal. }
  destruct (sizing_quiet _ _ _ _ _ Hsz) as (_ & Hq & _ & Hc & _).
  rewrite Htr, enumerations_app, copies_app, Hq, Hc in *. simpl in *.
  pose proof (sizing_length _ _ _ _ _ _ _ Hsz eq_refl) as Hlen. simpl in Hlen.
  rewrite <- Hlen in Hfinal.
  destruct (assembly_count_checked _ _ _ _ _ _ _ parts err Hrun Hfinal) as [-> ?].
  - by rewrite length_map.
  - done.
Qed.
End Counting.

Lemma partition_count_checked_in_CreateVolumes_only_witness :
  let listed := CreateVolumes (H := Sim.host Scenarios.drops_second)
                  "/tmp/vol.img" Scenarios.two_volumes DiskLabelPartioner
                  Sim.start_world in
  outcome_of listed = Done (Some "Not enough parts created!"%string) /\
  copies (trace_of listed) = [].
Proof.
  intros listed.
  apply (proj1 (partition_count_checked_in_CreateVolumes_only
                  (H := Sim.host Scenarios.drops_second) Sim.start_world
                  "/tmp/vol.img" Scenarios.two_volumes DiskLabelPartioner)
               [mkPart (OtherPart "part0") (Bytes 2097152) (Bytes 2098152)] None).
  - by vm_compute.
  - simpl. lia.
Defined.


Section Layout.
Context {W : Type} {H : Host W}.

(** C3 (amended).  In a run of either volume assembler whose enumerations
    reflect a table of as many partitions as there are volumes, with
    offsets and sizes below 2^64: the first partition is requested at
    2 MB and every later one at the committed end (offset plus size) of
    the partition before it, whatever the backend commits; and the
    committed partitions do not overlap provided the backend commits no
    partition below the start requested for it. *)
Theorem volume_layout_follows_committed_ends
    (w : W) (imgFile : string) (volumes : list types.RawVolume)
    (newPartitioner : string -> Partitioner)
    (mounts : gmap string types.RawVolume)
    (n : nat) (tr : list event) (table : list Part) :
  (n = length volumes /\
   tr = trace_of (CreateVolumes imgFile volumes newPartitioner w)) \/
  (n = size mounts /\
   tr = trace_of (CreatePartitionedVolumes imgFile mounts w)) ->
  reflecting n table (enumerations tr) ->
  (forall (i : nat) p, table !! i = Some p -> committed_end p < 2 ^ 64) ->
  (forall s e, requests tr !! 0%nat = Some (s, e) -> s = 2097152) /\
  starts_follow (requests tr) table /\
  ((forall (i : nat) s e p,
      requests tr !! i = Some (s, e) -> table !! i = Some p ->
      s <= ToBytes (Offset p)) ->
   non_overlapping table).
Proof.
  intros [[-> ->]|[-> ->]] Hrefl Hfit.
  - pose proof (fn_post_elim _ _ _ (CreateVolumes_runs imgFile volumes newPartitioner w))
      as [(e & Hsz & _)|(ev & sizes & total & out & eva & Hsz & Hrun & Htr & _)].
    { destruct (sizing_quiet _ _ _ _ _ Hsz) as (_ & Hq & _).
      apply reflecting_length in Hrefl. by rewrite Hq in Hrefl. }
    destruct (sizing_quiet _ _ _ _ _ Hsz) as (Hq1 & Hq2 & _).
    rewrite Htr, requests_app, enumerations_app, Hq1, Hq2 in *. simpl in *.
    rewrite <- (Nat.add_0_l (length volumes)) in Hrefl.
    change 0%nat with (length (@nil Z)) in Hrefl at 1.
    rewrite <- (sizing_length _ _ _ _ _ _ _ Hsz eq_refl) in Hrefl.
    by eapply assembly_chained.
  - pose proof (fn_post_elim _ _ _ (CreatePartitionedVolumes_runs imgFile mounts w))
      as [(ev & e & Hsz & Htr & _)
         |(ev & sizes & ordered & total & out & eva & Hsz & Hrun & Htr & _)].
    { destruct (sizing_map_quiet _ _ _ _ _ _ _ Hsz) as (_ & Hq & _).
      apply reflecting_length in Hrefl. rewrite Htr in Hrefl. simpl in Hrefl.
      by rewrite Hq in Hrefl. }
    destruct (sizing_map_quiet _ _ _ _ _ _ _ Hsz) as (Hq1 & Hq2 & _).
    destruct (sizing_map_keys _ _ _ _ _ _ _ _ _ _ Hsz eq_refl) as [Hord _].
    simpl in Hord. subst ordered.
    rewrite Htr in *. simpl in *.
    rewrite requests_app, enumerations_app, Hq1, Hq2 in *. simpl in *.
    rewrite <- range_order_length with (w := w) in Hrefl.
    rewrite <- (length_map (map_index 0 sizes)) in Hrefl.
    by eapply assembly_chained.
Qed.
End Layout.

(** On a backend that snaps the start of a partition down to a megabyte
    the enumerations reflect the table and the starts follow the committed
    ends, and yet the two partitions overlap. *)
Lemma volume_layout_overlaps :
  let run := CreateVolumes (H := Sim.host Scenarios.snaps_down)
               "/tmp/vol.img" Scenarios.two_volumes DiskLabelPartioner
               Sim.start_world in
  ~ layout_claim (length Scenarios.two_volumes) (trace_of run).
Proof.
  intros run Hclaim.
  destruct (Hclaim (Sim.table run.2)) as [_ Hno].
  { split; vm_compute; reflexivity. }
  specialize (Hno 0%nat _ _ eq_refl eq_refl). vm_compute in Hno. by apply Hno.
Qed.

Lemma volume_layout_follows_committed_ends_witness :
  let run := CreateVolumes (H := Sim.host Scenarios.plain)
               "/tmp/vol.img" Scenarios.two_volumes DiskLabelPartioner
               Sim.start_world in
  let snapped := CreateVolumes (H := Sim.host Scenarios.snaps_down)
                   "/tmp/vol.img" Scenarios.two_volumes DiskLabelPartioner
                   Sim.start_world in
  (reflecting 2 (Sim.table run.2) (enumerations (trace_of run)) /\
   (forall s e, requests (trace_of run) !! 0%nat = Some (s, e) -> s = 2097152) /\
   starts_follow (requests (trace_of run)) (Sim.table run.2) /\
   non_overlapping (Sim.table run.2)) /\
  (reflecting 2 (Sim.table snapped.2) (enumerations (trace_of snapped)) /\
   (forall s e, requests (trace_of snapped) !! 0%nat = Some (s, e) -> s = 2097152) /\
   starts_follow (requests (trace_of snapped)) (Sim.table snapped.2)).
Proof.
  intros run snapped.
  assert (reflecting 2 (Sim.table run.2) (enumerations (trace_of run))) as Hr
    by (split; vm_compute; reflexivity).
  assert (reflecting 2 (Sim.table snapped.2) (enumerations (trace_of snapped)))
    as Hs by (split; vm_compute; reflexivity).
  split.
  - split; [exact Hr|].
    destruct (volume_layout_follows_committed_ends (H := Sim.host Scenarios.plain)
                Sim.start_world "/tmp/vol.img" Scenarios.two_volumes
                DiskLabelPartioner ∅ 2 (trace_of run) (Sim.table run.2))
      as (Hfirst & Hfollow & Hapart).
    + left. split; reflexivity.
    + exact Hr.
    + clear Hr Hs.
      intros [|[|[|i]]] p Hp; vm_compute in Hp; simplify_eq; reflexivity.
    + split; [exact Hfirst|]. split; [exact Hfollow|]. apply Hapart.
      clear Hr Hs Hfirst Hfollow Hapart.
      intros [|[|[|i]]] s e p Hreq Hp; vm_compute in Hreq, Hp; simplify_eq;
        vm_compute; discriminate.
  - split; [exact Hs|].
    destruct (volume_layout_follows_committed_ends
                (H := Sim.host Scenarios.snaps_down)
                Sim.start_world "/tmp/vol.img" Scenarios.two_volumes
                DiskLabelPartioner ∅ 2 (trace_of snapped) (Sim.table snapped.2))
      as (Hfirst & Hfollow & _).
    + left. split; reflexivity.
    + exact Hs.
    + clear Hr Hs.
      intros [|[|[|i]]] p Hp; vm_compute in Hp; simplify_eq; reflexivity.
    + split; [exact Hfirst|exact Hfollow].
Defined.

Section Crashes.
Context {W : Type} {H : Host W}.

(** C9 (amended).  When an enumeration of the partition-creation loop
    lists no partition, without error, [CreateVolumes] and
    [CreatePartitionedVolumes] index a list out of range and panic
    instead of returning an error; so does [CreatePartitionedVolumes]
    when the final enumeration lists fewer partitions than there are
    volumes. *)
Theorem empty_enumeration_panics
    (w : W) (imgFile : string) (volumes : list types.RawVolume)
    (newPartitioner : string -> Partitioner)
    (mounts : gmap string types.RawVolume) :
  let listed := CreateVolumes imgFile volumes newPartitioner w in
  let mapped := CreatePartitionedVolumes imgFile mounts w in
  (forall i : nat, (i < length volumes)%nat ->
     enumerations (trace_of listed) !! i = Some ([], None) ->
     outcome_of listed = Panic "index out of range") /\
  (forall i : nat, (i < size mounts)%nat ->
     enumerations (trace_of mapped) !! i = Some ([], None) ->
     outcome_of mapped = Panic "index out of range") /\
  (forall parts err,
     enumerations (trace_of mapped) !! size mounts = Some (parts, err) ->
     (length parts < size mounts)%nat ->
     outcome_of mapped = Panic "index out of range").
Proof.
  intros listed mapped. split_and!.
  - intros i Hi Hempty. subst listed.
    pose proof (fn_post_elim _ _ _ (CreateVolumes_runs imgFile volumes newPartitioner w))
      as [(e & Hsz & _)|(ev & sizes & total & out & eva & Hsz & Hrun & Htr & Hout)].
    { destruct (sizing_quiet _ _ _ _ _ Hsz) as (_ & Hq & _).
      by rewrite Hq in Hempty. }
    destruct (sizing_quiet _ _ _ _ _ Hsz) as (_ & Hq & _).
    rewrite Htr, enumerations_app, Hq in Hempty. simpl in Hempty.
    pose proof (sizing_length _ _ _ _ _ _ _ Hsz eq_refl) as Hlen. simpl in Hlen.
    rewrite (assembly_empty_enumeration _ _ _ _ _ _ _ _ i Hrun) in Hout by (done || lia).
    done.
  - intros i Hi Hempty. subst mapped.
    pose proof (fn_post_elim _ _ _ (CreatePartitionedVolumes_runs imgFile mounts w))
      as [(ev & e & Hsz & Htr & _)
         |(ev & sizes & ordered & total & out & eva & Hsz & Hrun & Htr & Hout)].
    { destruct (sizing_map_quiet _ _ _ _ _ _ _ Hsz) as (_ & Hq & _).
      rewrite Htr in Hempty. simpl in Hempty. by rewrite Hq in Hempty. }
    destruct (sizing_map_quiet _ _ _ _ _ _ _ Hsz) as (_ & Hq & _).
    destruct (sizing_map_keys _ _ _ _ _ _ _ _ _ _ Hsz eq_refl) as [Hord _].
    simpl in Hord. subst ordered.
    rewrite Htr in Hempty. simpl in Hempty.
    rewrite enumerations_app, Hq in Hempty. simpl in Hempty.
    rewrite (assembly_empty_enumeration _ _ _ _ _ _ _ _ i Hrun) in Hout;
      [done| |done].
    by rewrite length_map, range_order_length.
  - intros parts err Hfinal Hshort. subst mapped.
    pose proof (fn_post_elim _ _ _ (CreatePartitionedVolumes_runs imgFile mounts w))
      as [(ev & e & Hsz & Htr & _)
         |(ev & sizes & ordered & total & out & eva & Hsz & Hrun & Htr & Hout)].
    { destruct (sizing_map_quiet _ _ _ _ _ _ _ Hsz) as (_ & Hq & _).
      rewrite Htr in Hfinal. simpl in Hfinal. by rewrite Hq in Hfinal. }
    destruct (sizing_map_quiet _ _ _ _ _ _ _ Hsz) as (_ & Hq & _).
    destruct (sizing_map_keys _ _ _ _ _ _ _ _ _ _ Hsz eq_refl) as [Hord _].
    simpl in Hord. subst ordered.
    rewrite Htr in Hfinal. simpl in Hfinal.
    rewrite enumerations_app, Hq in Hfinal. simpl in Hfinal.
    rewrite (assembly_short_enumeration _ _ _ _ _ _ _ parts err Hrun) in Hout;
      [done| |].
    + by rewrite length_map, range_order_length.
    + by rewrite length_map, range_order_length.
Qed.
End Crashes.

(** Without volumes, a failing final enumeration goes unnoticed:
    [CreatePartitionedVolumes] returns the empty list of keys and no
    error. *)
Lemma failed_enumeration_unnoticed :
  let run := CreatePartitionedVolumes (H := Sim.host Scenarios.no_listing)
               "/tmp/vol.img" ∅ Sim.start_world in
  outcome_of run = Done ([], None) /\
  ~ final_enumeration_claim (size (∅ : gmap string types.RawVolume))
      (trace_of run) (outcome_of run).
Proof.
  intros run. split; [by vm_compute|].
  intros Hclaim.
  destruct (Hclaim [] (Some "failed"%string)) as [msg Hmsg].
  - by vm_compute.
  - left. by eexists.
  - vm_compute in Hmsg. discriminate.
Qed.

Lemma empty_enumeration_panics_witness :
  outcome_of (CreateVolumes (H := Sim.host Scenarios.commits_nothing)
                "/tmp/vol.img" Scenarios.two_volumes DiskLabelPartioner
                Sim.start_world) = Panic "index out of range" /\
  outcome_of (CreatePartitionedVolumes (H := Sim.host Scenarios.commits_nothing)
                "/tmp/vol.img" Scenarios.two_mounts Sim.start_world)
    = Panic "index out of range" /\
  outcome_of (CreatePartitionedVolumes (H := Sim.host Scenarios.drops_second)
                "/tmp/vol.img" Scenarios.two_mounts Sim.start_world)
    = Panic "index out of range".
Proof.
  pose proof (empty_enumeration_panics (H := Sim.host Scenarios.commits_nothing)
                Sim.start_world "/tmp/vol.img" Scenarios.two_volumes
                DiskLabelPartioner Scenarios.two_mounts) as (Hlisted & Hmapped & _).
  pose proof (empty_enumeration_panics (H := Sim.host Scenarios.drops_second)
                Sim.start_world "/tmp/vol.img" Scenarios.two_volumes
                DiskLabelPartioner Scenarios.two_mounts) as (_ & _ & Hfinal).
  split_and!.
  - apply (Hlisted 0%nat); [simpl; lia|by vm_compute].
  - apply (Hmapped 0%nat); [vm_compute; lia|by vm_compute].
  - apply (Hfinal [mkPart (OtherPart "part0") (Bytes 2097152) (Bytes 2098152)] None);
      [by vm_compute|vm_compute; lia].
Defined.

Section ImageSize.
Context {W : Type} {H : Host W}.

(** C4 (amended).  Without overflow of the 64-bit arithmetic, the sparse
    file of [CreateVolumes] has the size: the sum over the volumes of the
    measured size of the directory plus 2 MB, or of the explicit size
    when it is not zero, plus a tenth of that sum (integer division),
    raised to the next multiple of 512 strictly above it, plus 4 MB; only
    the directories of volumes without explicit size are measured.
    [CreatePartitionedVolumes] measures every directory and sizes the
    file in the same way from the measured sizes plus 2 MB each: it never
    reads an explicit size. *)
Theorem image_file_size
    (w : W) (imgFile : string) (volumes : list types.RawVolume)
    (newPartitioner : string -> Partitioner)
    (mounts : gmap string types.RawVolume) :
  let listed := trace_of (CreateVolumes imgFile volumes newPartitioner w) in
  let mapped := trace_of (CreatePartitionedVolumes imgFile mounts w) in
  let sized total := 512 * ((total + total / 10) / 512 + 1) + 4194304 in
  let folder k := types.Path (map_index types.zero mounts k) in
  ((measured listed).*1
     `prefix_of` map types.Path (filter (fun v => types.Size v = 0) volumes) /\
   forall total,
     total = sum_sizes (volume_sizes volumes (measured listed).*2) ->
     Forall (fun v => 0 <= types.Size v) volumes ->
     Forall (fun d => 0 <= d) (measured listed).*2 ->
     total + total / 10 + 512 + 4194304 < 2 ^ 64 ->
     forall f size, (f, size) ∈ sparse_files listed ->
       f = imgFile /\ size = Bytes (sized total)) /\
  (forall total,
     total = sum_sizes (map (fun d => d + 2097152) (measured mapped).*2) ->
     Forall (fun d => 0 <= d) (measured mapped).*2 ->
     total + total / 10 + 512 + 4194304 < 2 ^ 64 ->
     forall f size, (f, size) ∈ sparse_files mapped ->
       f = imgFile /\ size = Bytes (sized total) /\
       (measured mapped).*1 = map folder (range_order mounts w)).
Proof.
  intros listed mapped sized folder.
  assert (2 ^ 64 = 18446744073709551616) as E64 by reflexivity.
  split.
  - destruct (CreateVolumes_sparse_file w imgFile volumes newPartitioner)
      as [Hpaths Hfile]. fold listed in Hpaths, Hfile.
    split; [exact Hpaths|].
    intros total Htotal Hvs Hdirs Hbound f size Hin.
    destruct Hfile as [Hnone|(total' & Hone & Hexact)].
    { rewrite Hnone in Hin. by apply elem_of_nil in Hin. }
    pose proof (volume_sizes_nonneg _ _ Hvs Hdirs) as Hpos.
    rewrite <- Htotal in *.
    assert (0 <= total / 10) by (apply Z.div_pos; lia).
    destruct (Hexact Hvs Hdirs) as [-> _]; [lia|].
    rewrite Hone in Hin. apply list_elem_of_singleton in Hin. injection Hin as -> ->.
    split; [done|]. f_equal. by apply image_size_exact.
  - destruct (CreatePartitionedVolumes_sparse_file w imgFile mounts)
      as [_ Hfile]. fold mapped in Hfile.
    intros total Htotal Hdirs Hbound f size Hin.
    destruct Hfile as [Hnone|(total' & Hone & Hpaths & Hexact)].
    { rewrite Hnone in Hin. by apply elem_of_nil in Hin. }
    assert (0 <= total) as Hpos.
    { subst total. clear -Hdirs.
      induction Hdirs as [|d ds Hd Hds IH]; simpl; [done|].
      fold (sum_sizes (map (fun d => d + 2097152) ds)). lia. }
    rewrite <- Htotal in *.
    assert (0 <= total / 10) by (apply Z.div_pos; lia).
    destruct (Hexact Hdirs) as [-> _]; [lia|].
    rewrite Hone in Hin. apply list_elem_of_singleton in Hin. injection Hin as -> ->.
    split_and!; [done| |done]. f_equal. by apply image_size_exact.
Qed.
End ImageSize.

(** An explicit size of ten sectors: with its tenth the sum is a whole
    number of sectors and the file has one sector more than claimed.  And
    [CreatePartitionedVolumes] measures the directory of a volume of
    explicit size and sizes the file from the measure. *)
Lemma image_size_not_as_claimed :
  let ten := [types.mkRawVolume "/data/a" 5120] in
  let listed := CreateVolumes (H := Sim.host Scenarios.plain)
                  "/tmp/vol.img" ten DiskLabelPartioner Sim.start_world in
  let mapped := CreatePartitionedVolumes (H := Sim.host Scenarios.plain)
                  "/tmp/vol.img" Scenarios.sized_mount Sim.start_world in
  (sparse_files (trace_of listed) = [("/tmp/vol.img"%string, Bytes 4200448)] /\
   ~ image_size_claim ten (trace_of listed)) /\
  (sparse_files (trace_of mapped) = [("/tmp/vol.img"%string, Bytes 6502400)] /\
   measured (trace_of mapped) = [("/data/a"%string, 1000)] /\
   ~ image_size_claim [types.mkRawVolume "/data/a" 4096] (trace_of mapped)).
Proof.
  intros ten listed mapped.
  assert (sparse_files (trace_of listed) = [("/tmp/vol.img"%string, Bytes 4200448)])
    as Hl by (by vm_compute).
  assert (sparse_files (trace_of mapped) = [("/tmp/vol.img"%string, Bytes 6502400)])
    as Hm by (by vm_compute).
  split_and!; [exact Hl| |exact Hm|by vm_compute|].
  - intros [_ Hclaim].
    specialize (Hclaim "/tmp/vol.img"%string (Bytes 4200448)).
    rewrite Hl in Hclaim. specialize (Hclaim ltac:(by apply list_elem_of_singleton)).
    vm_compute in Hclaim. discriminate.
  - intros [_ Hclaim].
    specialize (Hclaim "/tmp/vol.img"%string (Bytes 6502400)).
    rewrite Hm in Hclaim. specialize (Hclaim ltac:(by apply list_elem_of_singleton)).
    vm_compute in Hclaim. discriminate.
Qed.

Lemma image_file_size_witness :
  let listed := trace_of (CreateVolumes (H := Sim.host Scenarios.plain)
                  "/tmp/vol.img" Scenarios.two_volumes DiskLabelPartioner
                  Sim.start_world) in
  ("/tmp/vol.img"%string, Bytes 8810496) ∈ sparse_files listed /\
  forall f size, (f, size) ∈ sparse_files listed ->
    f = "/tmp/vol.img"%string /\ size = Bytes 8810496.
Proof.
  intros listed. split.
  - assert (sparse_files listed = [("/tmp/vol.img"%string, Bytes 8810496)]) as ->
      by (by vm_compute).
    by apply list_elem_of_singleton.
  - apply (proj2 (proj1 (image_file_size (H := Sim.host Scenarios.plain)
                    Sim.start_world "/tmp/vol.img" Scenarios.two_volumes
                    DiskLabelPartioner ∅)) 4196304).
    + by vm_compute.
    + repeat constructor; by vm_compute.
    + match goal with
      | |- Forall _ ?l => assert (l = [1000; 1000]) as -> by (by vm_compute)
      end.
      repeat constructor; lia.
    + by vm_compute.
Defined.


Section SparseFiles.
Context {W : Type} {H : Host W}.

(** C8 (amended).  [CreateSingleVolume], [CreateVolumes] and
    [CreatePartitionedVolumes] hand [createSparseFile] a whole number of
    sectors, which, without overflow, exceeds the space computed for the
    volumes with its tenth and the fixed overhead.
    [CreateBootImageWithSize] hands over the size of its caller
    unchanged, and fails after the allocation when that size is not a
    whole number of sectors. *)
Theorem sparse_file_sizes
    (w : W) (rootFile imgFile progPath commandline : string)
    (folder : types.RawVolume) (volumes : list types.RawVolume)
    (newPartitioner : string -> Partitioner)
    (mounts : gmap string types.RawVolume) (size : DiskSize) :
  let single := trace_of (CreateSingleVolume rootFile folder w) in
  let listed := trace_of (CreateVolumes imgFile volumes newPartitioner w) in
  let mapped := trace_of (CreatePartitionedVolumes imgFile mounts w) in
  let boot := CreateBootImageWithSize rootFile progPath commandline size w in
  (sector_aligned_claim single /\ sector_aligned_claim listed /\
   sector_aligned_claim mapped) /\
  (forall d f s,
     measured single = [(types.Path folder, d)] ->
     0 <= d -> d + d / 10 + 2097152 + 512 < 2 ^ 63 ->
     (f, s) ∈ sparse_files single ->
     d + d / 10 + 2097152 < ToBytes s) /\
  (forall total f s,
     total = sum_sizes (volume_sizes volumes (measured listed).*2) ->
     Forall (fun v => 0 <= types.Size v) volumes ->
     Forall (fun d => 0 <= d) (measured listed).*2 ->
     total + total / 10 + 512 + 4194304 < 2 ^ 64 ->
     (f, s) ∈ sparse_files listed ->
     total + total / 10 + 4194304 < ToBytes s) /\
  (forall total f s,
     total = sum_sizes (map (fun d => d + 2097152) (measured mapped).*2) ->
     Forall (fun d => 0 <= d) (measured mapped).*2 ->
     total + total / 10 + 512 + 4194304 < 2 ^ 64 ->
     (f, s) ∈ sparse_files mapped ->
     total + total / 10 + 4194304 < ToBytes s) /\
  (sparse_files (trace_of boot) = [(rootFile, size)] /\
   (ToBytes size mod SectorSize <> 0 ->
    exists e, outcome_of boot = Done (Some e))).
Proof.
  intros single listed mapped boot.
  assert (2 ^ 64 = 18446744073709551616) as E64 by reflexivity.
  pose proof (fn_post_elim _ _ _ (CreateSingleVolume_file rootFile folder w)) as Hsingle.
  destruct (CreateVolumes_sparse_file w imgFile volumes newPartitioner) as [_ Hlisted].
  destruct (CreatePartitionedVolumes_sparse_file w imgFile mounts) as [_ Hmapped].
  pose proof (fn_post_elim _ _ _
                (CreateBootImageWithSize_file rootFile progPath commandline size w))
    as Hboot.
  cbv beta in Hsingle, Hboot.
  fold single in Hsingle. fold listed in Hlisted. fold mapped in Hmapped.
  fold boot in Hboot.
  split_and!.
  - intros f s Hin. destruct Hsingle as [Hnone|(d & _ & Hone)].
    { rewrite Hnone in Hin. by apply elem_of_nil in Hin. }
    rewrite Hone in Hin. apply list_elem_of_singleton in Hin. injection Hin as -> ->.
    apply single_volume_size_aligned.
  - intros f s Hin. destruct Hlisted as [Hnone|(total & Hone & _)].
    { rewrite Hnone in Hin. by apply elem_of_nil in Hin. }
    rewrite Hone in Hin. apply list_elem_of_singleton in Hin. injection Hin as -> ->.
    apply image_size_aligned.
  - intros f s Hin. destruct Hmapped as [Hnone|(total & Hone & _)].
    { rewrite Hnone in Hin. by apply elem_of_nil in Hin. }
    rewrite Hone in Hin. apply list_elem_of_singleton in Hin. injection Hin as -> ->.
    apply image_size_aligned.
  - intros d f s Hm Hd Hbound Hin. destruct Hsingle as [Hnone|(d' & Hm' & Hone)].
    { rewrite Hnone in Hin. by apply elem_of_nil in Hin. }
    rewrite Hm in Hm'. injection Hm' as <-.
    rewrite Hone in Hin. apply list_elem_of_singleton in Hin. injection Hin as -> ->.
    rewrite (single_volume_size_exact _ Hd Hbound).
    assert (0 <= d / 10) by (apply Z.div_pos; lia).
    pose proof (Z.mul_succ_div_gt (d + d / 10 + 2097152) 512 ltac:(lia)). lia.
  - intros total f s Htotal Hvs Hdirs Hbound Hin.
    destruct Hlisted as [Hnone|(total' & Hone & Hexact)].
    { rewrite Hnone in Hin. by apply elem_of_nil in Hin. }
    pose proof (volume_sizes_nonneg _ _ Hvs Hdirs) as Hpos.
    rewrite <- Htotal in *.
    assert (0 <= total / 10) by (apply Z.div_pos; lia).
    destruct (Hexact Hvs Hdirs) as [-> _]; [lia|].
    rewrite Hone in Hin. apply list_elem_of_singleton in Hin. injection Hin as -> ->.
    by apply image_size_covers.
  - intros total f s Htotal Hdirs Hbound Hin.
    destruct Hmapped as [Hnone|(total' & Hone & _ & Hexact)].
    { rewrite Hnone in Hin. by apply elem_of_nil in Hin. }
    assert (0 <= total) as Hpos.
    { subst total. clear -Hdirs.
      induction Hdirs as [|d ds Hd Hds IH]; simpl; [done|].
      fold (sum_sizes (map (fun d => d + 2097152) ds)). lia. }
    rewrite <- Htotal in *.
    assert (0 <= total / 10) by (apply Z.div_pos; lia).
    destruct (Hexact Hdirs) as [-> _]; [lia|].
    rewrite Hone in Hin. apply list_elem_of_singleton in Hin. injection Hin as -> ->.
    by apply image_size_covers.
  - apply Hboot.
  - apply Hboot.
Qed.
End SparseFiles.

(** A size of a thousand bytes: [CreateBootImageWithSize] creates the
    file of a thousand bytes, and then fails. *)
Lemma unaligned_boot_image_allocated :
  let run := CreateBootImageWithSize (H := Sim.host Scenarios.plain)
               "/tmp/root.img" "/tmp/program.bin" "console=ttyS0" (Bytes 1000)
               Sim.start_world in
  sparse_files (trace_of run) = [("/tmp/root.img"%string, Bytes 1000)] /\
  outcome_of run = Done (Some "UnrepresentableSize"%string) /\
  ~ sector_aligned_claim (trace_of run).
Proof.
  intros run.
  assert (sparse_files (trace_of run) = [("/tmp/root.img"%string, Bytes 1000)])
    as Hfile by (by vm_compute).
  split_and!; [exact Hfile|by vm_compute|].
  intros Hclaim. specialize (Hclaim "/tmp/root.img"%string (Bytes 1000)).
  rewrite Hfile in Hclaim.
  specialize (Hclaim ltac:(by apply list_elem_of_singleton)).
  vm_compute in Hclaim. discriminate.
Qed.

Lemma sparse_file_sizes_witness :
  let single := trace_of (CreateSingleVolume (H := Sim.host Scenarios.plain)
                  "/tmp/vol.img" (types.mkRawVolume "/data/a" 0)
                  Sim.start_world) in
  ("/tmp/vol.img"%string, Bytes 2098688) ∈ sparse_files single /\
  1000 + 1000 / 10 + 2097152 < ToBytes (Bytes 2098688).
Proof.
  intros single.
  assert (sparse_files single = [("/tmp/vol.img"%string, Bytes 2098688)]) as Hfile
    by (by vm_compute).
  assert (("/tmp/vol.img"%string, Bytes 2098688) ∈ sparse_files single) as Hin
    by (rewrite Hfile; by apply list_elem_of_singleton).
  split; [exact Hin|].
  destruct (sparse_file_sizes (H := Sim.host Scenarios.plain) Sim.start_world
              "/tmp/vol.img" "/tmp/vol.img" "/tmp/program.bin" "console=ttyS0"
              (types.mkRawVolume "/data/a" 0) Scenarios.two_volumes
              DiskLabelPartioner ∅ (Bytes 1000)) as (_ & Hsingle & _).
  apply (Hsingle 1000 "/tmp/vol.img"%string (Bytes 2098688));
    [by vm_compute|lia|by vm_compute|exact Hin].
Defined.


Section KeyOrder.
Context {W : Type} {H : Host W}.

(** C10.  [CreatePartitionedVolumes] ranges over the volume map exactly
    once.  With [keys] the keys in the order of that range: the
    directories are measured in that order, the extents requested for
    the partitions are the sizes of the directories measured, in that
    order, the i-th folder in that order is copied into the i-th
    partition of the final enumeration, and a successful call returns
    [keys] after a request and a copy for each of them. *)
Theorem CreatePartitionedVolumes_single_order
    (w : W) (imgFile : string) (volumes : gmap string types.RawVolume) :
  let run := CreatePartitionedVolumes imgFile volumes w in
  let tr := trace_of run in
  let keys := range_order volumes w in
  let folder k := types.Path (map_index types.zero volumes k) in
  ranges tr = [keys] /\
  (measured tr).*1 `prefix_of` map folder keys /\
  map (fun '(s, e) => wrap64 (e - s)) (requests tr)
    `prefix_of` map (fun d => wrap64 (wrap64 d + MB2)) (measured tr).*2 /\
  (copies tr = [] \/
   exists parts err,
     enumerations tr !! length keys = Some (parts, err) /\
     copies tr `prefix_of` zip (map folder keys) parts) /\
  (forall ks, outcome_of run = Done (ks, None) ->
     ks = keys /\
     (measured tr).*1 = map folder keys /\
     length (requests tr) = length keys /\
     exists parts err,
       enumerations tr !! length keys = Some (parts, err) /\
       copies tr = zip (map folder keys) parts /\
       (length keys <= length parts)%nat).
Proof.
  intros run tr keys folder. subst tr run.
  pose proof (fn_post_elim _ _ _ (CreatePartitionedVolumes_runs imgFile volumes w))
    as [(ev & e & Hsz & -> & ->)
       |(ev & sizes & ordered & total & out & eva & Hsz & Hrun & -> & Hout)];
    fold keys in Hsz |- *.
  { destruct (sizing_map_quiet _ _ _ _ _ _ _ Hsz) as (Hq1 & Hq2 & _ & Hq4 & Hq5).
    pose proof (sizing_map_measures _ _ _ _ _ _ _ Hsz) as Hm.
    simpl. rewrite Hq1, Hq4, Hq5. split_and!; [done|done|apply prefix_nil|by left|done]. }
  destruct (sizing_map_quiet _ _ _ _ _ _ _ Hsz) as (Hq1 & Hq2 & _ & Hq4 & Hq5).
  pose proof (sizing_map_measures _ _ _ _ _ _ _ Hsz) as Hm.
  destruct (sizing_map_keys _ _ _ _ _ _ _ _ _ _ Hsz eq_refl) as [Hord Hpaths].
  simpl in Hord. subst ordered.
  destruct (sizing_map_lookup _ _ _ _ _ _ _ _ _ _ Hsz eq_refl
              (range_order_NoDup volumes w)) as [Hsizes _].
  fold keys in Hsizes, Hrun, Hpaths. rewrite Hsizes in Hrun.
  destruct (assembly_quiet _ _ _ _ _ _ _ _ Hrun) as (_ & Hm' & Hr').
  destruct (assembly_extents _ _ _ _ _ _ _ _ Hrun) as [Hext Hreqs].
  destruct (assembly_copies _ _ _ _ _ _ _ _ Hrun) as [Hcopies Hfinal].
  assert (length (map (fun d => wrap64 (wrap64 d + MB2)) (measured ev).*2)
          = length keys) as Hlen.
  { rewrite length_map, length_fmap, <- (length_fmap fst), Hpaths.
    apply length_map. }
  rewrite Hlen in Hreqs, Hcopies, Hfinal.
  assert (map wrap64 (map (fun d => wrap64 (wrap64 d + MB2)) (measured ev).*2)
          = map (fun d => wrap64 (wrap64 d + MB2)) (measured ev).*2) as Hidem.
  { rewrite map_map. apply map_ext. intros d. apply wrap64_idemp. }
  rewrite Hidem in Hext.
  assert (ranges (EvRange keys :: ev ++ eva) = [keys]) as ->.
  { change (EvRange keys :: ev ++ eva) with ([EvRange keys] ++ ev ++ eva).
    by rewrite !ranges_app, Hq5, Hr'. }
  assert (measured (EvRange keys :: ev ++ eva) = measured ev) as ->.
  { change (EvRange keys :: ev ++ eva) with ([EvRange keys] ++ ev ++ eva).
    by rewrite !measured_app, Hm', app_nil_r. }
  assert (requests (EvRange keys :: ev ++ eva) = requests eva) as ->.
  { change (EvRange keys :: ev ++ eva) with ([EvRange keys] ++ ev ++ eva).
    by rewrite !requests_app, Hq1. }
  assert (enumerations (EvRange keys :: ev ++ eva) = enumerations eva) as ->.
  { change (EvRange keys :: ev ++ eva) with ([EvRange keys] ++ ev ++ eva).
    by rewrite !enumerations_app, Hq2. }
  assert (copies (EvRange keys :: ev ++ eva) = copies eva) as ->.
  { change (EvRange keys :: ev ++ eva) with ([EvRange keys] ++ ev ++ eva).
    by rewrite !copies_app, Hq4. }
  split_and!; [done|done|done|done|].
  intros ks Hks. destruct out as [[]|e|]; rewrite Hout in Hks; [|done..].
  injection Hks as <-.
  destruct (Hfinal eq_refl) as (parts & err & Hp & Hc & Hn).
  rewrite length_map in Hn.
  split_and!; [done|done|by apply Hreqs|by exists parts, err].
Qed.
End KeyOrder.


Lemma CreatePartitionedVolumes_single_order_witness :
  let run := CreatePartitionedVolumes (H := Sim.host Scenarios.plain)
               "/tmp/vol.img" Scenarios.two_mounts Sim.start_world in
  let keys := range_order (Host := Sim.host Scenarios.plain)
                Scenarios.two_mounts Sim.start_world in
  ["/mnt/a"; "/mnt/b"]%string = keys /\
  length (requests (trace_of run)) = length keys.
Proof.
  intros run keys.
  destruct (CreatePartitionedVolumes_single_order (H := Sim.host Scenarios.plain)
              Sim.start_world "/tmp/vol.img" Scenarios.two_mounts)
    as (_ & _ & _ & _ & Hdone).
  destruct (Hdone ["/mnt/a"; "/mnt/b"]%string) as (Hk & _ & Hr & _);
    [by vm_compute|].
  split; [exact Hk|exact Hr].
Defined.

(** * Further properties of the code *)

Lemma held_app a b st : held (a ++ b) st = held a st ≫= held b.
Proof.
  revert st. induction a as [|[c rep|f|ks] a IH]; intros st; cbn [app held]; [done| |done..].
  destruct c; try done.
  all: try (destruct (give_back _ st) as [st'|]; [apply IH|done]).
  all: by case_decide.
Qed.

Lemma balanced_nil : balanced [].
Proof. by intros st. Qed.

Lemma balanced_app a b : balanced a -> balanced b -> balanced (a ++ b).
Proof. intros Ha Hb st. by rewrite held_app, Ha; cbn; rewrite Hb. Qed.

Lemma give_back_top h st : give_back h (h :: st) = Some st.
Proof. unfold give_back. by rewrite decide_True. Qed.

(** Reading [held] off a trace whose events are known. *)
Ltac held_step :=
  first
    [ rewrite give_back_top
    | rewrite decide_True by (repeat first [by left | right])
    | progress cbn [held app succeeded rerr rname mbind option_bind] ].

Ltac held_run := intros ?st; repeat held_step; try reflexivity.

Section Held.
Context {W : Type} {H : Host W}.

Lemma createSparseFile_balanced filename size (w : W) :
  fn_post (createSparseFile filename size) w (fun _ tr _ => balanced tr).
Proof.
  unfold createSparseFile. wp_go.
  all: held_run.
Qed.

Lemma writeBootTemplate_balanced fname rootDrive commandline (w : W) :
  fn_post (writeBootTemplate fname rootDrive commandline) w
    (fun _ tr _ => balanced tr).
Proof. apply fn_writeBootTemplate. intros [[e|] ? ? ?] w1 E; cbn [rerr]; [|intros]; held_run. Qed.

Lemma writeDeviceMap_balanced fname rootDevice (w : W) :
  fn_post (writeDeviceMap fname rootDevice) w (fun _ tr _ => balanced tr).
Proof. apply fn_writeDeviceMap. intros [[e|] ? ? ?] w1 E; cbn [rerr]; [|intros]; held_run. Qed.

Lemma PrepareGrub_balanced folder rootDeviceName kernel commandline (w : W) :
  fn_post (PrepareGrub folder rootDeviceName kernel commandline) w
    (fun _ tr _ => balanced tr).
Proof. unfold PrepareGrub. wp_go. all: held_run. Qed.

Lemma formatDeviceAndCopyContents_balanced folder dev (w : W) :
  fn_post (formatDeviceAndCopyContents folder dev) w (fun _ tr _ => balanced tr).
Proof. unfold formatDeviceAndCopyContents. wp_go. all: held_run. Qed.

Lemma copyToPart_balanced folder part (w : W) :
  fn_post (copyToPart folder part) w (fun _ tr _ => balanced tr).
Proof. unfold copyToPart. wp_go. all: held_run. Qed.

Lemma CopyToImgFile_balanced folder imgfile (w : W) :
  fn_post (CopyToImgFile folder imgfile) w (fun _ tr _ => balanced tr).
Proof. unfold CopyToImgFile. wp_go. all: unfold NewLoDevice; held_run. Qed.

Lemma CreateSingleVolume_balanced rootFile folder (w : W) :
  fn_post (CreateSingleVolume rootFile folder) w (fun _ tr _ => balanced tr).
Proof.
  unfold CreateSingleVolume. wp_wrappers. wp_run; [held_run|].
  destruct (ToSectors _) as [n [e|]]; wp_go.
  all: unfold NewLoDevice; held_run.
Qed.

Lemma CreateBootImageOnFile_balanced rootFile sizeOfFile progPath commandline (w : W) :
  fn_post (CreateBootImageOnFile rootFile sizeOfFile progPath commandline) w
    (fun _ tr _ => balanced tr).
Proof.
  unfold CreateBootImageOnFile.
  destruct (ToSectors sizeOfFile) as [n [e|]].
  { wp_go. held_run. }
  wp_go.
  all: try solve [unfold NewLoDevice, NewDevice; held_run].
  split_parts; wp_go.
  all: unfold NewLoDevice, NewDevice; held_run.
Qed.
End Held.

Lemma balanced_cons_neutral c rep tr :
  match c with
  | CAcquire _ | CMount _ | CCreate _ | CRelease _ | CUmount _ | CClose _
  | CSeek _ _ _ | CWrite _ _ | CCopyDir _ _ => False
  | _ => True
  end ->
  balanced tr -> balanced (EvHost c rep :: tr).
Proof. intros Hc Htr st. destruct c; try done; apply Htr. Qed.

Lemma sizing_balanced vs sizes total ev out :
  sizing_run vs sizes total ev out -> balanced ev.
Proof.
  induction 1; try done; by apply balanced_cons_neutral.
Qed.

Lemma sizing_map_balanced volumes ks sizes ordered total ev out :
  sizing_map_run volumes ks sizes ordered total ev out -> balanced ev.
Proof. induction 1; try done; by apply balanced_cons_neutral. Qed.

Lemma layout_balanced p dev start sizes ev out :
  layout_run p dev start sizes ev out -> balanced ev.
Proof. induction 1; try done; by repeat apply balanced_cons_neutral. Qed.

Section HeldLoops.
Context {W : Type} {H : Host W}.

Lemma wp_copy_balanced {A R} (g : A -> string) parts (l : list A) (n : nat) ds
    (w : W) (Q : outcome R unit -> _) :
  (forall o ev w', balanced ev -> Q o ev ds w') ->
  wp (for_range l n tt
        (fun i x _ =>
           let* part := index parts (Z.of_nat i) in
           invoke (copyToPart (g x) part) ;;
           ret tt)) ds w Q.
Proof.
  revert n w Q. induction l as [|x l IH]; intros n w Q HQ.
  { cbn [for_range]. wp_go. by apply HQ. }
  cbn [for_range]. destruct (parts !! n) as [part|] eqn:Hp.
  - rewrite (index_lookup _ _ _ Hp). wp_run.
    apply wp_invoke. eapply fn_post_mono; [apply copyToPart_balanced|].
    intros r ev1 w1 Hev1. destruct r; wp_run.
    + apply IH. intros o ev w' Hev. apply HQ.
      rewrite ?app_nil_r. cbn [app]. by apply balanced_app.
    + apply HQ. rewrite ?app_nil_r. by cbn [app].
  - rewrite index_out_of_range
      by (right; apply lookup_ge_None_1 in Hp; lia).
    wp_go. by apply HQ.
Qed.
End HeldLoops.

(** Reading [held] off a trace made of known events and balanced parts. *)
Ltac held_go :=
  unfold NewLoDevice, NewDevice;
  repeat (progress (cbn [app]; rewrite ?app_nil_r, <- ?app_assoc));
  intros ?st;
  repeat first
    [ match goal with
      | Hb : balanced ?e |- context [held (?e ++ _) ?s] =>
          rewrite (held_app e), (Hb s); cbn [mbind option_bind]
      | Hb : balanced ?e |- context [held ?e ?s] => rewrite (Hb s)
      end
    | held_step ];
  try reflexivity.

Section HeldRuns.
Context {W : Type} {H : Host W}.

Lemma CreateVolumes_balanced imgFile volumes newPartitioner (w : W) :
  fn_post (CreateVolumes imgFile volumes newPartitioner) w
    (fun _ tr _ => balanced tr).
Proof.
  unfold CreateVolumes. apply fn_func. apply wp_bind. wp_simpl.
  apply wp_sizing. intros o ev ? out Hsz Hout.
  pose proof (sizing_balanced _ _ _ _ _ Hsz) as Hev.
  destruct out as [[sizes total]|e|]; [|subst o; wp_run|done].
  2: { held_go. }
  subst o. wp_run.
  apply wp_invoke. eapply fn_post_mono; [apply createSparseFile_balanced|].
  intros r evf ? Hevf. destruct r as [[e|]|msg]; wp_run.
  1,2,4: held_go.
  eapply (wp_layout (fun x => x)). rewrite map_id.
  intros o evl ? outl Hl Houtl.
  pose proof (layout_balanced _ _ _ _ _ _ Hl) as Hevl.
  destruct outl as [start|e|]; subst o; wp_run.
  2,3: held_go.
  case_decide as Hlen; wp_run; [held_go|].
  apply (wp_copy_balanced types.Path).
  intros o evc ? Hevc. destruct o; wp_run; held_go.
Qed.

Lemma CreatePartitionedVolumes_balanced imgFile volumes (w : W) :
  fn_post (CreatePartitionedVolumes imgFile volumes) w
    (fun _ tr _ => balanced tr).
Proof.
  unfold CreatePartitionedVolumes. apply fn_func. wp_run.
  apply wp_sizing_map. intros o ev ? out Hsz Hout.
  pose proof (sizing_map_balanced _ _ _ _ _ _ _ Hsz) as Hev.
  destruct out as [[[sizes ordered] total]|e|]; [|subst o; wp_run|done].
  2: { held_go. }
  subst o. wp_run.
  apply wp_invoke. eapply fn_post_mono; [apply createSparseFile_balanced|].
  intros r evf ? Hevf. destruct r as [[e|]|msg]; wp_run.
  1,2,4: held_go.
  eapply (wp_layout (map_index 0 sizes)).
  intros o evl ? outl Hl Houtl.
  pose proof (layout_balanced _ _ _ _ _ _ Hl) as Hevl.
  destruct outl as [start|e|]; subst o; wp_run.
  2,3: held_go.
  apply (wp_copy_balanced (fun k => types.Path (map_index types.zero volumes k))).
  intros o evc ? Hevc. destruct o; wp_run; held_go.
Qed.

Lemma CreateBootImageWithSize_balanced rootFile progPath commandline size (w : W) :
  fn_post (CreateBootImageWithSize rootFile progPath commandline size) w
    (fun _ tr _ => balanced tr).
Proof.
  unfold CreateBootImageWithSize. wp_run.
  apply wp_invoke. eapply fn_post_mono; [apply createSparseFile_balanced|].
  intros r evf ? Hevf. destruct r as [[e|]|msg]; wp_run.
  1,3: held_go.
  apply wp_invoke. eapply fn_post_mono; [apply CreateBootImageOnFile_balanced|].
  intros r evb ? Hevb. destruct r; wp_run; held_go.
Qed.
End HeldRuns.

Section GivingBack.
Context {W : Type} {H : Host W}.

(** X1.  [createSparseFile], [writeBootTemplate], [writeDeviceMap] and
    [PrepareGrub] close every file they created, once, on every path,
    never close a file they did not open, and seek and write only in a
    file that is open. *)
Theorem files_are_closed
    (w : W) (filename fname rootDrive rootDevice folder kernel
     commandline : string) (size : DiskSize) :
  balanced (trace_of (createSparseFile filename size w)) /\
  balanced (trace_of (writeBootTemplate fname rootDrive commandline w)) /\
  balanced (trace_of (writeDeviceMap fname rootDevice w)) /\
  balanced (trace_of (PrepareGrub folder rootDevice kernel commandline w)).
Proof.
  split_and!.
  - apply (fn_post_elim _ _ _ (createSparseFile_balanced filename size w)).
  - apply (fn_post_elim _ _ _ (writeBootTemplate_balanced fname rootDrive commandline w)).
  - apply (fn_post_elim _ _ _ (writeDeviceMap_balanced fname rootDevice w)).
  - apply (fn_post_elim _ _ _ (PrepareGrub_balanced folder rootDevice kernel commandline w)).
Qed.

(** X2.  [formatDeviceAndCopyContents], [copyToPart], [CopyToImgFile] and
    [CreateSingleVolume] give back what they took, last taken first, on
    every path: the device acquired is released once and after the
    unmount, the mount point is unmounted once, the file is closed; the
    directory is copied only to a mount point that is mounted. *)
Theorem population_gives_back
    (w : W) (folder dev imgfile rootFile : string) (part : Part)
    (volume : types.RawVolume) :
  balanced (trace_of (formatDeviceAndCopyContents folder dev w)) /\
  balanced (trace_of (copyToPart folder part w)) /\
  balanced (trace_of (CopyToImgFile folder imgfile w)) /\
  balanced (trace_of (CreateSingleVolume rootFile volume w)).
Proof.
  split_and!.
  - apply (fn_post_elim _ _ _ (formatDeviceAndCopyContents_balanced folder dev w)).
  - apply (fn_post_elim _ _ _ (copyToPart_balanced folder part w)).
  - apply (fn_post_elim _ _ _ (CopyToImgFile_balanced folder imgfile w)).
  - apply (fn_post_elim _ _ _ (CreateSingleVolume_balanced rootFile volume w)).
Qed.

(** X3.  [CreateBootImageOnFile] and [CreateBootImageWithSize] give back
    what they took, last taken first, on every path: the sparse file
    and the files of the bootloader are closed before the next step,
    the mount point is unmounted before the partition, the mapped
    device and the loop device are released. *)
Theorem boot_image_gives_back
    (w : W) (rootFile progPath commandline : string) (size : DiskSize) :
  balanced (trace_of (CreateBootImageOnFile rootFile size progPath commandline w)) /\
  balanced (trace_of (CreateBootImageWithSize rootFile progPath commandline size w)).
Proof.
  split.
  - apply (fn_post_elim _ _ _
             (CreateBootImageOnFile_balanced rootFile size progPath commandline w)).
  - apply (fn_post_elim _ _ _
             (CreateBootImageWithSize_balanced rootFile progPath commandline size w)).
Qed.
End GivingBack.

Ltac reports_end :=
  unfold reports, outcome_of, trace_of, NewLoDevice;
  cbn [fst snd app first_failure file_steps creations staging_steps format_steps
       population_steps single_volume_steps rerr forallb is_giving_back andb];
  first [reflexivity | split; reflexivity].

Section Reports.
Context {W : Type} {H : Host W}.

Lemma writeBootTemplate_reports fname rootDrive commandline (w : W) :
  reports creations (writeBootTemplate fname rootDrive commandline w).
Proof.
  apply fn_post_intro. apply fn_writeBootTemplate.
  intros [[e|] ? ? ?] w1 E; cbn [rerr]; [|intros]; reports_end.
Qed.

Lemma writeDeviceMap_reports fname rootDevice (w : W) :
  reports creations (writeDeviceMap fname rootDevice w).
Proof.
  apply fn_post_intro. apply fn_writeDeviceMap.
  intros [[e|] ? ? ?] w1 E; cbn [rerr]; [|intros]; reports_end.
Qed.

Lemma PrepareGrub_reports folder rootDeviceName kernel commandline (w : W) :
  reports staging_steps (PrepareGrub folder rootDeviceName kernel commandline w).
Proof.
  apply fn_post_intro. unfold PrepareGrub. wp_go.
  all: reports_end.
Qed.

Lemma formatDeviceAndCopyContents_reports folder dev (w : W) :
  reports format_steps (formatDeviceAndCopyContents folder dev w).
Proof.
  apply fn_post_intro. unfold formatDeviceAndCopyContents. wp_go.
  all: reports_end.
Qed.

Lemma copyToPart_reports folder part (w : W) :
  reports population_steps (copyToPart folder part w).
Proof.
  apply fn_post_intro. unfold copyToPart. wp_go.
  all: reports_end.
Qed.

Lemma CopyToImgFile_reports folder imgfile (w : W) :
  reports population_steps (CopyToImgFile folder imgfile w).
Proof.
  apply fn_post_intro. unfold CopyToImgFile. wp_go.
  all: reports_end.
Qed.

End Reports.

Section Reporting.
Context {W : Type} {H : Host W}.

(** X5.  [createSparseFile] returns the error of [os.Create], of [Seek]
    or of [Write], whichever fails first, and does nothing after it but
    close the file; it returns no error otherwise, whatever [Close]
    reports. *)
Theorem createSparseFile_reports_file_steps
    (w : W) (filename : string) (size : DiskSize) :
  reports file_steps (createSparseFile filename size w).
Proof.
  apply fn_post_intro. unfold createSparseFile. wp_go.
  all: reports_end.
Qed.

(** X6.  [writeBootTemplate] and [writeDeviceMap] return the error of
    [os.Create] and no other: a template that cannot be written goes
    unreported.  [PrepareGrub] returns the error of the copy of the
    kernel or of the first [os.Create] that fails, and stops there; a
    failure of [os.MkdirAll] or of a write goes unreported. *)
Theorem grub_staging_reports
    (w : W) (fname rootDrive rootDevice folder kernel commandline : string) :
  reports creations (writeBootTemplate fname rootDrive commandline w) /\
  reports creations (writeDeviceMap fname rootDevice w) /\
  reports staging_steps (PrepareGrub folder rootDevice kernel commandline w).
Proof.
  split_and!;
    [apply writeBootTemplate_reports|apply writeDeviceMap_reports
    |apply PrepareGrub_reports].
Qed.

(** X7.  [formatDeviceAndCopyContents] returns the error of mkfs or of
    the mount, and [copyToPart] and [CopyToImgFile] that of the
    acquisition, of mkfs or of the mount, whichever fails first; after
    it they only give back what they hold.  A copy of the directory
    that fails goes unreported. *)
Theorem population_reports
    (w : W) (folder dev imgfile : string) (part : Part) :
  reports format_steps (formatDeviceAndCopyContents folder dev w) /\
  reports population_steps (copyToPart folder part w) /\
  reports population_steps (CopyToImgFile folder imgfile w).
Proof.
  split_and!;
    [apply formatDeviceAndCopyContents_reports|apply copyToPart_reports
    |apply CopyToImgFile_reports].
Qed.

(** X8.  [CreateSingleVolume] returns the error of the first step that
    fails among the measurement, the creation of the sparse file, the
    acquisition of the loop device, mkfs and the mount, and does nothing
    after it but give back what it holds; the size it computed is always
    a whole number of sectors, so that the conversion to sectors never
    fails; a copy of the directory that fails goes unreported. *)
Theorem CreateSingleVolume_reports_steps
    (w : W) (rootFile : string) (folder : types.RawVolume) :
  reports single_volume_steps (CreateSingleVolume rootFile folder w).
Proof.
  apply fn_post_intro. unfold CreateSingleVolume. wp_wrappers. wp_run.
  { reports_end. }
  fold (single_volume_size (int64 num)).
  unfold ToSectors. rewrite decide_True by apply single_volume_size_aligned.
  wp_go.
  all: reports_end.
Qed.
End Reporting.

Lemma int64_wraps x : 2 ^ 63 <= x < 2 ^ 64 -> int64 x = x - 2 ^ 64.
Proof.
  intros Hx. unfold int64.
  assert (2 ^ 63 = 9223372036854775808) as E63 by reflexivity.
  assert (2 ^ 64 = 18446744073709551616) as E64 by reflexivity.
  rewrite E63, E64 in *.
  replace (x + 9223372036854775808)
    with ((x - 9223372036854775808) + 1 * 18446744073709551616) by lia.
  rewrite Z.mod_add, Z.mod_small by lia. lia.
Qed.

Section SparseFile.
Context {W : Type} {H : Host W}.

(** X9.  [createSparseFile] seeks once at most, from the start of the
    file, and writes one zero byte at most.  For a size of 1 to 2^63
    bytes the offset is the size minus one, so that a successful call
    leaves a file of that size; for a size of zero, or of more than
    2^63 bytes, the offset is negative. *)
Theorem createSparseFile_offset (w : W) (filename : string) (size : DiskSize) :
  let run := createSparseFile filename size w in
  let tr := trace_of run in
  (0 < ToBytes size <= 2 ^ 63 ->
   seeks tr `prefix_of` [(filename, ToBytes size - 1, 0)] /\
   writes tr `prefix_of` [(filename, String "000" EmptyString)] /\
   (outcome_of run = Done None ->
    seeks tr = [(filename, ToBytes size - 1, 0)] /\
    writes tr = [(filename, String "000" EmptyString)])) /\
  (ToBytes size = 0 \/ 2 ^ 63 < ToBytes size ->
   forall f offset whence, (f, offset, whence) ∈ seeks tr -> offset < 0).
Proof.
  intros run tr. subst tr run.
  assert (2 ^ 63 = 9223372036854775808) as E63 by reflexivity.
  assert (2 ^ 64 = 18446744073709551616) as E64 by reflexivity.
  pose proof (ToBytes_range size) as Hrange.
  split.
  - intros Hsize.
    assert (int64 (int64 (ToBytes size) - 1) = ToBytes size - 1) as Eoff.
    { destruct (decide (ToBytes size = 2 ^ 63)) as [->|Hne]; [by vm_compute|].
      rewrite (int64_small (ToBytes size)) by lia. apply int64_small. lia. }
    wp_start. unfold createSparseFile. rewrite Eoff. wp_go.
    all: wp_end; cbn [seeks omap list_omap];
      split_and!; [solve_prefix..|first [discriminate | by intros _]].
  - intros Hsize.
    assert (int64 (int64 (ToBytes size) - 1) < 0) as Eoff.
    { destruct Hsize as [->|Hsize].
      - by vm_compute.
      - rewrite (int64_wraps (ToBytes size)) by lia.
        rewrite int64_small by lia. lia. }
    wp_start. unfold createSparseFile.
    generalize dependent (int64 (int64 (ToBytes size) - 1)). intros offset Hoff.
    wp_go.
    all: wp_end; cbn [seeks omap list_omap]; intros f o wh Hin.
    all: repeat (apply elem_of_cons in Hin as [[= -> -> ->]|Hin]; [done|]).
    all: by apply elem_of_nil in Hin.
Qed.
End SparseFile.

Lemma createSparseFile_offset_witness :
  let run := createSparseFile (H := Sim.host Scenarios.plain)
               "/tmp/vol.img" (MegaBytes 64) Sim.start_world in
  seeks (trace_of run) = [("/tmp/vol.img"%string, 67108863, 0)] /\
  forall f offset whence,
    (f, offset, whence)
      ∈ seeks (trace_of (createSparseFile (H := Sim.host Scenarios.plain)
                           "/tmp/vol.img" (Bytes 0) Sim.start_world)) ->
    offset < 0.
Proof.
  intros run.
  pose proof (createSparseFile_offset (H := Sim.host Scenarios.plain)
                Sim.start_world "/tmp/vol.img" (MegaBytes 64)) as [Hin _].
  pose proof (createSparseFile_offset (H := Sim.host Scenarios.plain)
                Sim.start_world "/tmp/vol.img" (Bytes 0)) as [_ Hout].
  split.
  - destruct Hin as (_ & _ & Hdone); [by vm_compute|].
    destruct Hdone as [Hs _]; [by vm_compute|]. exact Hs.
  - apply Hout. left. by vm_compute.
Defined.

(** ** Population with enough partitions *)

Lemma copy_completes folders parts i ev out :
  copy_run folders parts i ev out ->
  (i + length folders <= length parts)%nat -> out = Completed tt.
Proof.
  induction 1 as [| folder folders parts i part ev1 ev out Hp Hev1 Hrun IH
                  | folder folders parts i Hp]; cbn [length]; intros Hlen.
  - done.
  - apply IH. lia.
  - apply lookup_ge_None_1 in Hp. lia.
Qed.

(** With a final enumeration that lists enough partitions, and as many as
    there are folders where that is checked, the assembly completes. *)
Lemma assembly_completes imgFile mkp sizes total folders check out eva parts err :
  assembly_run imgFile mkp sizes total folders check out eva ->
  enumerations eva !! length sizes = Some (parts, err) ->
  (length folders <= length parts)%nat ->
  (check = true -> length parts = length folders) ->
  out = Completed tt /\ copies eva = zip folders parts.
Proof.
  intros Hrun Hfinal Hlen Hcheck.
  destruct (assembly_layout _ _ _ _ _ _ _ _ Hrun)
    as [(_ & Hnone & _)|(p & dev & evl & outl & fin & Hl & _ & Henum & Hfin)].
  { by rewrite Hnone in Hfinal. }
  destruct (layout_lengths _ _ _ _ _ _ Hl) as (Hl1 & Hl2 & Hl3).
  rewrite Henum in Hfinal.
  destruct Hfin as [(-> & _ & Hout)|(s & rl & -> & -> & Hcopy)].
  { rewrite app_nil_r in Hfinal. apply lookup_lt_Some in Hfinal. lia. }
  destruct (Hl3 s eq_refl) as [_ Hn].
  rewrite lookup_app_r, Hn, Nat.sub_diag in Hfinal by lia.
  injection Hfinal as <- <-.
  destruct Hcopy as [(Hc & Hne & _)|(evc & _ & Hc & Hcopies)].
  { by specialize (Hcheck Hc). }
  pose proof (copy_completes _ _ _ _ _ Hc ltac:(lia)) as ->.
  split; [done|]. rewrite Hcopies.
  destruct (copy_copies _ _ _ _ _ Hc) as (_ & Hdone & _).
  destruct (Hdone eq_refl) as [-> _]. by rewrite drop_0.
Qed.

Section Population.
Context {W : Type} {H : Host W}.

(** X10.  [CreateVolumes] drops what [copyToPart] returns, and the error of
    the final enumeration: whenever the final enumeration lists as many
    partitions as there are volumes, the call returns no error, after
    one [copyToPart] for every volume, the i-th folder into the i-th
    partition, whatever the enumeration and the populations reported. *)
Theorem CreateVolumes_population_unreported
    (w : W) (imgFile : string) (volumes : list types.RawVolume)
    (newPartitioner : string -> Partitioner) parts err :
  let run := CreateVolumes imgFile volumes newPartitioner w in
  enumerations (trace_of run) !! length volumes = Some (parts, err) ->
  length parts = length volumes ->
  outcome_of run = Done None /\
  copies (trace_of run) = zip (map types.Path volumes) parts.
Proof.
  intros run Hfinal Hlen. subst run.
  pose proof (fn_post_elim _ _ _ (CreateVolumes_runs imgFile volumes newPartitioner w))
    as [(e & Hsz & _)|(ev & sizes & total & out & eva & Hsz & Hrun & Htr & Hout)].
  { destruct (sizing_quiet _ _ _ _ _ Hsz) as (_ & Hq & _).
    by rewrite Hq in Hfinal. }
  destruct (sizing_quiet _ _ _ _ _ Hsz) as (_ & Hq & _ & Hc & _).
  rewrite Htr, enumerations_app, copies_app, Hq, Hc in *. cbn [app] in *.
  pose proof (sizing_length _ _ _ _ _ _ _ Hsz eq_refl) as Hn. simpl in Hn.
  rewrite <- Hn in Hfinal.
  destruct (assembly_completes _ _ _ _ _ _ _ _ parts err Hrun Hfinal) as [-> Hcopies].
  - rewrite length_map. lia.
  - intros _. by rewrite length_map.
  - done.
Qed.

(** X11.  [CreatePartitionedVolumes] likewise: whenever the final
    enumeration lists at least as many partitions as there are volumes,
    the call returns the keys and no error, after one [copyToPart] for
    every key. *)
Theorem CreatePartitionedVolumes_population_unreported
    (w : W) (imgFile : string) (volumes : gmap string types.RawVolume) parts err :
  let run := CreatePartitionedVolumes imgFile volumes w in
  let keys := range_order volumes w in
  enumerations (trace_of run) !! size volumes = Some (parts, err) ->
  (size volumes <= length parts)%nat ->
  outcome_of run = Done (keys, None) /\
  copies (trace_of run)
    = zip (map (fun k => types.Path (map_index types.zero volumes k)) keys) parts.
Proof.
  intros run keys Hfinal Hlen. subst run.
  pose proof (fn_post_elim _ _ _ (CreatePartitionedVolumes_runs imgFile volumes w))
    as [(ev & e & Hsz & Htr & _)
       |(ev & sizes & ordered & total & out & eva & Hsz & Hrun & Htr & Hout)].
  { destruct (sizing_map_quiet _ _ _ _ _ _ _ Hsz) as (_ & Hq & _).
    rewrite Htr in Hfinal.
    change (enumerations (EvRange ?k :: ?l)) with (enumerations l) in Hfinal.
    by rewrite Hq in Hfinal. }
  destruct (sizing_map_quiet _ _ _ _ _ _ _ Hsz) as (_ & Hq & _ & Hc & _).
  destruct (sizing_map_keys _ _ _ _ _ _ _ _ _ _ Hsz eq_refl) as [Hord _].
  simpl in Hord. subst ordered. fold keys in Hrun, Hout.
  rewrite Htr in *.
  change (enumerations (EvRange ?k :: ?l)) with (enumerations l) in Hfinal.
  change (copies (EvRange ?k :: ?l)) with (copies l).
  rewrite enumerations_app, Hq in Hfinal. rewrite copies_app, Hc. cbn [app] in *.
  rewrite <- (range_order_length volumes w) in Hfinal, Hlen. fold keys in Hfinal, Hlen.
  rewrite <- (length_map (map_index 0 sizes)) in Hfinal.
  destruct (assembly_completes _ _ _ _ _ _ _ _ parts err Hrun Hfinal) as [-> Hcopies].
  - by rewrite length_map.
  - done.
  - done.
Qed.
End Population.

Lemma CreateVolumes_population_unreported_witness :
  let run := CreateVolumes (H := Sim.host Scenarios.no_mkfs)
               "/tmp/vol.img" Scenarios.two_volumes DiskLabelPartioner
               Sim.start_world in
  length (failures (trace_of run)) = 2%nat /\
  outcome_of run = Done None /\
  copies (trace_of run)
    = zip ["/data/a"; "/data/b"]%string (Sim.table run.2).
Proof.
  intros run. split; [by vm_compute|].
  apply (CreateVolumes_population_unreported (H := Sim.host Scenarios.no_mkfs)
           Sim.start_world "/tmp/vol.img" Scenarios.two_volumes DiskLabelPartioner
           (Sim.table run.2) None).
  - by vm_compute.
  - by vm_compute.
Defined.

Lemma CreatePartitionedVolumes_population_unreported_witness :
  let run := CreatePartitionedVolumes (H := Sim.host Scenarios.no_mkfs)
               "/tmp/vol.img" Scenarios.two_mounts Sim.start_world in
  length (failures (trace_of run)) = 2%nat /\
  outcome_of run
    = Done (range_order (Host := Sim.host Scenarios.no_mkfs)
              Scenarios.two_mounts Sim.start_world, None).
Proof.
  intros run. split; [by vm_compute|].
  apply (CreatePartitionedVolumes_population_unreported
           (H := Sim.host Scenarios.no_mkfs)
           Sim.start_world "/tmp/vol.img" Scenarios.two_mounts
           (Sim.table run.2) None).
  - by vm_compute.
  - vm_compute. lia.
Defined.

Lemma failed_measures_app a b :
  failed_measures (a ++ b) = failed_measures a ++ failed_measures b.
Proof. apply omap_app. Qed.

Lemma sizing_failed_measures vs sizes total ev out :
  sizing_run vs sizes total ev out ->
  forallb is_sizing ev = true /\
  match out with
  | Failed e => exists dir, failed_measures ev = [(dir, e)]
  | _ => failed_measures ev = []
  end.
Proof.
  induction 1 as [| v vs sizes0 total0 rep ev out Hsz Hok Hrun IH
                  | v vs sizes0 total0 rep e Hsz Hfail
                  | v vs sizes0 total0 ev out Hsz Hrun IH]; try done.
  - destruct IH as [IH1 IH2]. split; [done|].
    unfold failed_measures in *. cbn [omap list_omap]. by rewrite Hok.
  - split; [done|]. exists (types.Path v).
    unfold failed_measures. cbn [omap list_omap]. by rewrite Hfail.
Qed.

Lemma sizing_map_failed_measures volumes ks sizes ordered total ev out :
  sizing_map_run volumes ks sizes ordered total ev out ->
  forallb is_sizing ev = true /\
  match out with
  | Failed e => exists dir, failed_measures ev = [(dir, e)]
  | _ => failed_measures ev = []
  end.
Proof.
  induction 1 as [| k ks sizes0 ordered0 total0 rep ev out Hok Hrun IH
                  | k ks sizes0 ordered0 total0 rep e Hfail]; try done.
  - destruct IH as [IH1 IH2]. split; [done|].
    unfold failed_measures in *. cbn [omap list_omap]. by rewrite Hok.
  - split; [done|]. eexists.
    unfold failed_measures. cbn [omap list_omap]. by rewrite Hfail.
Qed.

Lemma layout_no_measures p dev start sizes ev out :
  layout_run p dev start sizes ev out -> failed_measures ev = [].
Proof. induction 1; try done. Qed.

Lemma copy_no_measures folders parts i ev out :
  copy_run folders parts i ev out -> failed_measures ev = [].
Proof.
  induction 1 as [| ? ? ? ? ? ev1 ? ? ? Hev1 ? IH|]; try done.
  change (EvEnter ?f :: ?a ++ ?b) with ((EvEnter f :: a) ++ b).
  rewrite failed_measures_app, IH, app_nil_r.
  change (failed_measures (EvEnter ?f :: ?a)) with (failed_measures a).
  unfold failed_measures. quiet.
Qed.

Lemma assembly_no_measures imgFile mkp sizes total folders check out eva :
  assembly_run imgFile mkp sizes total folders check out eva ->
  failed_measures eva = [].
Proof.
  destruct 1 as [evf e Hf | evf rep e Hf Hrep | evf rep rt evl e rrel Hf Hrep Hl
                 | evf rep rt evl rrel Hf Hrep Hl
                 | evf rep rt evl start rl rrel Hf Hrep Hl Hcheck Hlen
                 | evf rep rt evl start rl evc out rrel Hf Hrep Hl Hcheck Hc Hout];
    assert (failed_measures evf = []) as Hq by (unfold failed_measures; quiet);
    try pose proof (layout_no_measures _ _ _ _ _ _ Hl) as Hql;
    try pose proof (copy_no_measures _ _ _ _ _ Hc) as Hqc;
    change (EvEnter ?f :: ?a) with ([EvEnter f] ++ a);
    repeat (rewrite ?failed_measures_app, ?Hq, ?Hql, ?Hqc;
            repeat change (?x :: ?l ++ ?m) with ([x] ++ l ++ m));
    rewrite ?failed_measures_app, ?Hq, ?Hql, ?Hqc; done.
Qed.

Section Measures.
Context {W : Type} {H : Host W}.

(** X12.  When the measurement of a directory fails, [CreateVolumes] and
    [CreatePartitionedVolumes] return its error and have done nothing
    but measure: no file is created and no device attached. *)
Theorem failed_measure_ends_the_sizing
    (w : W) (imgFile : string) (volumes : list types.RawVolume)
    (newPartitioner : string -> Partitioner)
    (mounts : gmap string types.RawVolume) :
  let listed := CreateVolumes imgFile volumes newPartitioner w in
  let mapped := CreatePartitionedVolumes imgFile mounts w in
  (forall dir e, (dir, e) ∈ failed_measures (trace_of listed) ->
     outcome_of listed = Done (Some e) /\
     forallb is_sizing (trace_of listed) = true) /\
  (forall dir e, (dir, e) ∈ failed_measures (trace_of mapped) ->
     outcome_of mapped = Done ([], Some e) /\
     forallb is_sizing (trace_of mapped) = true).
Proof.
  intros listed mapped. split; intros dir e Hin.
  - subst listed.
    pose proof (fn_post_elim _ _ _ (CreateVolumes_runs imgFile volumes newPartitioner w))
      as [(e' & Hsz & ->)|(ev & sizes & total & out & eva & Hsz & Hrun & Htr & _)].
    + destruct (sizing_failed_measures _ _ _ _ _ Hsz) as [Hall [dir' Hone]].
      rewrite Hone in Hin. apply list_elem_of_singleton in Hin. by injection Hin as -> ->.
    + destruct (sizing_failed_measures _ _ _ _ _ Hsz) as [_ Hnone].
      rewrite Htr, failed_measures_app, Hnone,
        (assembly_no_measures _ _ _ _ _ _ _ _ Hrun) in Hin.
      by apply elem_of_nil in Hin.
  - subst mapped.
    pose proof (fn_post_elim _ _ _ (CreatePartitionedVolumes_runs imgFile mounts w))
      as [(ev & e' & Hsz & Htr & ->)
         |(ev & sizes & ordered & total & out & eva & Hsz & Hrun & Htr & _)].
    + destruct (sizing_map_failed_measures _ _ _ _ _ _ _ Hsz) as [Hall [dir' Hone]].
      rewrite Htr in *.
      change (failed_measures (EvRange ?k :: ?l)) with (failed_measures l) in Hin.
      rewrite Hone in Hin. apply list_elem_of_singleton in Hin. injection Hin as -> ->.
      split; [done|]. cbn [forallb is_sizing]. by rewrite Hall.
    + destruct (sizing_map_failed_measures _ _ _ _ _ _ _ Hsz) as [_ Hnone].
      rewrite Htr in Hin.
      change (failed_measures (EvRange ?k :: ?l)) with (failed_measures l) in Hin.
      rewrite failed_measures_app, Hnone,
        (assembly_no_measures _ _ _ _ _ _ _ _ Hrun) in Hin.
      by apply elem_of_nil in Hin.
Qed.
End Measures.

Lemma failed_measure_ends_the_sizing_witness :
  let listed := CreateVolumes (H := Sim.host Scenarios.no_measure)
                  "/tmp/vol.img" Scenarios.two_volumes DiskLabelPartioner
                  Sim.start_world in
  outcome_of listed = Done (Some "failed"%string) /\
  forallb is_sizing (trace_of listed) = true.
Proof.
  intros listed.
  apply (proj1 (failed_measure_ends_the_sizing (H := Sim.host Scenarios.no_measure)
                  Sim.start_world "/tmp/vol.img" Scenarios.two_volumes
                  DiskLabelPartioner ∅) "/data/a"%string "failed"%string).
  vm_compute. by left.
Defined.

Lemma image_size_zero : image_size 0 = 4194816.
Proof. by vm_compute. Qed.

Section Empty.
Context {W : Type} {H : Host W}.

Lemma range_order_empty (w : W) : range_order ∅ w = [].
Proof.
  apply Permutation_nil_r. rewrite (range_order_perm ∅ w).
  by rewrite map_to_list_empty.
Qed.

(** X13.  Without volumes [CreateVolumes] still allocates an image, of
    4 MB and a sector, attaches it and creates the table; it measures,
    requests and copies nothing, never panics, and once it has
    enumerated the partitions it returns no error when the table is
    empty and "Not enough parts created!" otherwise. *)
Theorem CreateVolumes_without_volumes
    (w : W) (imgFile : string) (newPartitioner : string -> Partitioner) :
  let run := CreateVolumes imgFile [] newPartitioner w in
  let tr := trace_of run in
  sparse_files tr = [(imgFile, Bytes 4194816)] /\
  measured tr = [] /\ requests tr = [] /\ copies tr = [] /\
  (exists r, outcome_of run = Done r) /\
  (forall parts err, enumerations tr = [(parts, err)] ->
     outcome_of run
       = Done (match parts with
               | [] => None
               | _ => Some "Not enough parts created!"%string
               end)).
Proof.
  intros run tr. subst tr run.
  wp_start. unfold CreateVolumes. cbn [for_range].
  apply fn_func. apply wp_bind. apply wp_ret. wp_simpl. apply wp_bind.
  change (wrap64 (and_not (wrap64 (SectorSize + 0 + 0 / 10)) (SectorSize - 1)
                  + ToBytes (MegaBytes 4))) with (image_size 0).
  rewrite image_size_zero.
  wp_go.
  all: try solve [wp_end; split_and!; [reflexivity..|by eexists|intros ? ? [=]]].
  cbn [for_range]. wp_go.
  destruct parts4 as [|p parts4]; cbn [length]; case_decide; try done.
  - cbn [for_range]. wp_go. wp_end. split_and!; [reflexivity..|by eexists|].
    by intros ? ? [= <- <-].
  - wp_go. wp_end. split_and!; [reflexivity..|by eexists|].
    by intros ? ? [= <- <-].
Qed.

(** X14.  Without volumes [CreatePartitionedVolumes] allocates the same
    image and creates the table; it never panics and, once the
    partitions are enumerated, returns no keys and no error, whatever
    the enumeration reports. *)
Theorem CreatePartitionedVolumes_without_volumes (w : W) (imgFile : string) :
  let run := CreatePartitionedVolumes imgFile ∅ w in
  let tr := trace_of run in
  sparse_files tr = [(imgFile, Bytes 4194816)] /\
  measured tr = [] /\ requests tr = [] /\ copies tr = [] /\
  (exists r, outcome_of run = Done r) /\
  (forall parts err, enumerations tr = [(parts, err)] ->
     outcome_of run = Done ([], None)).
Proof.
  intros run tr. subst tr run.
  wp_start. unfold CreatePartitionedVolumes.
  apply fn_func. apply wp_bind. apply wp_range_map. rewrite range_order_empty.
  cbn [for_range]. wp_simpl.
  apply wp_bind. apply wp_ret. wp_simpl. apply wp_bind.
  change (wrap64 (and_not (wrap64 (SectorSize + 0 + 0 / 10)) (SectorSize - 1)
                  + ToBytes (MegaBytes 4))) with (image_size 0).
  rewrite image_size_zero.
  wp_go.
  all: try solve [wp_end; split_and!; [reflexivity..|by eexists|intros ? ? [=]]].
  cbn [for_range]. wp_go.
  wp_end. split_and!; [reflexivity..|by eexists|done].
Qed.
End Empty.

(** ** Layout before population *)

Lemma tables_app a b : tables (a ++ b) = tables a ++ tables b.
Proof. apply omap_app. Qed.

Lemma copy_no_tables folders parts i ev out :
  copy_run folders parts i ev out -> tables ev = [].
Proof.
  induction 1 as [| ? ? ? ? ? ev1 ? ? ? Hev1 ? IH|]; try done.
  change (EvEnter ?f :: ?a ++ ?b) with ((EvEnter f :: a) ++ b).
  rewrite tables_app, IH, app_nil_r.
  change (tables (EvEnter ?f :: ?a)) with (tables a).
  unfold tables. quiet.
Qed.

Lemma assembly_phases imgFile mkp sizes total folders check out eva :
  assembly_run imgFile mkp sizes total folders check out eva ->
  layout_then_population eva.
Proof.
  destruct 1 as [evf e Hf | evf rep e Hf Hrep | evf rep rt evl e rrel Hf Hrep Hl
                 | evf rep rt evl rrel Hf Hrep Hl
                 | evf rep rt evl start rl rrel Hf Hrep Hl Hcheck Hlen
                 | evf rep rt evl start rl evc out rrel Hf Hrep Hl Hcheck Hc Hout];
    destruct (file_events_quiet _ Hf) as (_ & _ & _ & Hq4 & _);
    try destruct (layout_quiet _ _ _ _ _ _ Hl) as (_ & Hl2 & _).
  1-5: eexists _, []; rewrite app_nil_r;
    (split_and!; [reflexivity| |done..]); project; rewrite ?Hq4, ?Hl2; done.
  exists (EvEnter (FcreateSparseFile imgFile (Bytes (image_size total))) :: evf ++
          EvHost (CAcquire (LoDevice imgFile)) rep ::
          EvHost (CMakeTable (mkp (rname rep))) rt :: evl ++
          [EvHost (CListParts (rname rep)) rl]),
         (evc ++ [EvHost (CRelease (LoDevice imgFile)) rrel]).
  destruct (copy_quiet _ _ _ _ _ Hc) as (Hc1 & Hc2 & Hc3 & Hc4 & _).
  pose proof (copy_no_tables _ _ _ _ _ Hc) as Hc5.
  split_and!.
  - cbn [app]. rewrite <- !app_assoc. cbn [app]. by rewrite <- !app_assoc.
  - project. rewrite ?Hq4, ?Hl2. done.
  - by rewrite sparse_files_app, Hc3.
  - by rewrite tables_app, Hc5.
  - by rewrite requests_app, Hc1.
  - by rewrite enumerations_app, Hc2.
  - by rewrite measured_app, Hc4.
Qed.

Lemma layout_then_population_after ev eva :
  copies ev = [] -> layout_then_population eva ->
  layout_then_population (ev ++ eva).
Proof.
  intros Hev (pre & post & -> & Hpre & Hpost).
  exists (ev ++ pre), post. split_and!; [by rewrite app_assoc| |apply Hpost..].
  by rewrite copies_app, Hev, Hpre.
Qed.

Section Phases.
Context {W : Type} {H : Host W}.

(** X15.  In every run of [CreateVolumes] and of [CreatePartitionedVolumes]
    the population comes after the whole layout: once the first
    partition is being populated, no file is allocated, no table
    created, no partition requested or enumerated, and no directory
    measured. *)
Theorem population_follows_layout
    (w : W) (imgFile : string) (volumes : list types.RawVolume)
    (newPartitioner : string -> Partitioner)
    (mounts : gmap string types.RawVolume) :
  layout_then_population
    (trace_of (CreateVolumes imgFile volumes newPartitioner w)) /\
  layout_then_population
    (trace_of (CreatePartitionedVolumes imgFile mounts w)).
Proof.
  split.
  - pose proof (fn_post_elim _ _ _ (CreateVolumes_runs imgFile volumes newPartitioner w))
      as [(e & Hsz & _)|(ev & sizes & total & out & eva & Hsz & Hrun & -> & _)];
      destruct (sizing_quiet _ _ _ _ _ Hsz) as (_ & _ & _ & Hc & _).
    + eexists _, []. rewrite app_nil_r. by split_and!.
    + apply layout_then_population_after; [done|by eapply assembly_phases].
  - pose proof (fn_post_elim _ _ _ (CreatePartitionedVolumes_runs imgFile mounts w))
      as [(ev & e & Hsz & -> & _)
         |(ev & sizes & ordered & total & out & eva & Hsz & Hrun & -> & _)];
      destruct (sizing_map_quiet _ _ _ _ _ _ _ Hsz) as (_ & _ & _ & Hc & _).
    + eexists _, []. rewrite app_nil_r. by split_and!.
    + change (EvRange ?k :: ?a ++ ?b) with ((EvRange k :: a) ++ b).
      apply layout_then_population_after; [done|by eapply assembly_phases].
Qed.
End Phases.

(** ** The extents requested *)

(** The sizes of the sizing loop are 64-bit values. *)
Lemma sizing_sizes_wrapped vs sizes0 total0 ev out sizes total :
  sizing_run vs sizes0 total0 ev out -> out = Completed (sizes, total) ->
  map wrap64 sizes0 = sizes0 -> map wrap64 sizes = sizes.
Proof.
  induction 1 as [| ? ? ? ? ? ? ? ? ? ? IH| |? ? ? ? ? ? ? ? IH]; intros Hout Hw;
    try done.
  - by injection Hout as <- <-.
  - apply IH; [done|]. rewrite map_app, Hw. cbn [map]. by rewrite wrap64_idemp.
  - apply IH; [done|]. rewrite map_app, Hw. cbn [map]. by rewrite wrap64_idemp.
Qed.

Section Extents.
Context {W : Type} {H : Host W}.

(** X16.  Without overflow, [CreateVolumes] requests for the i-th volume a
    partition of exactly the size of the volume: the explicit size when
    it is not zero, the measured size and 2 MB otherwise; a call that
    succeeds has requested one for every volume. *)
Theorem CreateVolumes_requests_the_sizes
    (w : W) (imgFile : string) (volumes : list types.RawVolume)
    (newPartitioner : string -> Partitioner) :
  let run := CreateVolumes imgFile volumes newPartitioner w in
  let tr := trace_of run in
  let dirs := (measured tr).*2 in
  Forall (fun v => 0 <= types.Size v) volumes ->
  Forall (fun d => 0 <= d) dirs ->
  sum_sizes (volume_sizes volumes dirs) < 2 ^ 64 ->
  map (fun '(s, e) => wrap64 (e - s)) (requests tr)
    `prefix_of` volume_sizes volumes dirs /\
  (outcome_of run = Done None ->
   map (fun '(s, e) => wrap64 (e - s)) (requests tr) = volume_sizes volumes dirs).
Proof.
  intros run tr dirs Hvs Hdirs Hbound. subst dirs tr run.
  pose proof (fn_post_elim _ _ _ (CreateVolumes_runs imgFile volumes newPartitioner w))
    as [(e & Hsz & Hout)|(ev & sizes & total & out & eva & Hsz & Hrun & Htr & Hout)].
  { destruct (sizing_quiet _ _ _ _ _ Hsz) as (Hq & _).
    rewrite Hq, Hout. split; [apply prefix_nil|done]. }
  destruct (sizing_quiet _ _ _ _ _ Hsz) as (Hq & _).
  destruct (assembly_quiet _ _ _ _ _ _ _ _ Hrun) as (_ & Hm & _).
  rewrite Htr, requests_app, measured_app, Hq, Hm, app_nil_r in *. cbn [app] in *.
  destruct (sizing_exact _ _ _ _ _ _ _ Hsz eq_refl Hvs Hdirs) as (Hsizes & _);
    [done|lia|]. cbn [app] in Hsizes.
  pose proof (sizing_sizes_wrapped _ _ _ _ _ _ _ Hsz eq_refl eq_refl) as Hw.
  destruct (assembly_extents _ _ _ _ _ _ _ _ Hrun) as [Hext Hlen].
  rewrite Hw, Hsizes in Hext. split; [done|].
  intros Hdone. destruct out as [[]|e|]; rewrite Hdone in Hout; try done.
  apply prefix_length_eq; [done|].
  rewrite length_map, (Hlen eq_refl), Hsizes. done.
Qed.
End Extents.

Lemma sum_sizes_nonneg l : Forall (fun s => 0 <= s) l -> 0 <= sum_sizes l.
Proof.
  induction 1 as [|x l Hx Hl IH]; [done|]. rewrite sum_sizes_cons. lia.
Qed.

Lemma layout_within p dev start sizes ev out :
  layout_run p dev start sizes ev out ->
  0 <= start -> Forall (fun s => 0 <= s) sizes ->
  start + sum_sizes sizes < 2 ^ 64 ->
  (forall (i : nat) s e parts err part,
     requests ev !! i = Some (s, e) -> enumerations ev !! i = Some (parts, err) ->
     last parts = Some part -> committed_end part = e) ->
  forall (i : nat) s e,
    requests ev !! i = Some (s, e) ->
    start <= s /\ s <= e /\ e <= start + sum_sizes sizes.
Proof.
  assert (2 ^ 64 = 18446744073709551616) as E64 by reflexivity.
  induction 1 as [| start size sizes r1 r2 part ev out Hr1 Hr2 Hlast Hrun IH
                  | start size sizes r1 e Hr1
                  | start size sizes r1 r2 e Hr1 Hr2
                  | start size sizes r1 r2 Hr1 Hr2 Hnil];
    intros Hstart Hsizes Hbound Hexact i s e' Hreq; [done|..];
    apply Forall_cons in Hsizes as [Hsize Hsizes];
    pose proof (sum_sizes_nonneg _ Hsizes) as Hsum;
    rewrite sum_sizes_cons in *;
    assert (wrap64 start = start) as Es by (apply wrap64_small; lia);
    assert (wrap64 (start + size) = start + size) as Ee by (apply wrap64_small; lia).
  - destruct i as [|i].
    + cbn in Hreq. unfold ToBytes in Hreq. rewrite wrap64_idemp, Es, Ee in Hreq.
      injection Hreq as <- <-. lia.
    + assert (wrap64 (ToBytes (Offset part) + ToBytes (Size part)) = start + size)
        as Enext.
      { fold (committed_end part).
        rewrite (Hexact 0%nat start (start + size) (rparts r2) (rerr r2) part);
          [done| |done|done].
        cbn. unfold ToBytes. by rewrite wrap64_idemp, Es, Ee. }
      rewrite Enext in IH.
      destruct (IH ltac:(lia) Hsizes ltac:(lia)) with (i := i) (s := s) (e := e')
        as (? & ? & ?); [|exact Hreq|lia].
      intros j sj ej parts err part' Hrj Hej Hlj.
      by apply (Hexact (S j) sj ej parts err part').
  - destruct i as [|i]; [|done].
    cbn in Hreq. unfold ToBytes in Hreq. rewrite wrap64_idemp, Es, Ee in Hreq.
    injection Hreq as <- <-. lia.
  - destruct i as [|i]; [|done].
    cbn in Hreq. unfold ToBytes in Hreq. rewrite wrap64_idemp, Es, Ee in Hreq.
    injection Hreq as <- <-. lia.
  - destruct i as [|i]; [|done].
    cbn in Hreq. unfold ToBytes in Hreq. rewrite wrap64_idemp, Es, Ee in Hreq.
    injection Hreq as <- <-. lia.
Qed.

(** Within an assembly: the requests lie between 2 MB and 2 MB plus the
    sum of the sizes. *)
Lemma assembly_within imgFile mkp sizes total folders check out eva :
  assembly_run imgFile mkp sizes total folders check out eva ->
  Forall (fun s => 0 <= s) sizes ->
  2097152 + sum_sizes sizes < 2 ^ 64 ->
  commits_as_requested eva ->
  forall (i : nat) s e,
    requests eva !! i = Some (s, e) ->
    2097152 <= s /\ s <= e /\ e <= 2097152 + sum_sizes sizes.
Proof.
  intros Hrun Hsizes Hbound Hexact i s e Hreq.
  destruct (assembly_layout _ _ _ _ _ _ _ _ Hrun)
    as [(Hnone & _)|(p & dev & evl & outl & fin & Hl & Hr & Henum & _)].
  { by rewrite Hnone in Hreq. }
  rewrite Hr in Hreq. rewrite MB2_value in Hl.
  apply (layout_within _ _ _ _ _ _ Hl ltac:(lia) Hsizes Hbound) with (i := i);
    [|done].
  intros j sj ej parts err part Hrj Hej Hlj.
  apply (Hexact j sj ej parts err part); [by rewrite Hr| |done].
  rewrite Henum. by apply lookup_app_l_Some.
Qed.

Lemma commits_as_requested_after ev eva :
  requests ev = [] -> enumerations ev = [] ->
  commits_as_requested (ev ++ eva) -> commits_as_requested eva.
Proof.
  intros Hr He Hexact i s e parts err part Hri Hei Hl.
  apply (Hexact i s e parts err part); [| |done].
  - by rewrite requests_app, Hr.
  - by rewrite enumerations_app, He.
Qed.

Section Within.
Context {W : Type} {H : Host W}.

(** X17.  With a backend that commits every partition up to the end
    requested for it, and without overflow, every partition that
    [CreateVolumes] requests starts at or after 2 MB and ends more than
    2 MB before the end of the image file. *)
Theorem CreateVolumes_partitions_within_image
    (w : W) (imgFile : string) (volumes : list types.RawVolume)
    (newPartitioner : string -> Partitioner) :
  let tr := trace_of (CreateVolumes imgFile volumes newPartitioner w) in
  let total := sum_sizes (volume_sizes volumes (measured tr).*2) in
  Forall (fun v => 0 <= types.Size v) volumes ->
  Forall (fun d => 0 <= d) (measured tr).*2 ->
  total + total / 10 + 512 + 4194304 < 2 ^ 64 ->
  commits_as_requested tr ->
  forall (i : nat) s e f size,
    requests tr !! i = Some (s, e) -> (f, size) ∈ sparse_files tr ->
    2097152 <= s /\ s <= e /\ e + 2097152 < ToBytes size.
Proof.
  intros tr total Hvs Hdirs Hbound Hexact i s e f size Hreq Hin. subst total tr.
  assert (2 ^ 64 = 18446744073709551616) as E64 by reflexivity.
  pose proof (fn_post_elim _ _ _ (CreateVolumes_runs imgFile volumes newPartitioner w))
    as [(e' & Hsz & Hout)|(ev & sizes & total & out & eva & Hsz & Hrun & Htr & Hout)].
  { destruct (sizing_quiet _ _ _ _ _ Hsz) as (Hq & _). by rewrite Hq in Hreq. }
  destruct (sizing_quiet _ _ _ _ _ Hsz) as (Hq1 & Hq2 & Hq3 & _).
  destruct (assembly_quiet _ _ _ _ _ _ _ _ Hrun) as (Hfile & Hm & _).
  rewrite Htr in Hexact. apply commits_as_requested_after in Hexact; [|done..].
  rewrite Htr, ?requests_app, ?sparse_files_app, ?measured_app, ?Hq1, ?Hq3, ?Hm,
    ?Hfile, ?app_nil_r in *.
  cbn [app] in *.
  pose proof (volume_sizes_nonneg _ _ Hvs Hdirs) as Hpos.
  assert (0 <= sum_sizes (volume_sizes volumes (measured ev).*2) / 10)
    by (apply Z.div_pos; lia).
  destruct (sizing_exact _ _ _ _ _ _ _ Hsz eq_refl Hvs Hdirs) as (Hsizes & Htotal & _);
    [done|lia|]. cbn [app] in Hsizes. rewrite Z.add_0_l in Htotal.
  apply list_elem_of_singleton in Hin. injection Hin as -> ->.
  pose proof (image_size_covers total ltac:(lia) ltac:(rewrite Htotal; lia)) as Hcover.
  assert (Forall (fun s => 0 <= s) sizes) as Hnonneg.
  { pose proof (sizing_sizes_wrapped _ _ _ _ _ _ _ Hsz eq_refl eq_refl) as Hw.
    rewrite <- Hw. apply Forall_forall. intros x [y [-> _]]%list_elem_of_fmap.
    apply wrap64_range. }
  destruct (assembly_within _ _ _ _ _ _ _ _ Hrun Hnonneg) with (i := i) (s := s) (e := e)
    as (? & ? & ?); [rewrite Hsizes; lia|done|done|].
  subst sizes total. lia.
Qed.

(** X18.  With a backend that commits every partition up to the end
    requested for it, and without overflow, every partition that
    [CreatePartitionedVolumes] requests starts at or after 2 MB and ends
    more than 2 MB before the end of the image file. *)
Theorem CreatePartitionedVolumes_partitions_within_image
    (w : W) (imgFile : string) (volumes : gmap string types.RawVolume) :
  let tr := trace_of (CreatePartitionedVolumes imgFile volumes w) in
  let total := sum_sizes (map (fun d => d + 2097152) (measured tr).*2) in
  Forall (fun d => 0 <= d) (measured tr).*2 ->
  total + total / 10 + 512 + 4194304 < 2 ^ 64 ->
  commits_as_requested tr ->
  forall (i : nat) s e f size,
    requests tr !! i = Some (s, e) -> (f, size) ∈ sparse_files tr ->
    2097152 <= s /\ s <= e /\ e + 2097152 < ToBytes size.
Proof.
  intros tr total Hdirs Hbound Hexact i s e f size Hreq Hin. subst total tr.
  assert (2 ^ 64 = 18446744073709551616) as E64 by reflexivity.
  pose proof (fn_post_elim _ _ _ (CreatePartitionedVolumes_runs imgFile volumes w))
    as [(ev & e' & Hsz & Htr & _)
       |(ev & sizes & ordered & total & out & eva & Hsz & Hrun & Htr & Hout)].
  { destruct (sizing_map_quiet _ _ _ _ _ _ _ Hsz) as (Hq & _).
    rewrite Htr in Hreq. change (requests (EvRange ?k :: ?l)) with (requests l) in Hreq.
    by rewrite Hq in Hreq. }
  destruct (sizing_map_quiet _ _ _ _ _ _ _ Hsz) as (Hq1 & Hq2 & Hq3 & _).
  destruct (assembly_quiet _ _ _ _ _ _ _ _ Hrun) as (Hfile & Hm & _).
  destruct (sizing_map_keys _ _ _ _ _ _ _ _ _ _ Hsz eq_refl) as [Hord _].
  simpl in Hord. subst ordered.
  destruct (sizing_map_lookup _ _ _ _ _ _ _ _ _ _ Hsz eq_refl
              (range_order_NoDup volumes w)) as [Hsizes _].
  rewrite Hsizes in Hrun.
  rewrite Htr in Hexact.
  change (EvRange ?k :: ?a ++ ?b) with ((EvRange k :: a) ++ b) in Hexact.
  apply commits_as_requested_after in Hexact; [|done..].
  rewrite Htr in *.
  change (requests (EvRange ?k :: ?l)) with (requests l) in Hreq.
  change (sparse_files (EvRange ?k :: ?l)) with (sparse_files l) in Hin.
  change (measured (EvRange ?k :: ?l)) with (measured l) in Hdirs, Hbound.
  rewrite ?requests_app, ?sparse_files_app, ?measured_app, ?Hq1, ?Hq3, ?Hm,
    ?Hfile, ?app_nil_r in *.
  cbn [app] in *.
  assert (0 <= sum_sizes (map (fun d => d + 2097152) (measured ev).*2)) as Hpos.
  { apply sum_sizes_nonneg. apply Forall_forall.
    intros x [d [-> Hd]]%list_elem_of_fmap.
    rewrite Forall_forall in Hdirs. specialize (Hdirs d Hd). lia. }
  assert (0 <= sum_sizes (map (fun d => d + 2097152) (measured ev).*2) / 10)
    by (apply Z.div_pos; lia).
  destruct (sizing_map_exact _ _ _ _ _ _ _ _ _ _ Hsz eq_refl Hdirs) as (Htotal & _);
    [done|lia|]. rewrite Z.add_0_l in Htotal.
  apply list_elem_of_singleton in Hin. injection Hin as -> ->.
  pose proof (image_size_covers total ltac:(lia) ltac:(rewrite Htotal; lia)) as Hcover.
  assert (Forall (fun s => 0 <= s)
            (map (fun d => wrap64 (wrap64 d + MB2)) (measured ev).*2)) as Hnonneg.
  { apply Forall_forall. intros x [y [-> _]]%list_elem_of_fmap. apply wrap64_range. }
  assert (sum_sizes (map (fun d => wrap64 (wrap64 d + MB2)) (measured ev).*2)
          <= sum_sizes (map (fun d => d + 2097152) (measured ev).*2)) as Hle.
  { clear -Hdirs. induction Hdirs as [|d ds Hd Hds IH]; [done|].
    cbn [map]. rewrite !sum_sizes_cons.
    pose proof (Z.mod_le (wrap64 d + MB2) (2 ^ 64)) as Hmod.
    pose proof (Z.mod_le d (2 ^ 64) Hd) as Hmod'.
    pose proof (wrap64_range d). rewrite MB2_value in *. unfold wrap64 in *. lia. }
  destruct (assembly_within _ _ _ _ _ _ _ _ Hrun Hnonneg) with (i := i) (s := s) (e := e)
    as (? & ? & ?); [lia|done|done|].
  subst total. lia.
Qed.
End Within.

Lemma CreateVolumes_requests_the_sizes_witness :
  let run := CreateVolumes (H := Sim.host Scenarios.plain)
               "/tmp/vol.img"
               [types.mkRawVolume "/data/a" 0; types.mkRawVolume "/data/b" 4096]
               DiskLabelPartioner Sim.start_world in
  map (fun '(s, e) => wrap64 (e - s)) (requests (trace_of run)) = [2098152; 4096].
Proof.
  intros run.
  destruct (CreateVolumes_requests_the_sizes (H := Sim.host Scenarios.plain)
              Sim.start_world "/tmp/vol.img"
              [types.mkRawVolume "/data/a" 0; types.mkRawVolume "/data/b" 4096]
              DiskLabelPartioner) as [_ Hdone].
  - repeat constructor; by vm_compute.
  - match goal with
    | |- Forall _ ?l => assert (l = [1000]) as -> by (by vm_compute)
    end.
    repeat constructor; lia.
  - by vm_compute.
  - etransitivity; [apply Hdone; by vm_compute|]. by vm_compute.
Defined.

Lemma CreateVolumes_partitions_within_image_witness :
  let tr := trace_of (CreateVolumes (H := Sim.host Scenarios.plain)
                        "/tmp/vol.img" Scenarios.two_volumes DiskLabelPartioner
                        Sim.start_world) in
  requests tr !! 1%nat = Some (4195304, 6293456) /\
  ("/tmp/vol.img"%string, Bytes 8810496) ∈ sparse_files tr /\
  2097152 <= 4195304 /\ 4195304 <= 6293456 /\
  6293456 + 2097152 < ToBytes (Bytes 8810496).
Proof.
  intros tr.
  assert (requests tr !! 1%nat = Some (4195304, 6293456)) as Hreq by (by vm_compute).
  assert (("/tmp/vol.img"%string, Bytes 8810496) ∈ sparse_files tr) as Hin.
  { assert (sparse_files tr = [("/tmp/vol.img"%string, Bytes 8810496)]) as ->
      by (by vm_compute).
    by apply list_elem_of_singleton. }
  split; [exact Hreq|]. split; [exact Hin|].
  apply (CreateVolumes_partitions_within_image (H := Sim.host Scenarios.plain)
           Sim.start_world "/tmp/vol.img" Scenarios.two_volumes DiskLabelPartioner)
    with (i := 1%nat) (f := "/tmp/vol.img"%string).
  - repeat constructor; by vm_compute.
  - match goal with
    | |- Forall _ ?l => assert (l = [1000; 1000]) as -> by (by vm_compute)
    end.
    repeat constructor; lia.
  - by vm_compute.
  - clear Hreq Hin. intros [|[|[|j]]] s e parts err part Hr He Hl;
      vm_compute in Hr, He; simplify_eq; vm_compute in Hl; simplify_eq;
      by vm_compute.
  - exact Hreq.
  - exact Hin.
Defined.

Lemma CreatePartitionedVolumes_partitions_within_image_witness :
  let tr := trace_of (CreatePartitionedVolumes (H := Sim.host Scenarios.plain)
                        "/tmp/vol.img" Scenarios.two_mounts Sim.start_world) in
  requests tr !! 1%nat = Some (4195304, 6293456) /\
  ("/tmp/vol.img"%string, Bytes 8810496) ∈ sparse_files tr /\
  2097152 <= 4195304 /\ 4195304 <= 6293456 /\
  6293456 + 2097152 < ToBytes (Bytes 8810496).
Proof.
  intros tr.
  assert (requests tr !! 1%nat = Some (4195304, 6293456)) as Hreq by (by vm_compute).
  assert (("/tmp/vol.img"%string, Bytes 8810496) ∈ sparse_files tr) as Hin.
  { assert (sparse_files tr = [("/tmp/vol.img"%string, Bytes 8810496)]) as ->
      by (by vm_compute).
    by apply list_elem_of_singleton. }
  split; [exact Hreq|]. split; [exact Hin|].
  apply (CreatePartitionedVolumes_partitions_within_image
           (H := Sim.host Scenarios.plain)
           Sim.start_world "/tmp/vol.img" Scenarios.two_mounts)
    with (i := 1%nat) (f := "/tmp/vol.img"%string).
  - match goal with
    | |- Forall _ ?l => assert (l = [1000; 1000]) as -> by (by vm_compute)
    end.
    repeat constructor; lia.
  - by vm_compute.
  - clear Hreq Hin. intros [|[|[|j]]] s e parts err part Hr He Hl;
      vm_compute in Hr, He; simplify_eq; vm_compute in Hl; simplify_eq;
      by vm_compute.
  - exact Hreq.
  - exact Hin.
Defined.

Ltac flow_end :=
  unfold populates, outcome_of, trace_of, NewLoDevice, NewDevice;
  cbn [fst snd app acquire_attempts acquisitions commands mounted copied_dirs
       copied_files stagings omap list_omap succeeded rerr rname];
  repeat split.

Section Flow.
Context {W : Type} {H : Host W}.

(** X19.  [copyToPart] populates the resource of the partition, and
    [CopyToImgFile] the loop device of the image file: the device
    formatted and mounted is the one the acquisition returned, and the
    folder is copied, after a successful mkfs and mount only, to the
    mount point that mount returned. *)
Theorem population_reaches_the_partition
    (w : W) (folder imgfile : string) (part : Part) :
  populates (part_resource part) folder (trace_of (copyToPart folder part w)) /\
  populates (LoDevice imgfile) folder (trace_of (CopyToImgFile folder imgfile w)).
Proof.
  split.
  - apply (fn_post_intro (copyToPart folder part) w
             (fun run => populates _ _ (trace_of run))).
    unfold copyToPart. wp_go. all: flow_end.
  - apply (fn_post_intro (CopyToImgFile folder imgfile) w
             (fun run => populates _ _ (trace_of run))).
    unfold CopyToImgFile. wp_go. all: flow_end.
Qed.

(** X20.  In a boot image build that acquired the loop device, the mapped
    root device and the boot partition: mkfs formats the device of the
    boot partition; once that device is mounted, the bootloader is
    staged once, in the mount point, for the mapped root device, with
    the kernel and the command line of the caller; the kernel is copied
    to boot/program.bin under the mount point; and grub-install is then
    run on the mapped root device with the mount point as root
    directory, whatever the staging returned. *)
Theorem CreateBootImageOnFile_targets
    (w : W) (rootFile : string) (sizeOfFile : DiskSize)
    (progPath commandline : string)
    (r1 r2 r3 : Resource) (lo root boot : BlockDevice) :
  let tr := trace_of (CreateBootImageOnFile rootFile sizeOfFile progPath
                        commandline w) in
  let mkfs := ("mkfs", ["-L"; "boot"; "-I"; "128"; "-t"; "ext2"; boot])%string in
  acquisitions tr = [(r1, lo); (r2, root); (r3, boot)] ->
  match mounted tr with
  | [] => stagings tr = [] /\ copied_files tr = [] /\ commands tr = [mkfs]
  | (d, mnt) :: more =>
      d = boot /\ more = [] /\
      stagings tr = [(mnt, root, progPath, commandline)] /\
      copied_files tr = [(progPath, path_Join [mnt; "boot"%string; ProgramName])] /\
      commands tr
        = [mkfs;
           ("grub-install",
            ["--no-floppy"; "--root-directory=" +:+ mnt; root])%string]
  end.
Proof.
  intros tr mkfs. subst tr mkfs.
  wp_start. unfold CreateBootImageOnFile.
  destruct (ToSectors sizeOfFile) as [n [e|]].
  { wp_go. wp_end. discriminate. }
  wp_go.
  all: try solve [wp_end; discriminate].
  split_parts; wp_go.
  all: wp_end; intros Hacq; simplify_eq;
    cbn [commands mounted copied_files stagings omap list_omap succeeded rerr rname];
    by repeat split.
Qed.
End Flow.

Lemma CreateBootImageOnFile_targets_witness :
  let tr := trace_of (CreateBootImageOnFile (H := Sim.host Scenarios.plain)
                        "/tmp/root.img" (MegaBytes 64) "/tmp/program.bin"
                        "console=ttyS0" Sim.start_world) in
  stagings tr
    = [("/mnt/dev/mapper/hda1", "/dev/mapper/hda", "/tmp/program.bin",
        "console=ttyS0")%string] /\
  commands tr
    = [("mkfs", ["-L"; "boot"; "-I"; "128"; "-t"; "ext2"; "/dev/mapper/hda1"]);
       ("grub-install",
        ["--no-floppy"; "--root-directory=/mnt/dev/mapper/hda1";
         "/dev/mapper/hda"])]%string.
Proof.
  intros tr.
  pose proof (CreateBootImageOnFile_targets (H := Sim.host Scenarios.plain)
                Sim.start_world "/tmp/root.img" (MegaBytes 64) "/tmp/program.bin"
                "console=ttyS0"
                (LoDevice "/tmp/root.img")
                (DeviceMapperDevice 0 131072 "/dev/loop0" "hda")
                (DeviceMapperDevice 4096 126976 "/dev/mapper/hda" "hda1")
                "/dev/loop0" "/dev/mapper/hda" "/dev/mapper/hda1") as Hflow.
  cbv zeta in Hflow. specialize (Hflow ltac:(by vm_compute)).
  assert (mounted tr = [("/dev/mapper/hda1", "/mnt/dev/mapper/hda1")%string]) as Hm
    by (by vm_compute).
  fold tr in Hflow. rewrite Hm in Hflow.
  destruct Hflow as (_ & _ & Hs & _ & Hc). split; [exact Hs|exact Hc].
Defined.

Lemma acquisitions_app a b : acquisitions (a ++ b) = acquisitions a ++ acquisitions b.
Proof. apply omap_app. Qed.
Lemma part_requests_app a b :
  part_requests (a ++ b) = part_requests a ++ part_requests b.
Proof. apply omap_app. Qed.
Lemma listed_app a b : listed (a ++ b) = listed a ++ listed b.
Proof. apply omap_app. Qed.

Lemma file_events_unpartitioned ev :
  forallb is_file_event ev = true ->
  acquisitions ev = [] /\ tables ev = [] /\ part_requests ev = [] /\ listed ev = [].
Proof.
  intros Hev. unfold acquisitions, tables, part_requests, listed.
  split_and!; quiet.
Qed.

Lemma sizing_unpartitioned vs sizes total ev out :
  sizing_run vs sizes total ev out ->
  acquisitions ev = [] /\ tables ev = [] /\ part_requests ev = [] /\ listed ev = [].
Proof. induction 1; try done. Qed.

Lemma sizing_map_unpartitioned volumes ks sizes ordered total ev out :
  sizing_map_run volumes ks sizes ordered total ev out ->
  acquisitions ev = [] /\ tables ev = [] /\ part_requests ev = [] /\ listed ev = [].
Proof. induction 1; try done. Qed.

Lemma layout_partitions p dev start sizes ev out :
  layout_run p dev start sizes ev out ->
  acquisitions ev = [] /\ tables ev = [] /\
  Forall (fun x => x = (p, "ext2"%string)) (part_requests ev) /\
  Forall (fun d => d = dev) (listed ev).
Proof.
  induction 1 as [| ? ? ? ? ? ? ? ? ? ? ? ? IH| | |]; try (by repeat constructor).
  destruct IH as (? & ? & ? & ?). split_and!; try done.
  - by constructor.
  - by constructor.
Qed.

Lemma copy_unpartitioned folders parts i ev out :
  copy_run folders parts i ev out ->
  tables ev = [] /\ part_requests ev = [] /\ listed ev = [].
Proof.
  induction 1 as [| ? ? ? ? ? ev1 ? ? ? Hev1 ? IH|]; try done.
  destruct IH as (IH1 & IH2 & IH3).
  change (EvEnter ?f :: ?a ++ ?b) with ((EvEnter f :: a) ++ b).
  rewrite tables_app, part_requests_app, listed_app, IH1, IH2, IH3, !app_nil_r.
  change (tables (EvEnter ?f :: ?a)) with (tables a).
  change (part_requests (EvEnter ?f :: ?a)) with (part_requests a).
  change (listed (EvEnter ?f :: ?a)) with (listed a).
  unfold tables, part_requests, listed. split_and!; quiet.
Qed.

Lemma assembly_partitions imgFile mkp sizes total folders check out eva r lo rest :
  assembly_run imgFile mkp sizes total folders check out eva ->
  acquisitions eva = (r, lo) :: rest ->
  r = LoDevice imgFile /\ partitions_with (mkp lo) lo eva.
Proof.
  destruct 1 as [evf e Hf | evf rep e Hf Hrep | evf rep rt evl e rrel Hf Hrep Hl
                 | evf rep rt evl rrel Hf Hrep Hl
                 | evf rep rt evl start rl rrel Hf Hrep Hl Hcheck Hlen
                 | evf rep rt evl start rl evc out rrel Hf Hrep Hl Hcheck Hc Hout];
    destruct (file_events_unpartitioned _ Hf) as (Hf1 & Hf2 & Hf3 & Hf4);
    try destruct (layout_partitions _ _ _ _ _ _ Hl) as (Hl1 & Hl2 & Hl3 & Hl4);
    try destruct (copy_unpartitioned _ _ _ _ _ Hc) as (Hc2 & Hc3 & Hc4);
    change (EvEnter ?f :: ?a) with ([EvEnter f] ++ a);
    rewrite ?acquisitions_app, Hf1; cbn [app acquisitions omap list_omap];
    unfold succeeded; rewrite ?Hrep; intros Hacq; try done.
  all: injection Hacq as <- <- _; split; [done|].
  all: unfold partitions_with.
  all: repeat change (?x :: ?l ++ ?m) with ([x] ++ l ++ m).
  all: repeat change (?x :: ?y :: ?l ++ ?m) with ([x; y] ++ l ++ m).
  all: rewrite ?tables_app, ?part_requests_app, ?listed_app,
         ?Hf2, ?Hf3, ?Hf4, ?Hl2, ?Hc2, ?Hc3, ?Hc4.
  all: cbn [app tables part_requests listed omap list_omap].
  all: rewrite ?app_nil_r.
  all: split_and!; try done.
  all: try (apply Forall_app; split; [done|by repeat constructor]).
Qed.

Section Partitioning.
Context {W : Type} {H : Host W}.

(** X21.  A volume assembly that attached a device attached the loop
    device of the image file first, and partitions that device: with the
    partitioner the caller's function makes for it in [CreateVolumes],
    with a disk-label partitioner in [CreatePartitionedVolumes]; the
    table is made once, every partition is requested of type ext2, and
    every enumeration is on that device. *)
Theorem volume_assemblers_partition_the_loop_device
    (w : W) (imgFile : string) (volumes : list types.RawVolume)
    (newPartitioner : string -> Partitioner)
    (mounts : gmap string types.RawVolume) :
  let listed := trace_of (CreateVolumes imgFile volumes newPartitioner w) in
  let mapped := trace_of (CreatePartitionedVolumes imgFile mounts w) in
  (forall r lo rest, acquisitions listed = (r, lo) :: rest ->
     r = LoDevice imgFile /\ partitions_with (newPartitioner lo) lo listed) /\
  (forall r lo rest, acquisitions mapped = (r, lo) :: rest ->
     r = LoDevice imgFile /\ partitions_with (DiskLabelPartioner lo) lo mapped).
Proof.
  intros listed mapped. subst listed mapped. split; intros r lo rest Hacq.
  - pose proof (fn_post_elim _ _ _ (CreateVolumes_runs imgFile volumes newPartitioner w))
      as [(e & Hsz & _)|(ev & sizes & total & out & eva & Hsz & Hrun & Htr & _)];
      destruct (sizing_unpartitioned _ _ _ _ _ Hsz) as (Hs1 & Hs2 & Hs3 & Hs4).
    { by rewrite Hs1 in Hacq. }
    rewrite Htr in *. rewrite acquisitions_app, Hs1 in Hacq.
    destruct (assembly_partitions _ _ _ _ _ _ _ _ _ _ _ Hrun Hacq)
      as (-> & Ht & Hp & Hl).
    split; [done|]. unfold partitions_with.
    by rewrite tables_app, part_requests_app, listed_app, Hs2, Hs3, Hs4.
  - pose proof (fn_post_elim _ _ _ (CreatePartitionedVolumes_runs imgFile mounts w))
      as [(ev & e & Hsz & Htr & _)
         |(ev & sizes & ordered & total & out & eva & Hsz & Hrun & Htr & _)];
      destruct (sizing_map_unpartitioned _ _ _ _ _ _ _ Hsz) as (Hs1 & Hs2 & Hs3 & Hs4);
      rewrite Htr in *;
      change (acquisitions (EvRange ?k :: ?l)) with (acquisitions l) in Hacq.
    { by rewrite Hs1 in Hacq. }
    rewrite acquisitions_app, Hs1 in Hacq.
    destruct (assembly_partitions _ _ _ _ _ _ _ _ _ _ _ Hrun Hacq)
      as (-> & Ht & Hp & Hl).
    split; [done|]. unfold partitions_with.
    change (tables (EvRange ?k :: ?l)) with (tables l).
    change (part_requests (EvRange ?k :: ?l)) with (part_requests l).
    change (listed (EvRange ?k :: ?l)) with (listed l).
    by rewrite tables_app, part_requests_app, listed_app, Hs2, Hs3, Hs4.
Qed.

(** X22.  Once [CreateSingleVolume] has measured the directory and written
    the sparse file, it populates the loop device of that file with the
    directory of the volume. *)
Theorem CreateSingleVolume_populates_the_file
    (w : W) (rootFile : string) (folder : types.RawVolume) d :
  let tr := trace_of (CreateSingleVolume rootFile folder w) in
  measured tr = [(types.Path folder, d)] ->
  first_failure file_steps tr = None ->
  sparse_files tr = [(rootFile, Bytes (single_volume_size d))] /\
  populates (LoDevice rootFile) (types.Path folder) tr.
Proof.
  intros tr. subst tr.
  wp_start. unfold CreateSingleVolume. wp_wrappers. wp_run.
  { wp_end. discriminate. }
  fold (single_volume_size (int64 num)).
  unfold ToSectors. rewrite decide_True by apply single_volume_size_aligned.
  wp_go.
  all: wp_end; cbn [first_failure file_steps rerr]; intros Hm Hf; try discriminate.
  all: injection Hm as <-; split; [reflexivity|flow_end].
Qed.
End Partitioning.

Lemma volume_assemblers_partition_the_loop_device_witness :
  let listed := trace_of (CreateVolumes (H := Sim.host Scenarios.plain)
                  "/tmp/vol.img" Scenarios.two_volumes MsDosPartioner
                  Sim.start_world) in
  partitions_with (MsDosPartioner "/dev/loop0") "/dev/loop0" listed.
Proof.
  intros listed.
  apply (proj1 (volume_assemblers_partition_the_loop_device
                  (H := Sim.host Scenarios.plain) Sim.start_world "/tmp/vol.img"
                  Scenarios.two_volumes MsDosPartioner ∅)
           (LoDevice "/tmp/vol.img") "/dev/loop0"
           [(OtherPart "part0", "part0"%string); (OtherPart "part1", "part1"%string)]).
  by vm_compute.
Defined.

Lemma CreateSingleVolume_populates_the_file_witness :
  let tr := trace_of (CreateSingleVolume (H := Sim.host Scenarios.plain)
                        "/tmp/vol.img" (types.mkRawVolume "/data/a" 0)
                        Sim.start_world) in
  sparse_files tr = [("/tmp/vol.img"%string, Bytes 2098688)] /\
  copied_dirs tr = [("/data/a", "/mnt/dev/loop0")%string].
Proof.
  intros tr.
  destruct (CreateSingleVolume_populates_the_file (H := Sim.host Scenarios.plain)
              Sim.start_world "/tmp/vol.img" (types.mkRawVolume "/data/a" 0) 1000)
    as [Hfile _]; [by vm_compute|by vm_compute|].
  split; [|by vm_compute].
  etransitivity; [exact Hfile|]. by vm_compute.
Defined.

Section VolumesCommand.
Context {V E : Type} {env : cmd.Env V E}.

(** X23.  The volumes command either prints, once, exactly the volumes the
    client returned, logs no error and does not exit; or it prints
    nothing, logs one error and exits with the code -1.  The error
    logged is "failed listing volumes: " followed by the error of
    [readClientConfig], or by "listing volumes failed: " and the error
    of the client; when [readClientConfig] fails the client is not
    asked. *)
Theorem volumes_command_outcomes (g : cmd.globals) (e : E) :
  let '(cfgerr, g1, e1) := cmd.readClientConfig g e in
  let h := if decide (cmd.host g1 = EmptyString)
           then cmd.clientConfig_Host g1 else cmd.host g1 in
  let '(volumes, err, _) := cmd.Volumes_All h e1 in
  let effects := (cmd.Run g e).1.1 in
  match cfgerr, err with
  | Some c, _ =>
      cmd.asked effects = [] /\ cmd.printed effects = [] /\
      cmd.logged_errors effects = ["failed listing volumes: " +:+ c] /\
      cmd.exits effects = [-1] /\ last effects = Some (cmd.Exit (-1))
  | None, Some l =>
      cmd.asked effects = [h] /\ cmd.printed effects = [] /\
      cmd.logged_errors effects
        = ["failed listing volumes: listing volumes failed: " +:+ l] /\
      cmd.exits effects = [-1] /\ last effects = Some (cmd.Exit (-1))
  | None, None =>
      cmd.asked effects = [h] /\ cmd.printed effects = [volumes] /\
      cmd.logged_errors effects = [] /\ cmd.exits effects = [] /\
      last effects = Some (cmd.PrintVolumes volumes)
  end.
Proof.
  unfold cmd.Run, cmd.list_volumes.
  destruct (cmd.readClientConfig g e) as [[[c|] g1] e1]; cbn zeta.
  { by destruct (cmd.Volumes_All _ e1) as [[volumes l] e2]. }
  case_decide as Hhost; cbn [cmd.host].
  - destruct (cmd.Volumes_All (cmd.clientConfig_Host g1) e1) as [[volumes [l|]] e2];
      [|done].
    by split_and!.
  - destruct (cmd.Volumes_All (cmd.host g1) e1) as [[volumes [l|]] e2]; [|done].
    by split_and!.
Qed.

(** X24.  The [host] flag wins over the configuration: the client is asked
    at the value of [host] when it is not empty after
    [readClientConfig], and at the configured host otherwise; in that
    case the variable [host] is left set to the configured host. *)
Theorem volumes_command_host (g : cmd.globals) (e : E) g1 e1 :
  cmd.readClientConfig g e = (None, g1, e1) ->
  let effects := (cmd.Run g e).1.1 in
  let after := (cmd.Run g e).1.2 in
  (cmd.host g1 <> EmptyString ->
   cmd.asked effects = [cmd.host g1] /\ after = g1) /\
  (cmd.host g1 = EmptyString ->
   cmd.asked effects = [cmd.clientConfig_Host g1] /\
   cmd.host after = cmd.clientConfig_Host g1 /\
   cmd.clientConfig_Host after = cmd.clientConfig_Host g1).
Proof.
  intros Hcfg. unfold cmd.Run, cmd.list_volumes. rewrite Hcfg. cbn zeta.
  split; intros Hhost.
  - rewrite decide_False by done.
    by destruct (cmd.Volumes_All (cmd.host g1) e1) as [[volumes [l|]] e2].
  - rewrite decide_True by done. cbn [cmd.host].
    by destruct (cmd.Volumes_All (cmd.clientConfig_Host g1) e1)
      as [[volumes [l|]] e2].
Qed.
End VolumesCommand.

Lemma volumes_command_host_witness :
  cmd.asked (cmd.Run (env := Scenarios.listing) (cmd.mkGlobals "" "") tt).1.1
    = ["unik.example"%string] /\
  cmd.asked (cmd.Run (env := Scenarios.listing)
               (cmd.mkGlobals "10.0.0.1" "") tt).1.1
    = ["10.0.0.1"%string].
Proof.
  split.
  - apply (proj2 (volumes_command_host (env := Scenarios.listing)
                    (cmd.mkGlobals "" "") tt
                    (cmd.mkGlobals "" "unik.example") tt eq_refl)).
    reflexivity.
  - apply (proj1 (volumes_command_host (env := Scenarios.listing)
                    (cmd.mkGlobals "10.0.0.1" "") tt
                    (cmd.mkGlobals "10.0.0.1" "unik.example") tt eq_refl)).
    discriminate.
Defined.

(** ** What is held while the volumes are populated *)

Lemma copies_entry tr (i : nat) folder part :
  tr !! i = Some (EvEnter (FcopyToPart folder part)) -> (folder, part) ∈ copies tr.
Proof.
  intros Hi. unfold copies. apply list_elem_of_omap.
  exists (EvEnter (FcopyToPart folder part)). split; [|done].
  by eapply list_elem_of_lookup_2.
Qed.

Lemma settled_quiet tr : copies tr = [] -> settled tr.
Proof.
  intros Hq st i folder part Hi. apply copies_entry in Hi.
  rewrite Hq in Hi. by apply elem_of_nil in Hi.
Qed.

Lemma settled_app a b :
  balanced a -> settled a -> settled b -> settled (a ++ b).
Proof.
  intros Hba Ha Hb st i folder part Hi.
  destruct (decide (i < length a)%nat) as [Hlt|Hge].
  - rewrite lookup_app_l in Hi by done.
    rewrite take_app_le by lia. by eapply Ha.
  - rewrite lookup_app_r in Hi by lia.
    rewrite take_app_ge by lia.
    rewrite held_app, (Hba st). cbn [mbind option_bind]. by eapply Hb.
Qed.

Lemma settled_entry f tr : copies tr = [] -> settled (EvEnter f :: tr).
Proof.
  intros Hq st [|i] folder part Hi; [done|].
  cbn in Hi. apply copies_entry in Hi. rewrite Hq in Hi. by apply elem_of_nil in Hi.
Qed.

(** Before the population: the handles held are [hs]; from then on what
    is held at every entry is what was held. *)
Lemma held_at_population_from pre post hs :
  held pre [] = Some hs -> copies pre = [] -> settled post ->
  held_at_population hs (pre ++ post).
Proof.
  intros Hpre Hq Hpost i folder part Hi.
  destruct (decide (i < length pre)%nat) as [Hlt|Hge].
  - rewrite lookup_app_l in Hi by done. apply copies_entry in Hi.
    rewrite Hq in Hi. by apply elem_of_nil in Hi.
  - rewrite lookup_app_r in Hi by lia.
    rewrite take_app_ge by lia.
    rewrite held_app, Hpre. cbn [mbind option_bind]. by eapply Hpost.
Qed.

Lemma held_at_population_quiet hs tr : copies tr = [] -> held_at_population hs tr.
Proof.
  intros Hq i folder part Hi. apply copies_entry in Hi.
  rewrite Hq in Hi. by apply elem_of_nil in Hi.
Qed.

Section Settled.
Context {W : Type} {H : Host W}.

Lemma copyToPart_settled folder part (w : W) :
  fn_post (copyToPart folder part) w (fun _ tr _ => balanced tr /\ settled tr).
Proof.
  unfold copyToPart. wp_go.
  all: split; [held_run|].
  all: cbn [app]; by apply settled_entry.
Qed.

Lemma wp_copy_settled {A R} (g : A -> string) parts (l : list A) (n : nat) ds
    (w : W) (Q : outcome R unit -> _) :
  (forall o ev w', balanced ev -> settled ev -> Q o ev ds w') ->
  wp (for_range l n tt
        (fun i x _ =>
           let* part := index parts (Z.of_nat i) in
           invoke (copyToPart (g x) part) ;;
           ret tt)) ds w Q.
Proof.
  revert n w Q. induction l as [|x l IH]; intros n w Q HQ.
  { cbn [for_range]. wp_go. apply HQ; [done|by apply settled_quiet]. }
  cbn [for_range]. destruct (parts !! n) as [part|] eqn:Hp.
  - rewrite (index_lookup _ _ _ Hp). wp_run.
    apply wp_invoke. eapply fn_post_mono; [apply copyToPart_settled|].
    intros r ev1 w1 [Hb1 Hs1]. destruct r; wp_run.
    + apply IH. intros o ev w' Hb Hs. rewrite ?app_nil_r. cbn [app].
      apply HQ; [by apply balanced_app|by apply settled_app].
    + rewrite ?app_nil_r. cbn [app]. by apply HQ.
  - rewrite index_out_of_range
      by (right; apply lookup_ge_None_1 in Hp; lia).
    wp_go. apply HQ; [done|by apply settled_quiet].
Qed.

Lemma createSparseFile_unpopulated filename size (w : W) :
  fn_post (createSparseFile filename size) w
    (fun _ tr _ => balanced tr /\ copies tr = []).
Proof.
  unfold createSparseFile. wp_go.
  all: split; [held_run|reflexivity].
Qed.
End Settled.

Lemma attaches_after a b lo :
  balanced a -> copies a = [] -> attaches lo b -> attaches lo (a ++ b).
Proof.
  intros Ha Hq [Hb Hqb]. split.
  - intros st. by rewrite held_app, Ha; cbn; rewrite Hb.
  - by rewrite copies_app, Hq, Hqb.
Qed.

Lemma attaches_before a b lo :
  attaches lo a -> balanced b -> copies b = [] -> attaches lo (a ++ b).
Proof.
  intros [Ha Hqa] Hb Hq. split.
  - intros st. by rewrite held_app, Ha; cbn; rewrite Hb.
  - by rewrite copies_app, Hq, Hqa.
Qed.

Lemma held_at_population_attached lo pre post :
  attaches lo pre -> settled post ->
  held_at_population [HResource lo] (pre ++ post).
Proof. intros [Hpre Hq] Hpost. by apply held_at_population_from. Qed.

Ltac trace_flat :=
  unfold NewLoDevice, NewDevice;
  repeat (progress (cbn [app]; rewrite ?app_nil_r, <- ?app_assoc)).

(** A run that populates nothing. *)
Ltac unpopulated :=
  apply held_at_population_quiet; trace_flat; project;
  repeat match goal with Hq : copies ?e = [] |- _ => rewrite Hq end;
  reflexivity.

(** A run that attached the loop device in [pre] and populates in
    [post]. *)
Ltac populated pre post :=
  match goal with
  | |- held_at_population _ ?T =>
      replace T with (pre ++ post) by (trace_flat; reflexivity)
  end;
  apply held_at_population_attached;
  [ split;
    [ held_go
    | trace_flat; project;
      repeat match goal with Hq : copies ?e = [] |- _ => rewrite Hq end;
      reflexivity ]
  | repeat first [ assumption
                 | apply settled_app
                 | apply settled_quiet; reflexivity ] ].

Section Populations.
Context {W : Type} {H : Host W}.

Lemma CreateVolumes_populations imgFile volumes newPartitioner (w : W) :
  fn_post (CreateVolumes imgFile volumes newPartitioner) w
    (fun _ tr _ => held_at_population [HResource (LoDevice imgFile)] tr).
Proof.
  unfold CreateVolumes. apply fn_func. apply wp_bind. wp_simpl.
  apply wp_sizing. intros o ev ? out Hsz Hout.
  pose proof (sizing_balanced _ _ _ _ _ Hsz) as Hev.
  destruct (sizing_quiet _ _ _ _ _ Hsz) as (_ & _ & _ & Hevq & _).
  destruct out as [[sizes total]|e|]; [|subst o; wp_run|done].
  2: { unpopulated. }
  subst o. wp_run.
  apply wp_invoke. eapply fn_post_mono; [apply createSparseFile_unpopulated|].
  intros r evf ? [Hevf Hevfq]. destruct r as [[e|]|msg]; wp_run.
  1,2,4: unpopulated.
  eapply (wp_layout (fun x => x)). rewrite map_id.
  intros o evl ? outl Hl Houtl.
  pose proof (layout_balanced _ _ _ _ _ _ Hl) as Hevl.
  destruct (layout_quiet _ _ _ _ _ _ Hl) as (_ & Hevlq & _).
  destruct outl as [start|e|]; subst o; wp_run.
  2,3: unpopulated.
  case_decide as Hlen; wp_run; [unpopulated|].
  apply (wp_copy_settled types.Path).
  intros o evc ? Hevc Hevcs. destruct o; wp_run.
  all: trace_flat.
  all: match goal with
       | |- held_at_population _ (?e1 ++ ?e2 ++ ?a :: ?b :: ?e3 ++ ?c :: ?e4 ++ ?z) =>
           populated (e1 ++ e2 ++ a :: b :: e3 ++ [c]) (e4 ++ z)
       end.
Qed.

Lemma CreatePartitionedVolumes_populations imgFile volumes (w : W) :
  fn_post (CreatePartitionedVolumes imgFile volumes) w
    (fun _ tr _ => held_at_population [HResource (LoDevice imgFile)] tr).
Proof.
  unfold CreatePartitionedVolumes. apply fn_func. wp_run.
  apply wp_sizing_map. intros o ev ? out Hsz Hout.
  pose proof (sizing_map_balanced _ _ _ _ _ _ _ Hsz) as Hev.
  destruct (sizing_map_quiet _ _ _ _ _ _ _ Hsz) as (_ & _ & _ & Hevq & _).
  destruct out as [[[sizes ordered] total]|e|]; [|subst o; wp_run|done].
  2: { unpopulated. }
  subst o. wp_run.
  apply wp_invoke. eapply fn_post_mono; [apply createSparseFile_unpopulated|].
  intros r evf ? [Hevf Hevfq]. destruct r as [[e|]|msg]; wp_run.
  1,2,4: unpopulated.
  eapply (wp_layout (map_index 0 sizes)).
  intros o evl ? outl Hl Houtl.
  pose proof (layout_balanced _ _ _ _ _ _ Hl) as Hevl.
  destruct (layout_quiet _ _ _ _ _ _ Hl) as (_ & Hevlq & _).
  destruct outl as [start|e|]; subst o; wp_run.
  2,3: unpopulated.
  apply (wp_copy_settled (fun k => types.Path (map_index types.zero volumes k))).
  intros o evc ? Hevc Hevcs. destruct o; wp_run.
  all: trace_flat.
  all: match goal with
       | |- held_at_population _
              (?r :: ?e1 ++ ?e2 ++ ?a :: ?b :: ?e3 ++ ?c :: ?e4 ++ ?z) =>
           populated (r :: e1 ++ e2 ++ a :: b :: e3 ++ [c]) (e4 ++ z)
       end.
Qed.
End Populations.

(** An assembly that attached a device ends with the release of the loop
    device of the image. *)
Lemma assembly_released imgFile mkp sizes total folders check out eva r lo rest :
  assembly_run imgFile mkp sizes total folders check out eva ->
  acquisitions eva = (r, lo) :: rest ->
  exists rep, last eva = Some (EvHost (CRelease (LoDevice imgFile)) rep).
Proof.
  destruct 1 as [evf e Hf | evf rep e Hf Hrep | evf rep rt evl e rrel Hf Hrep Hl
                 | evf rep rt evl rrel Hf Hrep Hl
                 | evf rep rt evl start rl rrel Hf Hrep Hl Hcheck Hlen
                 | evf rep rt evl start rl evc out rrel Hf Hrep Hl Hcheck Hc Hout];
    destruct (file_events_unpartitioned _ Hf) as (Hf1 & _).
  1,2: change (EvEnter ?f :: ?a) with ([EvEnter f] ++ a);
    rewrite ?acquisitions_app, Hf1; cbn [app acquisitions omap list_omap];
    unfold succeeded; rewrite ?Hrep; done.
  all: intros _; exists rrel.
  all: repeat first [rewrite last_cons | rewrite last_app]; reflexivity.
Qed.

Section GivingBackVolumes.
Context {W : Type} {H : Host W}.

Lemma volumes_released_last imgFile volumes newPartitioner (w : W) r lo rest :
  let tr := trace_of (CreateVolumes imgFile volumes newPartitioner w) in
  acquisitions tr = (r, lo) :: rest ->
  exists rep, last tr = Some (EvHost (CRelease (LoDevice imgFile)) rep).
Proof.
  intros tr Hacq. subst tr.
  pose proof (fn_post_elim _ _ _ (CreateVolumes_runs imgFile volumes newPartitioner w))
    as [(e & Hsz & _)|(ev & sizes & total & out & eva & Hsz & Hrun & Htr & _)];
    destruct (sizing_unpartitioned _ _ _ _ _ Hsz) as (Hs1 & _).
  { by rewrite Hs1 in Hacq. }
  rewrite Htr in *. rewrite acquisitions_app, Hs1 in Hacq.
  destruct (assembly_released _ _ _ _ _ _ _ _ _ _ _ Hrun Hacq) as (rep & Hlast).
  exists rep. by rewrite last_app, Hlast.
Qed.

Lemma partitioned_released_last imgFile volumes (w : W) r lo rest :
  let tr := trace_of (CreatePartitionedVolumes imgFile volumes w) in
  acquisitions tr = (r, lo) :: rest ->
  exists rep, last tr = Some (EvHost (CRelease (LoDevice imgFile)) rep).
Proof.
  intros tr Hacq. subst tr.
  pose proof (fn_post_elim _ _ _ (CreatePartitionedVolumes_runs imgFile volumes w))
    as [(ev & e & Hsz & Htr & _)
       |(ev & sizes & ordered & total & out & eva & Hsz & Hrun & Htr & _)];
    destruct (sizing_map_unpartitioned _ _ _ _ _ _ _ Hsz) as (Hs1 & _);
    rewrite Htr in *;
    change (acquisitions (EvRange ?k :: ?l)) with (acquisitions l) in Hacq.
  { by rewrite Hs1 in Hacq. }
  rewrite acquisitions_app, Hs1 in Hacq.
  destruct (assembly_released _ _ _ _ _ _ _ _ _ _ _ Hrun Hacq) as (rep & Hlast).
  exists rep. by rewrite last_cons, last_app, Hlast.
Qed.

(** X4.  [CreateVolumes] and [CreatePartitionedVolumes] give back what
    they took, last taken first, whether they return or panic.  Whenever
    the population of a partition begins, the loop device of the image
    and nothing else is held: every partition populated before it has
    been unmounted and released.  And a run that attached a device ends
    with the release of the loop device of the image. *)
Theorem volume_assemblers_give_back
    (w : W) (imgFile : string) (volumes : list types.RawVolume)
    (newPartitioner : string -> Partitioner)
    (mounts : gmap string types.RawVolume) :
  let listed := trace_of (CreateVolumes imgFile volumes newPartitioner w) in
  let mapped := trace_of (CreatePartitionedVolumes imgFile mounts w) in
  (balanced listed /\
   held_at_population [HResource (LoDevice imgFile)] listed /\
   (forall r lo rest, acquisitions listed = (r, lo) :: rest ->
      r = LoDevice imgFile /\
      exists rep, last listed = Some (EvHost (CRelease (LoDevice imgFile)) rep))) /\
  (balanced mapped /\
   held_at_population [HResource (LoDevice imgFile)] mapped /\
   (forall r lo rest, acquisitions mapped = (r, lo) :: rest ->
      r = LoDevice imgFile /\
      exists rep, last mapped = Some (EvHost (CRelease (LoDevice imgFile)) rep))).
Proof.
  intros listed mapped. subst listed mapped. split; split_and!.
  - apply (fn_post_elim _ _ _ (CreateVolumes_balanced imgFile volumes newPartitioner w)).
  - apply (fn_post_elim _ _ _
             (CreateVolumes_populations imgFile volumes newPartitioner w)).
  - intros r lo rest Hacq. split; [|by eapply volumes_released_last].
    pose proof (fn_post_elim _ _ _ (CreateVolumes_runs imgFile volumes newPartitioner w))
      as [(e & Hsz & _)|(ev & sizes & total & out & eva & Hsz & Hrun & Htr & _)];
      destruct (sizing_unpartitioned _ _ _ _ _ Hsz) as (Hs1 & _).
    { by rewrite Hs1 in Hacq. }
    rewrite Htr, acquisitions_app, Hs1 in Hacq.
    by destruct (assembly_partitions _ _ _ _ _ _ _ _ _ _ _ Hrun Hacq).
  - apply (fn_post_elim _ _ _ (CreatePartitionedVolumes_balanced imgFile mounts w)).
  - apply (fn_post_elim _ _ _ (CreatePartitionedVolumes_populations imgFile mounts w)).
  - intros r lo rest Hacq. split; [|by eapply partitioned_released_last].
    pose proof (fn_post_elim _ _ _ (CreatePartitionedVolumes_runs imgFile mounts w))
      as [(ev & e & Hsz & Htr & _)
         |(ev & sizes & ordered & total & out & eva & Hsz & Hrun & Htr & _)];
      destruct (sizing_map_unpartitioned _ _ _ _ _ _ _ Hsz) as (Hs1 & _);
      rewrite Htr in Hacq;
      change (acquisitions (EvRange ?k :: ?l)) with (acquisitions l) in Hacq.
    { by rewrite Hs1 in Hacq. }
    rewrite acquisitions_app, Hs1 in Hacq.
    by destruct (assembly_partitions _ _ _ _ _ _ _ _ _ _ _ Hrun Hacq).
Qed.
End GivingBackVolumes.

Lemma volume_assemblers_give_back_witness :
  let listed := trace_of (CreateVolumes (H := Sim.host Scenarios.plain)
                  "/tmp/vol.img" Scenarios.two_volumes DiskLabelPartioner
                  Sim.start_world) in
  copies listed
    = [("/data/a"%string, mkPart (OtherPart "part0") (Bytes 2097152) (Bytes 2098152));
       ("/data/b"%string, mkPart (OtherPart "part1") (Bytes 4195304) (Bytes 2098152))] /\
  (exists i : nat,
     listed !! i
       = Some (EvEnter (FcopyToPart "/data/b"
                 (mkPart (OtherPart "part1") (Bytes 4195304) (Bytes 2098152)))) /\
     held (take i listed) [] = Some [HResource (LoDevice "/tmp/vol.img")]) /\
  exists rep, last listed = Some (EvHost (CRelease (LoDevice "/tmp/vol.img")) rep).
Proof.
  intros listed.
  destruct (volume_assemblers_give_back (H := Sim.host Scenarios.plain)
              Sim.start_world "/tmp/vol.img" Scenarios.two_volumes
              DiskLabelPartioner ∅) as [(_ & Hpop & Hlast) _].
  split; [by vm_compute|]. split.
  - exists 21%nat.
    assert (listed !! 21%nat
            = Some (EvEnter (FcopyToPart "/data/b"
                      (mkPart (OtherPart "part1") (Bytes 4195304) (Bytes 2098152)))))
      as Hi by (by vm_compute).
    split; [exact Hi|]. exact (Hpop _ _ _ Hi).
  - apply (Hlast (LoDevice "/tmp/vol.img") "/dev/loop0"
             [(OtherPart "part0", "part0"%string); (OtherPart "part1", "part1"%string)]).
    by vm_compute.
Defined.
